(** * git-commit-categories: the adaptive batch-processing pipeline

    A shallow embedding of the pipeline of [commit-analyzer.ts] and of the
    cache and concurrency helpers under [src/], with the properties of the
    specification stated over it.

    Conventions of the embedding.
    - Counts (batch sizes, counters, token estimates, cursor positions) are
      natural numbers: [N] for the controller's numbers, [nat] for list
      positions. [ConfigService.validateConfig] requires the batch sizes to
      be positive numbers.
    - Millisecond timestamps and delays, retry counts and the concurrency
      limit are integers ([Z]); they may be negative in the source.
    - The factors [growthFactor] and [decayFactor] are IEEE-754 binary64
      numbers ([Binary64], with their rational value); the products and
      sums of the controller are rounded to binary64 as in the program, so
      [Math.floor (size * factor)] is the floor of the rounded product.
    - The JavaScript runtime and the remote service (regular expressions,
      the tokenizer, [fetch], [JSON], the clock, the file system) are
      explicit parameters or explicit state. *)

From Stdlib Require Import ZArith NArith QArith Qround Qminmax Qpower Lia Lqa
  Ascii String Sorted.
From stdpp Require Import base list strings gmap.

Local Open Scope N_scope.

(** ** Binary64 arithmetic

    Every number of the program is an IEEE-754 binary64 number. A finite
    binary64 number is a rational with a significand of at most 53 bits;
    the operators [*] and [+] return the exact result rounded to the nearest
    such number, ties to even. NaN, the infinities and the exponent range
    are not modelled: a result of magnitude [2^1024] or more is Infinity in
    the program, and a subnormal result has fewer bits; neither arises from
    a count below [2^53] and a factor of magnitude between [2^-969] and
    [2^970]. *)

(** [2^e] *)
Definition pow2 (e : Z) : Q := (2 ^ e)%Q.

(** For [x > 0], the exponent [e] with [2^e <= x < 2^(e+1)]. *)
Definition ilog2 (x : Q) : Z :=
  let e0 := (Z.log2 (Qnum x) - Z.log2 (Zpos (Qden x)))%Z in
  if Qle_bool (pow2 e0) x then e0 else (e0 - 1)%Z.

(** The nearest integer, the even one of two that are equally near. *)
Definition roundHalfEven (q : Q) : Z :=
  let f := Qfloor q in
  match (q - inject_Z f ?= 1 # 2)%Q with
  | Lt => f
  | Gt => (f + 1)%Z
  | Eq => if Z.even f then f else (f + 1)%Z
  end.

(** Rounding of a positive number to 53 significant bits: the significand
    of [x] in units of [2^(e-52)] is rounded to an integer. *)
Definition roundPos (x : Q) : Q :=
  let ulp := pow2 (ilog2 x - 52) in
  (inject_Z (roundHalfEven (x / ulp)) * ulp)%Q.

(** The binary64 number nearest to [x]. *)
Definition round64 (x : Q) : Q :=
  match (x ?= 0)%Q with
  | Eq => 0%Q
  | Gt => roundPos x
  | Lt => (- roundPos (- x))%Q
  end.

(** Whether [x] is a binary64 number. *)
Definition is_b64 (x : Q) : bool := Qeq_bool (round64 x) x.

(** A binary64 number, written as a decimal literal of the source or an
    argument of [parseFloat] writes it: [b64 (6 # 10)] is [0.6], the
    binary64 number nearest to 6/10. Every binary64 number [x] is
    [b64 x]. *)
Record Binary64 := b64 { decimal : Q }.

(** The number itself, as a rational. *)
Definition b64_value (x : Binary64) : Q := round64 (decimal x).

Coercion b64_value : Binary64 >-> Q.

(** [x * y] and [x + y] of the program. A count of [2^53] or more need not
    be a binary64 number, and is then not a number of the program; on such
    operands the operators are completed by the exact result. *)
Definition fl_mul (x y : Q) : Q :=
  if is_b64 x && is_b64 y then round64 (x * y) else (x * y)%Q.

Definition fl_add (x y : Q) : Q :=
  if is_b64 x && is_b64 y then round64 (x + y) else (x + y)%Q.

(** [2^-53]: the binary64 number below 1 is [1 - 2^-53]. *)
Definition eps53 : Q := 1 # 9007199254740992.

(** [Math.floor (n * f)] for a count [n] and a factor [f]: the floor of the
    binary64 product. A negative product is cut at 0: every use is under
    [Math.max minBatchSize _] or compared with a count, where 0 and a
    negative number act alike. *)
Definition floor_mul (n : N) (f : Binary64) : N :=
  Z.to_N (Qfloor (fl_mul (inject_Z (Z.of_N n)) f)).

(** ** Configuration ([interface Config]) *)

Record Config := mkConfig {
  classificationModel : string;
  initialBatchSize : N;
  minBatchSize : N;
  maxBatchSize : N;
  contextLimitThreshold : N;
  maxRetries : Z;
  baseDelay : Z;
  growthFactor : Binary64;
  decayFactor : Binary64;
  successThreshold : N;
  diffConcurrency : Z
}.

(** ** Batch management ([class BatchManager]) *)

Module BatchManager.

Record t := mk {
  currentBatchSize : N;
  consecutiveSuccesses : N;
  consecutiveFailures : N;
  contextOverflowCount : N
}.

(** [constructor(config)] *)
Definition new (config : Config) : t :=
  {| currentBatchSize := initialBatchSize config;
     consecutiveSuccesses := 0;
     consecutiveFailures := 0;
     contextOverflowCount := 0 |}.

Definition getCurrentBatchSize (bm : t) : N := currentBatchSize bm.

(** [adjustBatchSize(success, contextOverflow = false)]: the manager after
    the call (the returned number is its [currentBatchSize]). *)
Definition adjustBatchSize (config : Config) (bm : t)
    (success contextOverflow : bool) : t :=
  if contextOverflow then
    {| contextOverflowCount := contextOverflowCount bm + 1;
       consecutiveFailures := consecutiveFailures bm + 1;
       consecutiveSuccesses := 0;
       currentBatchSize :=
         N.max (minBatchSize config)
               (floor_mul (currentBatchSize bm) (decayFactor config)) |}
  else if success then
    let successes := consecutiveSuccesses bm + 1 in
    let grown :=
      {| currentBatchSize := currentBatchSize bm;
         consecutiveSuccesses := successes;
         consecutiveFailures := 0;
         contextOverflowCount := contextOverflowCount bm |} in
    if (successThreshold config <=? successes)
       && (currentBatchSize bm <? maxBatchSize config) then
      let newSize :=
        N.min (maxBatchSize config)
              (floor_mul (currentBatchSize bm) (growthFactor config)) in
      if currentBatchSize bm <? newSize then
        {| currentBatchSize := newSize;
           consecutiveSuccesses := 0;
           consecutiveFailures := 0;
           contextOverflowCount := contextOverflowCount bm |}
      else grown
    else grown
  else
    let failures := consecutiveFailures bm + 1 in
    let decayRate :=
      b64 (Qmin (b64 (8 # 10))
                (fl_add (decayFactor config)
                        (fl_mul (inject_Z (Z.of_N failures)) (b64 (1 # 10))))) in
    {| consecutiveFailures := failures;
       consecutiveSuccesses := 0;
       contextOverflowCount := contextOverflowCount bm;
       currentBatchSize :=
         N.max (minBatchSize config)
               (floor_mul (currentBatchSize bm) decayRate) |}.

(** One completed batch as the controller sees it: the two arguments of
    [adjustBatchSize]. *)
Record BatchOutcome := outcome { success : bool; contextOverflow : bool }.

Definition transition (config : Config) (bm : t) (o : BatchOutcome) : t :=
  adjustBatchSize config bm (success o) (contextOverflow o).

(** The manager after a sequence of transitions from the initial state. *)
Definition run (config : Config) (os : list BatchOutcome) : t :=
  fold_left (transition config) os (new config).

(** The parameters the specification calls valid. *)
Definition valid_params (config : Config) : Prop :=
  minBatchSize config <= initialBatchSize config
  /\ initialBatchSize config <= maxBatchSize config
  /\ (1 < growthFactor config)%Q
  /\ (0 < decayFactor config)%Q /\ (decayFactor config < 1)%Q
  /\ 1 <= successThreshold config.

Definition in_bounds (config : Config) (bm : t) : Prop :=
  minBatchSize config <= currentBatchSize bm
  /\ currentBatchSize bm <= maxBatchSize config.

End BatchManager.

(** The configuration of the specification's end-to-end scenario, which is
    also the default of [loadAndValidateConfig]. *)
Definition default_config : Config :=
  {| classificationModel := "deepseek/deepseek-r1-distill-llama-70b";
     initialBatchSize := 16; minBatchSize := 2; maxBatchSize := 128;
     contextLimitThreshold := 30000; maxRetries := 3; baseDelay := 500;
     growthFactor := b64 (15 # 10); decayFactor := b64 (6 # 10);
     successThreshold := 2; diffConcurrency := 4 |}.

(** ** Core data types *)

Record RawCommit := mkRaw { raw_hash : string; raw_message : string }.

Record EnrichedCommit := mkEnriched {
  enriched_hash : string;
  enriched_message : string;
  enriched_diff : string
}.

Record ClassifiedCommit := mkClassified {
  hash : string;
  message : string;
  diff : string;
  conformingPrefix : option string;
  suggestedPrefix : option string;
  reason : option string
}.

(** One entry of the [classifications] array of the oracle's answer. *)
Record Classification := mkClassification {
  cl_hash : string;
  cl_conformingPrefix : option string;
  cl_suggestedPrefix : option string;
  cl_reason : option string
}.

(** [{ ...commit }] *)
Definition unclassified (c : EnrichedCommit) : ClassifiedCommit :=
  mkClassified (enriched_hash c) (enriched_message c) (enriched_diff c)
               None None None.

(** ** The outside world: clock, timers, network *)

(** The exceptions of the pipeline. Each is an [Error] with its own message
    in the source. *)
Inductive Error :=
| DailyRateLimitExceeded (dailyLimit : N)
| InsufficientCredits
| HttpError (status : N) (body : string)
| FetchFailed (why : string)
| MalformedResponse
| ParseFailed
| PromptFailed
| IoFailed (what : string).

(** An HTTP response as [callLLMWithRetry] reads it: [json_content] is
    [data.choices[0].message.content] of [await response.json()], [None]
    when reading it throws. *)
Record Response := mkResponse {
  status : N;
  body_text : string;
  json_content : option string
}.

Definition response_ok (r : Response) : bool :=
  (200 <=? status r) && (status r <=? 299).

Inductive FetchOutcome :=
| FetchThrows (why : string)
| FetchResponds (r : Response).

(** The runtime and the remote service, as far as the pipeline calls them.
    - [fetch n prompt]: the outcome of the [n]-th request (counting from 0)
      sent with [prompt];
    - [tiktoken text]: the token count of the [tiktoken] encoder, [None]
      when the encoder throws;
    - [createClassificationPrompt]: the text of the prompt for a batch;
    - [parseClassifications]: [JSON.parse] of the answer (with the fallback
      extraction) followed by [.classifications], [None] when that throws;
    - [promptFails n]: whether building or estimating the prompt raises an
      exception in the [n]-th iteration of the batch loop;
    - [apiKeyInfo]: the answer of the key-status request, [None] when it
      fails: [limit - usage] and [is_free_tier]. *)
Record Runtime := mkRuntime {
  fetch : nat -> string -> FetchOutcome;
  tiktoken : string -> option N;
  createClassificationPrompt : list EnrichedCommit -> string;
  parseClassifications : string -> option (list Classification);
  promptFails : nat -> bool;
  apiKeyInfo : option (Q * bool)
}.

(** [interface RateLimitInfo] *)
Record RateLimitInfo := mkRateLimitInfo {
  requestsThisMinute : N;
  minuteStartTime : Z;
  dailyRequests : N;
  dayStartTime : Z;
  creditsRemaining : option Q;
  isFreeTier : bool
}.

(** The mutable world of one run: the clock ([Date.now()], in ms), the log
    of the [sleep] calls, the number of requests sent and of loop iterations
    started, and the state of the run's only [RateLimitManager]. *)
Record World := mkWorld {
  clock : Z;
  slept : list Z;
  fetchCount : nat;
  iterations : nat;
  rateLimitInfo : RateLimitInfo
}.

(** A computation either returns, throws, or does not come back: it is cut
    off by the bound on the iterations of a loop or on the depth of a
    recursion, or its process is killed. *)
Inductive Outcome (A : Type) : Type :=
| Returned (a : A)
| Thrown (e : Error)
| OutOfFuel.
Arguments Returned {A} a.
Arguments Thrown {A} e.
Arguments OutOfFuel {A}.

(** Computations over a mutable state [S]. *)
Definition St (S A : Type) : Type := S -> Outcome A * S.

Definition ret {S A} (a : A) : St S A := fun w => (Returned a, w).

Definition throw {S A} (e : Error) : St S A := fun w => (Thrown e, w).

Definition out_of_fuel {S A} : St S A := fun w => (OutOfFuel, w).

Definition bind {S A B} (m : St S A) (k : A -> St S B) : St S B :=
  fun w =>
    match m w with
    | (Returned a, w') => k a w'
    | (Thrown e, w') => (Thrown e, w')
    | (OutOfFuel, w') => (OutOfFuel, w')
    end.

(** [try { m } catch (error) { h error }] *)
Definition try_catch {S A} (m : St S A) (h : Error -> St S A) : St S A :=
  fun w =>
    match m w with
    | (Thrown e, w') => h e w'
    | r => r
    end.

Notation "'let*' x ':=' m 'in' k" := (bind m (fun x => k))
  (at level 10, x name, m at level 100, k at level 200).

(** The computations of the pipeline run over the [World]. *)
Definition M (A : Type) : Type := St World A.

Definition dateNow : M Z := fun w => (Returned (clock w), w).

(** [await sleep(ms)]: the timer fires exactly on time; a negative delay
    fires at once. *)
Definition sleep (ms : Z) : M unit :=
  fun w =>
    (Returned tt,
     mkWorld (clock w + Z.max 0 ms) (slept w ++ [ms]) (fetchCount w)
             (iterations w) (rateLimitInfo w)).

Definition getRateLimitInfo : M RateLimitInfo :=
  fun w => (Returned (rateLimitInfo w), w).

Definition setRateLimitInfo (info : RateLimitInfo) : M unit :=
  fun w =>
    (Returned tt,
     mkWorld (clock w) (slept w) (fetchCount w) (iterations w) info).

(** [await fetch(config.baseUrl, ...)] with [prompt] in the body. *)
Definition doFetch (rt : Runtime) (prompt : string) : M Response :=
  fun w =>
    let w' := mkWorld (clock w) (slept w) (S (fetchCount w)) (iterations w)
                      (rateLimitInfo w) in
    match fetch rt (fetchCount w) prompt with
    | FetchThrows why => (Thrown (FetchFailed why), w')
    | FetchResponds r => (Returned r, w')
    end.

(** ** Rate limiting ([class RateLimitManager]) *)

Module RateLimitManager.

(** The field initialiser of [rateLimitInfo], at construction time [now]. *)
Definition new (now : Z) : RateLimitInfo :=
  mkRateLimitInfo 0 now 0 now None true.

(** The two window resets at the head of [checkRateLimits]. *)
Definition rollWindows (now : Z) (info : RateLimitInfo) : RateLimitInfo :=
  let info1 :=
    if (60000 <=? now - minuteStartTime info)%Z
    then mkRateLimitInfo 0 now (dailyRequests info) (dayStartTime info)
                         (creditsRemaining info) (isFreeTier info)
    else info in
  if (86400000 <=? now - dayStartTime info1)%Z
  then mkRateLimitInfo (requestsThisMinute info1) (minuteStartTime info1) 0 now
                       (creditsRemaining info1) (isFreeTier info1)
  else info1.

(** [creditsRemaining && creditsRemaining >= 10 ? 1000 : 50] *)
Definition dailyLimit (info : RateLimitInfo) : N :=
  match creditsRemaining info with
  | Some c => if Qle_bool 10 c then 1000 else 50
  | None => 50
  end.

Definition checkRateLimits : M unit :=
  let* now := dateNow in
  let* info0 := getRateLimitInfo in
  let* _ := setRateLimitInfo (rollWindows now info0) in
  let* info := getRateLimitInfo in
  if isFreeTier info then
    let* _ :=
      if 20 <=? requestsThisMinute info then
        let waitTime := (60000 - (now - minuteStartTime info))%Z in
        let* _ := sleep (waitTime + 1000) in
        let* now' := dateNow in
        setRateLimitInfo
          (mkRateLimitInfo 0 now' (dailyRequests info) (dayStartTime info)
                           (creditsRemaining info) (isFreeTier info))
      else ret tt in
    let* info' := getRateLimitInfo in
    if dailyLimit info' <=? dailyRequests info'
    then throw (DailyRateLimitExceeded (dailyLimit info'))
    else ret tt
  else ret tt.

(** [updateApiKeyInfo]: failures are swallowed, the free-tier defaults stay. *)
Definition updateApiKeyInfo (rt : Runtime) : M unit :=
  match apiKeyInfo rt with
  | Some (credits, free) =>
      let* info := getRateLimitInfo in
      setRateLimitInfo
        (mkRateLimitInfo (requestsThisMinute info) (minuteStartTime info)
                         (dailyRequests info) (dayStartTime info)
                         (Some credits) free)
  | None => ret tt
  end.

Definition recordRequest : M unit :=
  let* info := getRateLimitInfo in
  setRateLimitInfo
    (mkRateLimitInfo (requestsThisMinute info + 1) (minuteStartTime info)
                     (dailyRequests info + 1) (dayStartTime info)
                     (creditsRemaining info) (isFreeTier info)).

End RateLimitManager.

(** ** LLM operations *)

Section llm.

Variable rt : Runtime.
Variable config : Config.

(** What the [try] block of [callLLMWithRetry] leaves behind: a value to
    return, or the decision to retry. The retry itself,
    [return callLLMWithRetry(..., retryCount + 1)], is not awaited inside
    the [try]: the promise of the recursive call is returned as it is, and
    its rejection is not caught at this level. *)
Inductive Attempt :=
| Done (content : string)
| Retry.

(** [config.baseDelay * Math.pow(2, retryCount)] *)
Definition backoffDelay (retryCount : Z) : Z :=
  (baseDelay config * 2 ^ retryCount)%Z.

(** The body of the [try] block. *)
Definition attemptRequest (prompt : string) (retryCount : Z) : M Attempt :=
  let* response := doFetch rt prompt in
  let* _ := RateLimitManager.recordRequest in
  if negb (response_ok response) then
    if (status response =? 429) && (retryCount <? maxRetries config)%Z then
      let* _ := sleep (backoffDelay retryCount) in
      ret Retry
    else if status response =? 402 then
      throw InsufficientCredits
    else
      throw (HttpError (status response) (body_text response))
  else
    match json_content response with
    | None => throw MalformedResponse
    | Some content =>
        ret (Done (if String.eqb content "" then "{}" else content))
    end.

(** The [catch] block. *)
Definition handleAttemptError (retryCount : Z) (error : Error) : M Attempt :=
  if (retryCount <? maxRetries config)%Z then
    let* _ := sleep (backoffDelay retryCount) in
    ret Retry
  else throw error.

(** [callLLMWithRetry(config, model, prompt, rateLimitManager, retryCount)];
    [fuel] bounds the depth of the recursion. *)
Fixpoint callLLMWithRetry_rec (fuel : nat) (model prompt : string)
    (retryCount : Z) : M string :=
  match fuel with
  | O => out_of_fuel
  | S fuel' =>
      let* _ := RateLimitManager.checkRateLimits in
      let* attempt :=
        try_catch (attemptRequest prompt retryCount)
                  (handleAttemptError retryCount) in
      match attempt with
      | Done content => ret content
      | Retry => callLLMWithRetry_rec fuel' model prompt (retryCount + 1)
      end
  end.

(** The recursion is at most [maxRetries - retryCount] deep below the first
    call. *)
Definition callLLMWithRetry (model prompt : string) (retryCount : Z)
    : M string :=
  callLLMWithRetry_rec (S (Z.to_nat (maxRetries config - retryCount)))
                       model prompt retryCount.

(** The result of [commits.map] in [classifyCommitsBatch]. *)
Definition attachClassification (result : list Classification)
    (commit : EnrichedCommit) : ClassifiedCommit :=
  match List.find (fun c => String.eqb (cl_hash c) (enriched_hash commit))
                  result with
  | Some classification =>
      mkClassified (enriched_hash commit) (enriched_message commit)
                   (enriched_diff commit)
                   (cl_conformingPrefix classification)
                   (cl_suggestedPrefix classification)
                   (cl_reason classification)
  | None => unclassified commit
  end.

Definition classifyCommitsBatch (commits : list EnrichedCommit)
    : M (list ClassifiedCommit) :=
  let prompt := createClassificationPrompt rt commits in
  try_catch
    (let* responseContent :=
       callLLMWithRetry (classificationModel config) prompt 0 in
     match parseClassifications rt responseContent with
     | None => throw ParseFailed
     | Some result => ret (map (attachClassification result) commits)
     end)
    (fun _ => ret (map unclassified commits)).

(** [estimateTokensAccurately]: the encoder's count, or
    [Math.ceil(text.length / 3.5)] when the encoder throws. *)
Definition estimateTokensAccurately (text : string) : N :=
  match tiktoken rt text with
  | Some n => n
  | None => Z.to_N (Qceiling (inject_Z (Z.of_nat (String.length text)) / (35 # 10)))
  end.

(** ** Batch processing engine ([processCommitsInAdaptiveBatches]) *)

Record LoopState := mkLoop {
  i : nat;
  batchNumber : nat;
  batchManager : BatchManager.t;
  classifiedCommits : list ClassifiedCommit
}.

(** [commits.slice(i, i + batchSize)] *)
Definition slice_batch (commits : list EnrichedCommit) (i : nat)
    (batchSize : N) : list EnrichedCommit :=
  take (N.to_nat batchSize) (drop i commits).

(** [{ ...c, diff: c.diff.substring(0, 200) }] *)
Definition truncateDiff (c : EnrichedCommit) : EnrichedCommit :=
  mkEnriched (enriched_hash c) (enriched_message c)
             (String.substring 0 200 (enriched_diff c)).

(** The oracle [promptFails] decides whether this iteration's prompt
    construction raises. *)
Definition buildPrompt (batch : list EnrichedCommit) : M string :=
  fun w =>
    let w' := mkWorld (clock w) (slept w) (fetchCount w) (S (iterations w))
                      (rateLimitInfo w) in
    if promptFails rt (iterations w)
    then (Thrown PromptFailed, w')
    else (Returned (createClassificationPrompt rt batch), w').

(** The [try] block of the loop body. [classifyCommitsBatch] catches every
    exception and the controller does not throw, so inside the block only
    the construction of the prompt can raise, before anything is changed. *)
Definition tryBatch (commits : list EnrichedCommit) (st : LoopState)
    (batch : list EnrichedCommit) : M LoopState :=
  let* prompt := buildPrompt batch in
  let estimatedTokens := estimateTokensAccurately prompt in
  if contextLimitThreshold config <? estimatedTokens then
    let bm := BatchManager.adjustBatchSize config (batchManager st) false true in
    if (BatchManager.getCurrentBatchSize bm =? minBatchSize config)
       && Nat.eqb (length batch) 1 then
      let truncatedBatch := map truncateDiff batch in
      let* batchResults := classifyCommitsBatch truncatedBatch in
      ret (mkLoop (i st + length batch) (batchNumber st + 1) bm
                  (classifiedCommits st ++ batchResults))
    else
      ret (mkLoop (i st) (batchNumber st) bm (classifiedCommits st))
  else
    let* batchResults := classifyCommitsBatch batch in
    let bm := BatchManager.adjustBatchSize config (batchManager st) true false in
    let i' := (i st + length batch)%nat in
    let* _ := if (i' <? length commits)%nat then sleep 300 else ret tt in
    ret (mkLoop i' (batchNumber st + 1) bm
                (classifiedCommits st ++ batchResults)).

(** The [catch] block of the loop body. *)
Definition skipOrRetry (st : LoopState) (batch : list EnrichedCommit)
    (error : Error) : M LoopState :=
  let bm := BatchManager.adjustBatchSize config (batchManager st) false false in
  let st' :=
    if BatchManager.getCurrentBatchSize bm =? minBatchSize config
    then mkLoop (i st + length batch) (batchNumber st + 1) bm
                (classifiedCommits st)
    else mkLoop (i st) (batchNumber st) bm (classifiedCommits st) in
  let* _ := sleep 2000 in
  ret st'.

(** One iteration of [while (i < commits.length)]. *)
Definition loopBody (commits : list EnrichedCommit) (st : LoopState)
    : M LoopState :=
  let batchSize := BatchManager.getCurrentBatchSize (batchManager st) in
  let batch := slice_batch commits (i st) batchSize in
  try_catch (tryBatch commits st batch) (skipOrRetry st batch).

(** The loop, cut off after [fuel] iterations. *)
Fixpoint batchLoop (fuel : nat) (commits : list EnrichedCommit)
    (st : LoopState) : M LoopState :=
  if (i st <? length commits)%nat then
    match fuel with
    | O => out_of_fuel
    | S fuel' =>
        let* st' := loopBody commits st in
        batchLoop fuel' commits st'
    end
  else ret st.

(** [let i = 0; let batchNumber = 1;] with a new [BatchManager] and an
    empty [classifiedCommits]. *)
Definition initialLoopState : LoopState :=
  mkLoop 0 1 (BatchManager.new config) [].

Definition processCommitsInAdaptiveBatches (fuel : nat)
    (commits : list EnrichedCommit) : M (list ClassifiedCommit) :=
  let* now := dateNow in
  let* _ := setRateLimitInfo (RateLimitManager.new now) in
  let* _ := RateLimitManager.updateApiKeyInfo rt in
  let* st := batchLoop fuel commits initialLoopState in
  ret (classifiedCommits st).

End llm.

(** ** Rule application ([applyTransformRules]) *)

(** The regular expressions and string methods of the runtime.
    [regex_test re s] is [re.test(s)], [regex_replace s re r] is
    [s.replace(re, r)], [regex_group1 s re] is [s.match(re)[1]] when the
    match exists and its first group is a non-empty string. The patterns of
    the rules are built without the [g] and [y] flags, so [test] does not
    depend on earlier calls. *)
Record RegExpEngine := mkEngine {
  RegExp : Type;
  regex_test : RegExp -> string -> bool;
  regex_replace : string -> RegExp -> string -> string;
  regex_group1 : string -> RegExp -> option string;
  str_trim : string -> string;
  str_toLowerCase : string -> string
}.

(** [s.replace(':', '')]: the first colon is removed. *)
Fixpoint removeFirstColon (s : string) : string :=
  match s with
  | EmptyString => EmptyString
  | String c s' =>
      if Ascii.eqb c ":"%char then s' else String c (removeFirstColon s')
  end.

Section rules.

Variable E : RegExpEngine.

Record TransformRule := mkRule {
  pattern : RegExp E;
  replacement : string;
  rule_reason : string
}.

Definition rule_matches (commit : RawCommit) (rule : TransformRule) : bool :=
  regex_test E (pattern rule) (raw_message commit).

(** The body of the [if] inside the loop over the rules. *)
Definition applyRule (commit : RawCommit) (result : ClassifiedCommit)
    (rule : TransformRule) : ClassifiedCommit :=
  let newMessage :=
    regex_replace E (raw_message commit) (pattern rule) (replacement rule) in
  let suggested := str_trim E (removeFirstColon (replacement rule)) in
  let suggested' :=
    if String.eqb suggested "$1" then
      match regex_group1 E (raw_message commit) (pattern rule) with
      | Some g => str_toLowerCase E g
      | None => suggested
      end
    else suggested in
  mkClassified (hash result) newMessage (diff result)
               (conformingPrefix result) (Some suggested')
               (Some (rule_reason rule)).

(** [for (const rule of rules) { if (...) { ...; break; } }] *)
Fixpoint applyFirstMatch (commit : RawCommit) (result : ClassifiedCommit)
    (rules : list TransformRule) : ClassifiedCommit :=
  match rules with
  | [] => result
  | rule :: rest =>
      if rule_matches commit rule
      then applyRule commit result rule
      else applyFirstMatch commit result rest
  end.

(** [{ ...commit, diff: 'Rule application - no diff available' }] *)
Definition blankResult (commit : RawCommit) : ClassifiedCommit :=
  mkClassified (raw_hash commit) (raw_message commit)
               "Rule application - no diff available" None None None.

Definition applyTransformRules (commits : list RawCommit)
    (rules : list TransformRule) : list ClassifiedCommit :=
  map (fun commit =>
         let result := blankResult commit in
         applyFirstMatch commit result rules)
      commits.

End rules.

Arguments pattern {E} _.
Arguments replacement {E} _.
Arguments rule_reason {E} _.

(** ** Bounded concurrency ([class ConcurrencyLimiter]) *)

Module ConcurrencyLimiter.

(** Tasks are named by numbers. [started] lists the tasks whose function has
    been called, in call order; [settled] those whose [finally] block has
    run. *)
Record t := mk {
  limit : Z;
  running : Z;
  queue : list nat;
  started : list nat;
  settled : list nat
}.

(** [constructor(private limit: number) {}] *)
Definition new (limit : Z) : Outcome t :=
  Returned (mk limit 0 [] [] []).

(** [execute()] up to the first [await]: the task is started. *)
Definition execute (l : t) (task : nat) : t :=
  mk (limit l) (running l + 1) (queue l) (started l ++ [task]) (settled l).

(** [run(fn)]: the executor of the returned promise, which starts the task
    or queues it; the promise itself stays pending. *)
Definition run (l : t) (task : nat) : Outcome t :=
  Returned
    (if (running l <? limit l)%Z
     then execute l task
     else mk (limit l) (running l) (queue l ++ [task]) (started l) (settled l)).

(** The [finally] block of [execute] when [task] completes: the next queued
    task, if any, is started. Only a started, unsettled task can complete. *)
Definition settle (l : t) (task : nat) : option t :=
  if bool_decide (task ∈ started l) && negb (bool_decide (task ∈ settled l))
  then
    let l' := mk (limit l) (running l - 1) (queue l) (started l)
                 (settled l ++ [task]) in
    match queue l' with
    | [] => Some l'
    | next :: rest =>
        Some (execute (mk (limit l') (running l') rest (started l')
                          (settled l')) next)
    end
  else None.

(** [tasks.map(task => limiter.run(task))] *)
Fixpoint runAll (l : t) (tasks : list nat) : Outcome t :=
  match tasks with
  | [] => Returned l
  | task :: rest =>
      match run l task with
      | Returned l' => runAll l' rest
      | r => r
      end
  end.

End ConcurrencyLimiter.

(** ** Files ([utils/file.ts]) and the cache ([CacheService]) *)

(** The system calls behind [fs.access], [fs.copyFile], [fs.rename] and
    [fs.writeFile]; the last one opens the file for writing, which empties
    it, and then writes the content. *)
Inductive FsOp :=
| Access (path : string)
| CopyFile (src dst : string)
| Rename (src dst : string)
| OpenTruncate (path : string)
| WriteAll (path content : string).

(** [interface GcaCache], with the two fields [saveCache] updates kept
    apart from the rest of the record. *)
Record GcaCache := mkCache {
  version : string;
  timestamp : string;
  repoHash : string;
  lastUpdateTime : string;
  cacheSize : N;
  payload : string
}.

(** The runtime under the cache service: [path.resolve], [String.trim],
    [JSON.stringify(x)] and [JSON.stringify(x, null, 2)], the current time
    as an ISO string, and the system calls that fail. *)
Record FsRuntime := mkFsRuntime {
  resolve : string -> string;
  fs_trim : string -> string;
  stringify : GcaCache -> string;
  stringifyPretty : GcaCache -> string;
  isoNow : string;
  fails : FsOp -> bool
}.

(** The files, the system calls made so far, and how many more system calls
    the process lives for ([None]: it is not killed). *)
Record FsWorld := mkFsWorld {
  files : gmap string string;
  trace : list FsOp;
  crashAfter : option nat
}.

Definition fs_effect (op : FsOp) (fs : gmap string string)
    : option (gmap string string) :=
  match op with
  | Access path => if fs !! path is Some _ then Some fs else None
  | CopyFile src dst =>
      if fs !! src is Some content then Some (<[dst := content]> fs) else None
  | Rename src dst =>
      if fs !! src is Some content
      then Some (<[dst := content]> (delete src fs)) else None
  | OpenTruncate path => Some (<[path := ""]> fs)
  | WriteAll path content => Some (<[path := content]> fs)
  end.

Definition fs_message (op : FsOp) : string :=
  match op with
  | Access _ => "access"
  | CopyFile _ _ => "copyFile"
  | Rename _ _ => "rename"
  | OpenTruncate _ => "open"
  | WriteAll _ _ => "write"
  end.

(** One system call: not made at all once the process is dead. *)
Definition syscall (frt : FsRuntime) (op : FsOp) : St FsWorld unit :=
  fun w =>
    match crashAfter w with
    | Some O => (OutOfFuel, w)
    | budget =>
        let budget' := match budget with Some (S n) => Some n | _ => None end in
        if fails frt op then
          (Thrown (IoFailed (fs_message op)),
           mkFsWorld (files w) (trace w ++ [op]) budget')
        else
          match fs_effect op (files w) with
          | Some fs' => (Returned tt, mkFsWorld fs' (trace w ++ [op]) budget')
          | None =>
              (Thrown (IoFailed (fs_message op)),
               mkFsWorld (files w) (trace w ++ [op]) budget')
          end
    end.

Section cache.

Variable frt : FsRuntime.

(** [fileExists] *)
Definition fileExists (filePath : string) : St FsWorld bool :=
  try_catch (let* _ := syscall frt (Access filePath) in ret true)
            (fun _ => ret false).

(** [fs.writeFile(path, content, 'utf8')] *)
Definition fs_writeFile (path content : string) : St FsWorld unit :=
  let* _ := syscall frt (OpenTruncate path) in
  syscall frt (WriteAll path content).

(** [writeJsonFile] *)
Definition writeJsonFile (filePath : string) (data : GcaCache)
    : St FsWorld unit :=
  let content := stringifyPretty frt data in
  fs_writeFile (resolve frt filePath) content.

(** [moveFile] *)
Definition moveFile (source destination : string) : St FsWorld unit :=
  syscall frt (Rename (resolve frt source) (resolve frt destination)).

Definition DEFAULT_CACHE_FILE : string := ".gca-cache.json".
Definition BACKUP_CACHE_FILE : string := ".gca-cache.backup.json".

(** [getCacheFilePath(customPath?)] *)
Definition getCacheFilePath (customPath : option string) : string :=
  match customPath with
  | Some p =>
      if negb (String.eqb (fs_trim frt p) "")
      then resolve frt p else resolve frt DEFAULT_CACHE_FILE
  | None => resolve frt DEFAULT_CACHE_FILE
  end.

(** [saveCache(cache, cachePath?)]. The record is updated in place before it
    is written; the result is the caller's record after the call. *)
Definition saveCache (cache : GcaCache) (cachePath : option string)
    : St FsWorld GcaCache :=
  try_catch
    (let filePath := getCacheFilePath cachePath in
     let sized :=
       mkCache (version cache) (timestamp cache) (repoHash cache)
               (lastUpdateTime cache)
               (N.of_nat (String.length (stringify frt cache)))
               (payload cache) in
     let cache' :=
       mkCache (version sized) (timestamp sized) (repoHash sized)
               (isoNow frt) (cacheSize sized) (payload sized) in
     let* _ :=
       try_catch
         (let backupPath := getCacheFilePath (Some BACKUP_CACHE_FILE) in
          let* present := fileExists filePath in
          if present then syscall frt (CopyFile filePath backupPath)
          else ret tt)
         (fun _ => ret tt) in
     let* _ := writeJsonFile filePath cache' in
     ret cache')
    (fun error => throw error).

End cache.

(** Whether an iteration of the loop consumes its batch: after an exception
    only when the decayed size is the minimum, after a pre-flight overflow
    only under the guard, and always after a classification. *)
Definition consumesBatch (rt : Runtime) (config : Config) (st : LoopState)
    (w : World) (batch : list EnrichedCommit) : bool :=
  if promptFails rt (iterations w) then
    BatchManager.getCurrentBatchSize
      (BatchManager.adjustBatchSize config (batchManager st) false false)
    =? minBatchSize config
  else if contextLimitThreshold config
          <? estimateTokensAccurately rt (createClassificationPrompt rt batch)
  then
    (BatchManager.getCurrentBatchSize
       (BatchManager.adjustBatchSize config (batchManager st) false true)
     =? minBatchSize config)
    && Nat.eqb (length batch) 1
  else true.

(** The controller after an iteration: it is told of a failure after an
    exception, of an overflow after an oversized estimate, and of a success
    after a classification. *)
Definition managerAfter (rt : Runtime) (config : Config) (st : LoopState)
    (w : World) (batch : list EnrichedCommit) : BatchManager.t :=
  if promptFails rt (iterations w) then
    BatchManager.adjustBatchSize config (batchManager st) false false
  else if contextLimitThreshold config
          <? estimateTokensAccurately rt (createClassificationPrompt rt batch)
  then BatchManager.adjustBatchSize config (batchManager st) false true
  else BatchManager.adjustBatchSize config (batchManager st) true false.

(** A bound on the iterations the loop still needs when the minimum batch
    size is 1: every iteration either moves the cursor or shrinks the size. *)
Definition loopMeasure (config : Config) (commits : list EnrichedCommit)
    (st : LoopState) : nat :=
  ((length commits - i st) * (N.to_nat (maxBatchSize config) + 1)
   + N.to_nat (BatchManager.currentBatchSize (batchManager st)))%nat.

(** ** Scenarios *)

(** A world at time 0 with a freshly constructed rate limiter. *)
Definition fresh_world : World :=
  mkWorld 0 [] 0 0 (RateLimitManager.new 0).

(** A service that answers every request with HTTP 402. *)
Definition rt_no_credit : Runtime :=
  mkRuntime (fun _ _ => FetchResponds (mkResponse 402 "Payment Required" None))
            (fun _ => Some 10) (fun _ => "prompt") (fun _ => None)
            (fun _ => false) None.

(** A tokenizer that counts 200 tokens for every prompt, and a service that
    is never reached. *)
Definition rt_overflow : Runtime :=
  mkRuntime (fun _ _ => FetchThrows "unreachable")
            (fun _ => Some 200) (fun _ => "prompt") (fun _ => None)
            (fun _ => false) None.

(** The default configuration with [CONTEXT_LIMIT_THRESHOLD=100]. *)
Definition config_low_threshold : Config :=
  {| classificationModel := classificationModel default_config;
     initialBatchSize := 16; minBatchSize := 2; maxBatchSize := 128;
     contextLimitThreshold := 100; maxRetries := 3; baseDelay := 500;
     growthFactor := b64 (15 # 10); decayFactor := b64 (6 # 10);
     successThreshold := 2; diffConcurrency := 4 |}.

Definition two_commits : list EnrichedCommit :=
  [mkEnriched "a1b2c3d" "feat: add new login button" "modified code";
   mkEnriched "d4e5f6g" "Initial commit" "added config"].

(** A service that classifies nothing but answers every request, and a
    tokenizer that counts 10 tokens for every prompt. *)
Definition rt_quiet : Runtime :=
  mkRuntime (fun _ _ => FetchResponds (mkResponse 200 "" (Some "{}")))
            (fun _ => Some 10) (fun _ => "prompt") (fun _ => Some [])
            (fun _ => false) None.

(** A regular-expression engine for literal, case-sensitive prefixes: a
    pattern matches the messages that start with it, and replacing puts the
    replacement in the place of the prefix. *)
Definition prefixEngine : RegExpEngine :=
  {| RegExp := string;
     regex_test := fun re s => String.prefix re s;
     regex_replace := fun s re r =>
       if String.prefix re s
       then String.append r (String.substring (String.length re)
                                              (String.length s) s)
       else s;
     regex_group1 := fun _ _ => None;
     str_trim := fun s => s;
     str_toLowerCase := fun s => s |}.

Definition prefix_rules : list (TransformRule prefixEngine) :=
  [mkRule prefixEngine "Add " "feat: " "Standardize Add prefix to feat";
   mkRule prefixEngine "Fix " "fix: " "Standardize Fix prefix";
   mkRule prefixEngine "Fix bug" "chore: " "Shadowed by the rule before"].

Definition raw_commits : list RawCommit :=
  [mkRaw "a1b2c3d" "Fix bug in parser"; mkRaw "d4e5f6g" "Initial commit"].

(** A file system that never fails, with [path.resolve] the identity. *)
Definition frt_plain : FsRuntime :=
  {| resolve := fun p => p;
     fs_trim := fun s => s;
     stringify := fun c => payload c;
     stringifyPretty := fun c => payload c;
     isoNow := "2025-01-01T00:00:00.000Z";
     fails := fun _ => false |}.

Definition cache_new : GcaCache :=
  mkCache "1.0.0" "2025-01-01T00:00:00.000Z" "abc1234" "" 0 "new state".

(** The cache file holds an earlier state. *)
Definition files_old : gmap string string :=
  {[ ".gca-cache.json" := "old state" ]}.

(** ** Runs of the concurrency limiter *)

(** What happens to a limiter over time: a caller passes a task to [run],
    or a started task completes and its [finally] block runs. *)
Inductive LimiterEvent :=
| Submit (task : nat)
| Complete (task : nat).

(** One event; [None] when a task completes that is not running. *)
Definition limiterStep (l : ConcurrencyLimiter.t) (e : LimiterEvent)
    : option ConcurrencyLimiter.t :=
  match e with
  | Submit task =>
      match ConcurrencyLimiter.run l task with
      | Returned l' => Some l'
      | _ => None
      end
  | Complete task => ConcurrencyLimiter.settle l task
  end.

Fixpoint limiterRun (l : ConcurrencyLimiter.t) (events : list LimiterEvent)
    : option ConcurrencyLimiter.t :=
  match events with
  | [] => Some l
  | e :: rest =>
      match limiterStep l e with
      | Some l' => limiterRun l' rest
      | None => None
      end
  end.

(** The tasks passed to [run], in call order. *)
Fixpoint submitted (events : list LimiterEvent) : list nat :=
  match events with
  | [] => []
  | Submit task :: rest => task :: submitted rest
  | Complete _ :: rest => submitted rest
  end.

(** [new ConcurrencyLimiter(limit)] *)
Definition freshLimiter (limit : Z) : ConcurrencyLimiter.t :=
  ConcurrencyLimiter.mk limit 0 [] [] [].

(** What every reachable limiter satisfies. *)
Definition limiterInvariant (l : ConcurrencyLimiter.t) : Prop :=
  (ConcurrencyLimiter.running l <= Z.max 0 (ConcurrencyLimiter.limit l))%Z
  /\ ConcurrencyLimiter.running l
     = (Z.of_nat (length (ConcurrencyLimiter.started l))
        - Z.of_nat (length (ConcurrencyLimiter.settled l)))%Z
  /\ (ConcurrencyLimiter.queue l <> [] ->
      (ConcurrencyLimiter.limit l <= ConcurrencyLimiter.running l)%Z)
  /\ NoDup (ConcurrencyLimiter.settled l)
  /\ (forall task, task ∈ ConcurrencyLimiter.settled l ->
                   task ∈ ConcurrencyLimiter.started l).

(** ** More scenarios *)

(** The default configuration with [MIN_BATCH_SIZE=1] and
    [CONTEXT_LIMIT_THRESHOLD=100]. *)
Definition config_min_one : Config :=
  {| classificationModel := classificationModel default_config;
     initialBatchSize := 16; minBatchSize := 1; maxBatchSize := 128;
     contextLimitThreshold := 100; maxRetries := 3; baseDelay := 500;
     growthFactor := b64 (15 # 10); decayFactor := b64 (6 # 10);
     successThreshold := 2; diffConcurrency := 4 |}.

(** A world whose key is off the free tier. *)
Definition paid_world : World :=
  mkWorld 0 [] 0 0 (mkRateLimitInfo 0 0 0 0 (Some (25 # 1)) false).

(** A service that is down: every request throws. *)
Definition rt_down : Runtime :=
  mkRuntime (fun _ _ => FetchThrows "ECONNREFUSED")
            (fun _ => Some 10) (fun _ => "prompt") (fun _ => None)
            (fun _ => false) None.

(** A service that classifies the first of [two_commits] only. *)
Definition rt_partial : Runtime :=
  mkRuntime (fun _ _ => FetchResponds (mkResponse 200 "" (Some "answer")))
            (fun _ => Some 10) (fun _ => "prompt")
            (fun _ => Some [mkClassification "a1b2c3d" (Some "feat")
                              (Some "feat") (Some "already conventional")])
            (fun _ => false) None.

(** The delays of the retries from [retryCount] up to the budget:
    [baseDelay * 2^retryCount], [baseDelay * 2^(retryCount + 1)], ... *)
Definition retryDelays (config : Config) (retryCount : Z) : list Z :=
  map (fun k => backoffDelay config (retryCount + Z.of_nat k))
      (seq 0 (Z.to_nat (maxRetries config - retryCount))).

(** [n] successful batches in a row. *)
Definition successes (config : Config) (n : nat) (bm : BatchManager.t)
    : BatchManager.t :=
  Nat.iter n (fun b => BatchManager.adjustBatchSize config b true false) bm.

(** ** Parsing the commit log ([parseCommitEntries]) *)

(** A string is truthy when it is not empty. *)
Definition truthy (s : string) : bool := negb (String.eqb s "").

Section parse.

(** [String.prototype.trim] *)
Variable trim : string -> string.

(** The loop [for (let i = 0; i < logEntries.length; i += 2)]: entries are
    read in pairs, [message] is undefined for the last entry of a list of
    odd length. *)
Fixpoint parseCommitEntries (logEntries : list string) : list RawCommit :=
  match logEntries with
  | hash :: message :: rest =>
      (if truthy hash && truthy message
       then [mkRaw (trim hash) (trim message)] else [])
      ++ parseCommitEntries rest
  | _ => []
  end.

(** The entries of a log that lists the given commits. *)
Definition logEntriesOf (commits : list RawCommit) : list string :=
  flat_map (fun c => [raw_hash c; raw_message c]) commits.

End parse.

(** ** Path helpers ([utils/file.ts]) *)

(** [s.lastIndexOf(c)], [None] for -1. *)
Fixpoint lastIndexOf (c : ascii) (s : string) : option nat :=
  match s with
  | EmptyString => None
  | String a s' =>
      match lastIndexOf c s' with
      | Some k => Some (S k)
      | None => if Ascii.eqb a c then Some 0%nat else None
      end
  end.

(** [s.substring(n)] *)
Fixpoint str_drop (n : nat) (s : string) : string :=
  match n, s with
  | O, _ => s
  | S n', EmptyString => EmptyString
  | S n', String _ s' => str_drop n' s'
  end.

(** [s.substring(0, n)] *)
Fixpoint str_take (n : nat) (s : string) : string :=
  match n, s with
  | O, _ => EmptyString
  | S n', EmptyString => EmptyString
  | S n', String a s' => String a (str_take n' s')
  end.

(** [Math.max(i, j)] on indexes, with [None] for -1. *)
Definition maxIndex (i j : option nat) : option nat :=
  match i, j with
  | Some a, Some b => Some (Nat.max a b)
  | Some a, None => Some a
  | None, j' => j'
  end.

(** [Math.max(filePath.lastIndexOf('/'), filePath.lastIndexOf('\\'))] *)
Definition lastSlash (filePath : string) : option nat :=
  maxIndex (lastIndexOf "/"%char filePath) (lastIndexOf "\"%char filePath).

Definition getFileExtension (filePath : string) : string :=
  match lastIndexOf "."%char filePath with
  | None => EmptyString
  | Some lastDot => str_drop lastDot filePath
  end.

Definition getFileName (filePath : string) : string :=
  match lastSlash filePath with
  | None => filePath
  | Some k => str_drop (k + 1) filePath
  end.

Definition getFileNameWithoutExtension (filePath : string) : string :=
  let fileName := getFileName filePath in
  match lastIndexOf "."%char fileName with
  | None => fileName
  | Some lastDot => str_take lastDot fileName
  end.

Definition getDirectoryPath (filePath : string) : string :=
  match lastSlash filePath with
  | None => "."
  | Some k => str_take k filePath
  end.

(** ** Retrying with backoff and running in sequence ([utils/async.ts]) *)

Section retry.

Context {E A : Type}.

(** [fn n]: what the [n]-th call of the retried function does, an error
    thrown or a value. *)
Variable fn : nat -> E + A.
Variable maxRetries : Z.
Variables baseDelay backoffFactor maxDelay : Q.

Inductive RetryOutcome :=
| RetryReturned (a : A)
| RetryThrown (e : E)
| RetryNoError
| RetryOutOfFuel.

(** The outcome, the number of calls of [fn], and the delays slept.
    [RetryNoError] is the error 'RetryWithBackoff failed without capturing
    an error.' *)
Record RetryRun := mkRetryRun {
  retry_outcome : RetryOutcome;
  retry_calls : nat;
  retry_delays : list Q
}.

(** [Math.min(baseDelay * Math.pow(backoffFactor, attempt), maxDelay)] *)
Definition retryDelay (attempt : Z) : Q :=
  Qmin (baseDelay * backoffFactor ^ attempt) maxDelay.

(** The delays slept before the attempts [attempt + 1 .. attempt + n]. *)
Definition delaysFrom (attempt : Z) (n : nat) : list Q :=
  map (fun k => retryDelay (attempt + Z.of_nat k)%Z) (seq 0 n).

(** [for (let attempt = 0; attempt <= maxRetries; attempt++)] and the
    statements after it. *)
Fixpoint retryLoop (fuel : nat) (attempt : Z) (lastError : option E)
    (calls : nat) (delays : list Q) : RetryRun :=
  if (attempt <=? maxRetries)%Z then
    match fuel with
    | O => mkRetryRun RetryOutOfFuel calls delays
    | S fuel' =>
        match fn calls with
        | inr a => mkRetryRun (RetryReturned a) (S calls) delays
        | inl error =>
            if (attempt =? maxRetries)%Z
            then mkRetryRun (RetryThrown error) (S calls) delays
            else retryLoop fuel' (attempt + 1) (Some error) (S calls)
                           (delays ++ [retryDelay attempt])
        end
    end
  else
    match lastError with
    | Some error => mkRetryRun (RetryThrown error) calls delays
    | None => mkRetryRun RetryNoError calls delays
    end.

(** The loop runs at most [maxRetries + 1] times. *)
Definition retryWithBackoff : RetryRun :=
  retryLoop (Z.to_nat (maxRetries + 1)) 0 None 0 [].

End retry.

Arguments RetryOutcome : clear implicits.
Arguments RetryRun : clear implicits.

Section sequence.

Context {E T : Type}.

(** An entry of the result of [sequence]; [SeqUndefined i] is the error
    'Task at index i is undefined'. *)
Inductive SeqResult :=
| SeqValue (v : T)
| SeqError (e : E)
| SeqUndefined (index : nat).

(** [sequence(tasks, { stopOnError, onError })] from index [i] on. A task is
    given by what awaiting it does; [None] is an undefined entry of the
    array. The second component lists the calls of [onError]. *)
Fixpoint sequenceFrom (i : nat) (tasks : list (option (E + T)))
    (stopOnError : bool) : list SeqResult * list (E * nat) :=
  match tasks with
  | [] => ([], [])
  | None :: rest =>
      let '(results, calls) := sequenceFrom (S i) rest stopOnError in
      (SeqUndefined i :: results, calls)
  | Some (inr v) :: rest =>
      let '(results, calls) := sequenceFrom (S i) rest stopOnError in
      (SeqValue v :: results, calls)
  | Some (inl e) :: rest =>
      if stopOnError then ([SeqError e], [(e, i)])
      else
        let '(results, calls) := sequenceFrom (S i) rest stopOnError in
        (SeqError e :: results, (e, i) :: calls)
  end.

Definition sequence (tasks : list (option (E + T))) (stopOnError : bool)
    : list SeqResult * list (E * nat) :=
  sequenceFrom 0 tasks stopOnError.

Definition isSeqError (r : SeqResult) : bool :=
  match r with SeqError _ => true | _ => false end.

End sequence.

Arguments SeqResult : clear implicits.

(** ** Loading the cache ([CacheService.loadCache]) *)

(** The reading side of the runtime: [JSON.parse] of a cache file, [None]
    when it throws, and the paths whose reading fails. *)
Record ReadRuntime := mkReadRuntime {
  parseCache : string -> option GcaCache;
  readFails : string -> bool
}.

(** [fs.readFile(path, 'utf8')]: it changes no file and is not listed in the
    trace; it throws when the file is missing or cannot be read. *)
Definition fs_readFile (rrt : ReadRuntime) (path : string)
    : St FsWorld string :=
  fun w =>
    match crashAfter w with
    | Some O => (OutOfFuel, w)
    | budget =>
        let budget' := match budget with Some (S n) => Some n | _ => None end in
        let w' := mkFsWorld (files w) (trace w) budget' in
        if readFails rrt path then (Thrown (IoFailed "read"), w')
        else
          match files w !! path with
          | Some content => (Returned content, w')
          | None => (Thrown (IoFailed "read"), w')
          end
    end.

Definition CACHE_VERSION : string := "1.0.0".

Section cache_load.

Variable frt : FsRuntime.
Variable rrt : ReadRuntime.

(** [readJsonFile] *)
Definition readJsonFile (filePath : string) : St FsWorld GcaCache :=
  let* content := fs_readFile rrt (resolve frt filePath) in
  match parseCache rrt content with
  | Some cache => ret cache
  | None => throw ParseFailed
  end.

(** [loadCache(cachePath?)]: [None] is [null]. *)
Definition loadCache (cachePath : option string)
    : St FsWorld (option GcaCache) :=
  try_catch
    (let filePath := getCacheFilePath frt cachePath in
     let* present := fileExists frt filePath in
     if negb present then ret None
     else
       let* cache := readJsonFile filePath in
       if negb (String.eqb (version cache) CACHE_VERSION) then ret None
       else ret (Some cache))
    (fun _ => ret None).

End cache_load.

(** ** Processing phases ([canResumeFromPhase], [getCacheStatistics]) *)

Inductive ProcessingPhase :=
| fetching
| enriching
| classifying
| generating_rules
| applying_rules
| complete.

#[global] Instance ProcessingPhase_eq_dec : EqDecision ProcessingPhase.
Proof. solve_decision. Defined.

Definition phaseOrder : list ProcessingPhase :=
  [fetching; enriching; classifying; generating_rules; applying_rules;
   complete].

(** [array.indexOf(x)], -1 when [x] is not in the array. *)
Fixpoint indexOf {A} `{EqDecision A} (x : A) (l : list A) : Z :=
  match l with
  | [] => -1
  | y :: l' =>
      if decide (y = x) then 0
      else let k := indexOf x l' in if (k <? 0)%Z then -1 else k + 1
  end%Z.

(** [canResumeFromPhase(cache, phase)] for a cache in phase [cachePhase]. *)
Definition canResumeFromPhase (cachePhase phase : ProcessingPhase) : bool :=
  let currentPhaseIndex := indexOf cachePhase phaseOrder in
  let targetPhaseIndex := indexOf phase phaseOrder in
  (targetPhaseIndex <=? currentPhaseIndex)%Z.

(** The [phases] field of [getCacheStatistics]: [completed], [current] and
    [remaining]. (A phase of the type is always in the list, so the index
    is never -1.) *)
Definition statisticsPhases (cachePhase : ProcessingPhase)
    : list ProcessingPhase * ProcessingPhase * list ProcessingPhase :=
  let currentPhaseIndex := indexOf cachePhase phaseOrder in
  (take (Z.to_nat currentPhaseIndex) phaseOrder,
   cachePhase,
   drop (Z.to_nat (currentPhaseIndex + 1)) phaseOrder).

(** ** Validation ([validateBatchSizes], [combineValidationResults]) *)

(** [{ isValid, errors }] *)
Record Verdict := mkVerdict { isValid : bool; errors : list string }.

(** [isPositiveNumber] on a number. *)
Definition isPositiveNumber (value : Z) : bool := (0 <? value)%Z.

(** [ConfigService.validateBatchSizes(initial, min, max)] *)
Definition validateBatchSizes (initial min max : Z) : Verdict :=
  let errors :=
    (if negb (isPositiveNumber initial)
     then ["Initial batch size must be positive"] else [])
    ++ (if negb (isPositiveNumber min)
        then ["Minimum batch size must be positive"] else [])
    ++ (if negb (isPositiveNumber max)
        then ["Maximum batch size must be positive"] else [])
    ++ (if (max <=? min)%Z
        then ["Minimum batch size must be less than maximum"] else [])
    ++ (if (initial <? min)%Z || (max <? initial)%Z
        then ["Initial batch size must be between min and max"] else []) in
  mkVerdict (Nat.eqb (length errors) 0) errors.

Module ValidationResult.

(** [interface ValidationResult<T>] *)
Record t (T : Type) := mk {
  isValid : bool;
  errors : list string;
  warnings : option (list string);
  data : option T
}.
Arguments mk {T} _ _ _ _.
Arguments isValid {T} _.
Arguments errors {T} _.
Arguments warnings {T} _.
Arguments data {T} _.

(** The three accumulators of the loop of [combineValidationResults]. *)
Definition allErrors {T} (results : list (t T)) : list string :=
  flat_map errors results.

Definition allWarnings {T} (results : list (t T)) : list string :=
  flat_map (fun r => default [] (warnings r)) results.

Definition validData {T} (results : list (t T)) : list T :=
  flat_map (fun r =>
              match data r with
              | Some d => if isValid r then [d] else []
              | None => []
              end) results.

(** [combineValidationResults] *)
Definition combineValidationResults {T} (results : list (t T)) : t (list T) :=
  mk (Nat.eqb (length (allErrors results)) 0)
     (allErrors results)
     (if (0 <? length (allWarnings results))%nat
      then Some (allWarnings results) else None)
     (Some (validData results)).

End ValidationResult.

(** A parser that undoes [stringifyPretty] of [frt_plain] for the record
    [cache_new] as [saveCache] writes it. *)
Definition rrt_plain : ReadRuntime :=
  {| parseCache := fun content =>
       if String.eqb content "new state"
       then Some (mkCache "1.0.0" "2025-01-01T00:00:00.000Z" "abc1234"
                          "2025-01-01T00:00:00.000Z" 9 "new state")
       else None;
     readFails := fun _ => false |}.

(** A result that carries its commit: same hash and message, and the diff
    of the commit, whole or cut to its first 200 characters. *)
Definition keepsCommit (r : ClassifiedCommit) (c : EnrichedCommit) : Prop :=
  hash r = enriched_hash c
  /\ message r = enriched_message c
  /\ (diff r = enriched_diff c
      \/ diff r = String.substring 0 200 (enriched_diff c)).

(** ** Properties of binary64 rounding

    [round64] is rounding to nearest, ties to even: its result is a
    binary64 number ([round64_idempotent]), no binary64 number is nearer
    ([round64_nearest]), and of two nearest ones it takes the one with the
    even significand ([roundHalfEven_tie]). *)

Section binary64_facts.

Local Open Scope Q_scope.

Lemma pow2_pos (e : Z) : 0 < pow2 e.
Proof. apply Qpower_0_lt. reflexivity. Qed.

Lemma pow2_add (a b : Z) : pow2 (a + b) == pow2 a * pow2 b.
Proof. apply Qpower_plus. discriminate. Qed.

Lemma pow2_lt (a b : Z) : (a < b)%Z -> pow2 a < pow2 b.
Proof. intros H. apply Qpower_lt_compat_l; [exact H | reflexivity]. Qed.

Lemma pow2_le (a b : Z) : (a <= b)%Z -> pow2 a <= pow2 b.
Proof. intros H. apply Qpower_le_compat_l; [exact H | discriminate]. Qed.

Lemma pow2_lt_inv (a b : Z) : pow2 a < pow2 b -> (a < b)%Z.
Proof. intros H. apply (Qpower_lt_compat_l_inv 2); [exact H | reflexivity]. Qed.

Lemma pow2_Z (e : Z) : (0 <= e)%Z -> pow2 e == inject_Z (2 ^ e).
Proof. intros H. unfold pow2. rewrite Zpower_Qpower by exact H. reflexivity. Qed.

Lemma pow2_succ (e : Z) : pow2 (e + 1) == 2 * pow2 e.
Proof. rewrite pow2_add. change (pow2 1) with 2. ring. Qed.

Lemma inject_log2 (a : Z) :
  (0 < a)%Z -> pow2 (Z.log2 a) <= inject_Z a < pow2 (Z.log2 a + 1).
Proof.
intros Ha. destruct (Z.log2_spec a Ha) as [Hlo Hhi].
pose proof (Z.log2_nonneg a) as Hnn.
rewrite !pow2_Z by lia. rewrite <- Zle_Qle, <- Zlt_Qlt.
replace (Z.log2 a + 1)%Z with (Z.succ (Z.log2 a)) by lia. split; assumption.
Qed.

Lemma Q_as_quotient (x : Q) : x * inject_Z (Zpos (Qden x)) == inject_Z (Qnum x).
Proof.
destruct x as [a b]. unfold Qeq, Qmult, inject_Z. cbn. lia.
Qed.

Lemma ilog2_spec (x : Q) : 0 < x -> pow2 (ilog2 x) <= x < pow2 (ilog2 x + 1).
Proof.
intros Hx.
assert (Ha : (0 < Qnum x)%Z).
{ destruct x as [a b]. unfold Qlt in Hx. cbn in *. lia. }
pose proof (inject_log2 (Qnum x) Ha) as [Ha1 Ha2].
pose proof (inject_log2 (Zpos (Qden x)) eq_refl) as [Hb1 Hb2].
pose proof (Q_as_quotient x) as Hq.
set (la := Z.log2 (Qnum x)) in *. set (lb := Z.log2 (Zpos (Qden x))) in *.
unfold ilog2. fold la lb.
pose proof (pow2_add (la - lb) lb) as H1.
replace (la - lb + lb)%Z with la in H1 by lia.
pose proof (pow2_succ la) as H2. pose proof (pow2_succ lb) as H3.
pose proof (pow2_succ (la - lb)) as H4.
pose proof (pow2_succ (la - lb - 1)) as H5.
replace (la - lb - 1 + 1)%Z with (la - lb)%Z in * by lia.
pose proof (pow2_pos (la - lb)) as P1. pose proof (pow2_pos lb) as P2.
pose proof (pow2_pos la) as P3. pose proof (pow2_pos (la - lb - 1)) as P4.
destruct (Qle_bool (pow2 (la - lb)) x) eqn:Hb.
- apply Qle_bool_iff in Hb. split; [exact Hb|].
  generalize dependent (pow2 (la - lb + 1)). generalize dependent (pow2 (la + 1)).
  generalize dependent (pow2 (lb + 1)). intros. nra.
- assert (Hlt : x < pow2 (la - lb)).
  { apply Qnot_le_lt. intros H. apply Qle_bool_iff in H. congruence. }
  replace (la - lb - 1 + 1)%Z with (la - lb)%Z by lia.
  split; [|exact Hlt]. nra.
Qed.

Lemma ilog2_unique (x : Q) (e : Z) :
  pow2 e <= x -> x < pow2 (e + 1) -> ilog2 x = e.
Proof.
intros Hlo Hhi.
assert (Hx : 0 < x) by (pose proof (pow2_pos e); lra).
destruct (ilog2_spec x Hx) as [Hlo' Hhi'].
assert (H1 : (ilog2 x < e + 1)%Z) by (apply pow2_lt_inv; lra).
assert (H2 : (e < ilog2 x + 1)%Z) by (apply pow2_lt_inv; lra).
lia.
Qed.

Lemma roundHalfEven_comp (q q' : Q) :
  q == q' -> roundHalfEven q = roundHalfEven q'.
Proof.
intros H. unfold roundHalfEven.
rewrite (Qfloor_comp q q' H).
rewrite (Qcompare_comp (q - inject_Z (Qfloor q')) (q' - inject_Z (Qfloor q'))
           (Qplus_comp _ _ H _ _ (Qeq_refl _)) (1 # 2) (1 # 2) (Qeq_refl _)).
reflexivity.
Qed.

Lemma roundHalfEven_near (q : Q) :
  q - (1 # 2) <= inject_Z (roundHalfEven q) <= q + (1 # 2).
Proof.
unfold roundHalfEven.
pose proof (Qfloor_le q) as Hlo. pose proof (Qlt_floor q) as Hhi.
rewrite inject_Z_plus in Hhi. change (inject_Z 1) with 1 in Hhi.
destruct (q - inject_Z (Qfloor q) ?= 1 # 2) eqn:Hc.
- apply Qeq_alt in Hc.
  destruct (Z.even (Qfloor q)); [|rewrite inject_Z_plus; change (inject_Z 1) with 1];
    lra.
- apply Qlt_alt in Hc. lra.
- apply Qgt_alt in Hc. rewrite inject_Z_plus. change (inject_Z 1) with 1. lra.
Qed.

Lemma inject_Z_lt_succ (a b : Z) : inject_Z a < inject_Z b + 1 -> (a <= b)%Z.
Proof.
intros H. change 1 with (inject_Z 1) in H. rewrite <- inject_Z_plus in H.
rewrite <- Zlt_Qlt in H. lia.
Qed.

Lemma roundHalfEven_ge (q : Q) (k : Z) :
  inject_Z k <= q -> (k <= roundHalfEven q)%Z.
Proof.
intros H. pose proof (roundHalfEven_near q) as [Hlo _].
apply inject_Z_lt_succ. lra.
Qed.

Lemma roundHalfEven_le (q : Q) (k : Z) :
  q <= inject_Z k -> (roundHalfEven q <= k)%Z.
Proof.
intros H. pose proof (roundHalfEven_near q) as [_ Hhi].
apply inject_Z_lt_succ. lra.
Qed.

Lemma roundHalfEven_below_half (q : Q) (k : Z) :
  q < inject_Z k + (1 # 2) -> (roundHalfEven q <= k)%Z.
Proof.
intros H. pose proof (roundHalfEven_near q) as [_ Hhi].
apply inject_Z_lt_succ. lra.
Qed.

Lemma roundHalfEven_Z (k : Z) : roundHalfEven (inject_Z k) = k.
Proof.
pose proof (roundHalfEven_ge (inject_Z k) k ltac:(lra)).
pose proof (roundHalfEven_le (inject_Z k) k ltac:(lra)). lia.
Qed.

(** A tie goes to the even integer. *)
Lemma roundHalfEven_tie (q : Q) :
  q - inject_Z (roundHalfEven q) == 1 # 2
  \/ inject_Z (roundHalfEven q) - q == 1 # 2 ->
  Z.even (roundHalfEven q) = true.
Proof.
unfold roundHalfEven.
pose proof (Qfloor_le q) as Hlo. pose proof (Qlt_floor q) as Hhi.
rewrite inject_Z_plus in Hhi. change (inject_Z 1) with 1 in Hhi.
destruct (q - inject_Z (Qfloor q) ?= 1 # 2) eqn:Hc.
- apply Qeq_alt in Hc. intros _.
  destruct (Z.even (Qfloor q)) eqn:He; [exact He|].
  rewrite Z.even_add, He. reflexivity.
- apply Qlt_alt in Hc. intros [H|H]; exfalso; lra.
- apply Qgt_alt in Hc. rewrite inject_Z_plus. change (inject_Z 1) with 1.
  intros [H|H]; exfalso; lra.
Qed.

Lemma roundHalfEven_mono (q q' : Q) :
  q <= q' -> (roundHalfEven q <= roundHalfEven q')%Z.
Proof.
intros H.
pose proof (Qfloor_resp_le q q' H) as Hf.
destruct (Z.eq_dec (Qfloor q) (Qfloor q')) as [Heq|Hne].
- unfold roundHalfEven. rewrite <- Heq.
  destruct (q - inject_Z (Qfloor q) ?= 1 # 2) eqn:Hc;
    destruct (q' - inject_Z (Qfloor q) ?= 1 # 2) eqn:Hc';
    (first [apply Qeq_alt in Hc | apply Qlt_alt in Hc | apply Qgt_alt in Hc]);
    (first [apply Qeq_alt in Hc' | apply Qlt_alt in Hc' | apply Qgt_alt in Hc']);
    try destruct (Z.even (Qfloor q)); try lia; exfalso; lra.
- assert (Hlt : (Qfloor q + 1 <= Qfloor q')%Z) by lia.
  apply Z.le_trans with (Qfloor q + 1)%Z.
  + apply roundHalfEven_le. pose proof (Qlt_floor q) as Hq.
    rewrite inject_Z_plus in *. change (inject_Z 1) with 1 in *. lra.
  + apply roundHalfEven_ge. pose proof (Qfloor_le q') as Hq'.
    rewrite Zle_Qle in Hlt. lra.
Qed.

Lemma Qdiv_pow2 (x : Q) (j : Z) : x / pow2 j * pow2 j == x.
Proof. field. apply Qnot_eq_sym, Qlt_not_eq, pow2_pos. Qed.

Lemma Qdiv_pow2_le (x y : Q) (j : Z) : x <= y -> x / pow2 j <= y / pow2 j.
Proof.
intros H. pose proof (pow2_pos j) as Hp.
pose proof (Qdiv_pow2 x j) as Hx. pose proof (Qdiv_pow2 y j) as Hy.
apply Qnot_lt_le. intros Hlt. nra.
Qed.

(** The rounding of a positive number stays in its binade. *)
Lemma roundPos_binade (x : Q) :
  0 < x -> pow2 (ilog2 x) <= roundPos x <= pow2 (ilog2 x + 1).
Proof.
intros Hx. destruct (ilog2_spec x Hx) as [Hlo Hhi].
unfold roundPos. set (e := ilog2 x) in *. set (u := pow2 (e - 52)).
pose proof (pow2_pos (e - 52)) as Hu. fold u in Hu.
pose proof (Qdiv_pow2 x (e - 52)) as Hq. fold u in Hq.
assert (He : pow2 e == inject_Z (2 ^ 52) * u).
{ unfold u. rewrite <- pow2_Z by lia. rewrite <- pow2_add. 
  replace (52 + (e - 52))%Z with e by lia. reflexivity. }
assert (He1 : pow2 (e + 1) == inject_Z (2 ^ 53) * u).
{ unfold u. rewrite <- pow2_Z by lia. rewrite <- pow2_add. 
  replace (53 + (e - 52))%Z with (e + 1)%Z by lia. reflexivity. }
assert (H1 : (2 ^ 52 <= roundHalfEven (x / u))%Z).
{ apply roundHalfEven_ge. apply Qnot_lt_le. intros Hlt. nra. }
assert (H2 : (roundHalfEven (x / u) <= 2 ^ 53)%Z).
{ apply roundHalfEven_le. apply Qnot_lt_le. intros Hlt. nra. }
rewrite Zle_Qle in H1, H2. rewrite He, He1. nra.
Qed.

Lemma roundPos_pos (x : Q) : 0 < x -> 0 < roundPos x.
Proof.
intros Hx. pose proof (roundPos_binade x Hx) as [H _].
pose proof (pow2_pos (ilog2 x)). lra.
Qed.

Lemma ilog2_mono (x y : Q) : 0 < x -> x <= y -> (ilog2 x <= ilog2 y)%Z.
Proof.
intros Hx Hxy.
destruct (ilog2_spec x Hx) as [Hlo _].
destruct (ilog2_spec y ltac:(lra)) as [_ Hhi].
assert (H : (ilog2 x < ilog2 y + 1)%Z) by (apply pow2_lt_inv; lra). lia.
Qed.

Lemma roundPos_mono (x y : Q) : 0 < x -> x <= y -> roundPos x <= roundPos y.
Proof.
intros Hx Hxy. assert (Hy : 0 < y) by lra.
pose proof (ilog2_mono x y Hx Hxy) as He.
destruct (Z.eq_dec (ilog2 x) (ilog2 y)) as [Heq|Hne].
- unfold roundPos. rewrite Heq.
  pose proof (pow2_pos (ilog2 y - 52)) as Hu.
  pose proof (roundHalfEven_mono _ _ (Qdiv_pow2_le x y (ilog2 y - 52) Hxy)) as H.
  rewrite Zle_Qle in H. nra.
- pose proof (roundPos_binade x Hx) as [_ H1].
  pose proof (roundPos_binade y Hy) as [H2 _].
  pose proof (pow2_le (ilog2 x + 1) (ilog2 y) ltac:(lia)). lra.
Qed.

Lemma round64_comp_sign (x : Q) :
  (x < 0 /\ round64 x = - roundPos (- x))
  \/ (x == 0 /\ round64 x = 0)
  \/ (0 < x /\ round64 x = roundPos x).
Proof.
unfold round64. destruct (x ?= 0) eqn:Hc.
- apply Qeq_alt in Hc. auto.
- apply Qlt_alt in Hc. auto.
- apply Qgt_alt in Hc. auto.
Qed.

Lemma round64_mono (x y : Q) : x <= y -> round64 x <= round64 y.
Proof.
intros Hxy.
destruct (round64_comp_sign x) as [[Hx ->]|[[Hx ->]|[Hx ->]]];
  destruct (round64_comp_sign y) as [[Hy ->]|[[Hy ->]|[Hy ->]]];
  try (exfalso; lra); try lra.
- pose proof (roundPos_mono (- y) (- x) ltac:(lra) ltac:(lra)). lra.
- pose proof (roundPos_pos (- x) ltac:(lra)). lra.
- pose proof (roundPos_pos (- x) ltac:(lra)).
  pose proof (roundPos_pos y Hy). lra.
- pose proof (roundPos_pos y Hy). lra.
- apply roundPos_mono; assumption.
Qed.

Lemma round64_pos (x : Q) : 0 < x -> round64 x = roundPos x.
Proof.
intros Hx. destruct (round64_comp_sign x) as [[H _]|[[H _]|[_ H]]];
  [exfalso; lra | exfalso; lra | exact H].
Qed.

(** Rounding in a known binade. *)
Lemma roundPos_scaled (x : Q) (j : Z) :
  pow2 (j + 52) <= x -> x < pow2 (j + 53) ->
  roundPos x = inject_Z (roundHalfEven (x / pow2 j)) * pow2 j.
Proof.
intros Hlo Hhi. unfold roundPos.
rewrite (ilog2_unique x (j + 52)).
- replace (j + 52 - 52)%Z with j by lia. reflexivity.
- exact Hlo.
- replace (j + 52 + 1)%Z with (j + 53)%Z by lia. exact Hhi.
Qed.

(** A positive binary64 number is [M * 2^j] with [2^52 <= M < 2^53]. *)
Lemma b64_decompose (x : Q) :
  0 < x -> round64 x == x ->
  exists (M j : Z),
    x == inject_Z M * pow2 j /\ (2 ^ 52 <= M < 2 ^ 53)%Z.
Proof.
intros Hx Hr. rewrite (round64_pos x Hx) in Hr.
destruct (ilog2_spec x Hx) as [Hlo Hhi].
unfold roundPos in Hr. set (e := ilog2 x) in *. set (u := pow2 (e - 52)) in *.
pose proof (pow2_pos (e - 52)) as Hu. fold u in Hu.
assert (He : pow2 e == inject_Z (2 ^ 52) * u).
{ unfold u. rewrite <- pow2_Z by lia. rewrite <- pow2_add.
  replace (52 + (e - 52))%Z with e by lia. reflexivity. }
assert (He1 : pow2 (e + 1) == inject_Z (2 ^ 53) * u).
{ unfold u. rewrite <- pow2_Z by lia. rewrite <- pow2_add.
  replace (53 + (e - 52))%Z with (e + 1)%Z by lia. reflexivity. }
exists (roundHalfEven (x / u)), (e - 52)%Z. fold u.
split; [symmetry; exact Hr|].
set (M := roundHalfEven (x / u)) in *.
rewrite He in Hlo. rewrite He1 in Hhi.
split.
- apply Z.nlt_ge. intros Hlt. assert (H : (M + 1 <= 2 ^ 52)%Z) by lia.
  rewrite Zle_Qle, inject_Z_plus in H. change (inject_Z 1) with 1 in H. nra.
- apply Z.nle_gt. intros Hle. rewrite Zle_Qle in Hle. nra.
Qed.

Lemma pow2_m53 : pow2 (-53) == eps53.
Proof. reflexivity. Qed.

(** Below a positive binary64 number [x], everything up to
    [x * (1 - 2^-53)] rounds to a number below [x]. *)
Lemma round64_below (x y : Q) :
  0 < x -> round64 x == x -> y <= x * (1 - eps53) -> round64 y < x.
Proof.
intros Hx Hr Hy.
apply Qle_lt_trans with (round64 (x * (1 - eps53))); [apply round64_mono, Hy|].
clear y Hy.
destruct (b64_decompose x Hx Hr) as (M & j & HM & Hlo & Hhi).
set (z := x * (1 - eps53)).
assert (Hz : 0 < z) by (unfold z, eps53; nra).
rewrite (round64_pos z Hz).
pose proof (pow2_pos j) as Hu.
pose proof Hlo as HloZ.
rewrite Zle_Qle in Hlo. rewrite Zlt_Qlt in Hhi.
change (inject_Z (2 ^ 52)) with (4503599627370496 # 1) in Hlo.
change (inject_Z (2 ^ 53)) with (9007199254740992 # 1) in Hhi.
destruct (Z.eq_dec M (2 ^ 52)%Z) as [->|Hne].
- (* x is a power of two: the number below is in the binade below. *)
  change (inject_Z (2 ^ 52)) with (4503599627370496 # 1) in HM.
  pose proof (pow2_pos (j - 1)) as Hv.
  pose proof (pow2_succ (j - 1)) as Hs.
  replace (j - 1 + 1)%Z with j in Hs by lia.
  pose proof (pow2_add 52 (j - 1)) as H52. pose proof (pow2_add 53 (j - 1)) as H53.
  change (pow2 52) with (4503599627370496 # 1) in H52.
  change (pow2 53) with (9007199254740992 # 1) in H53.
  assert (Hzv : z == inject_Z (2 ^ 53 - 1) * pow2 (j - 1)).
  { unfold z, eps53. change (inject_Z (2 ^ 53 - 1)) with (9007199254740991 # 1).
    rewrite HM, Hs. field. }
  rewrite (roundPos_scaled z (j - 1)).
  + assert (Hq : z / pow2 (j - 1) == inject_Z (2 ^ 53 - 1)).
    { rewrite Hzv. field. apply Qnot_eq_sym, Qlt_not_eq, pow2_pos. }
    rewrite (roundHalfEven_comp _ _ Hq), roundHalfEven_Z.
    rewrite <- Hzv. unfold z, eps53. nra.
  + replace (j - 1 + 52)%Z with (52 + (j - 1))%Z by lia. rewrite H52, Hzv.
    change (inject_Z (2 ^ 53 - 1)) with (9007199254740991 # 1). nra.
  + replace (j - 1 + 53)%Z with (53 + (j - 1))%Z by lia. rewrite H53, Hzv.
    change (inject_Z (2 ^ 53 - 1)) with (9007199254740991 # 1). nra.
- assert (Hlo' : inject_Z (2 ^ 52) + 1 <= inject_Z M).
  { assert (H : (2 ^ 52 + 1 <= M)%Z) by lia.
    rewrite Zle_Qle, inject_Z_plus in H. exact H. }
  change (inject_Z (2 ^ 52)) with (4503599627370496 # 1) in Hlo'.
  pose proof (pow2_add 52 j) as H52. pose proof (pow2_add 53 j) as H53.
  change (pow2 52) with (4503599627370496 # 1) in H52.
  change (pow2 53) with (9007199254740992 # 1) in H53.
  assert (Hq : z / pow2 j == inject_Z M * (1 - eps53)).
  { unfold z. rewrite HM. field. apply Qnot_eq_sym, Qlt_not_eq, pow2_pos. }
  rewrite (roundPos_scaled z j).
  + assert (H : (roundHalfEven (z / pow2 j) <= M - 1)%Z).
    { apply roundHalfEven_below_half. rewrite Hq.
      unfold Z.sub. rewrite inject_Z_plus, inject_Z_opp.
      change (inject_Z 1) with 1. unfold eps53. lra. }
    rewrite Zle_Qle in H. unfold Z.sub in H.
    rewrite inject_Z_plus, inject_Z_opp in H.
    change (inject_Z 1) with 1 in H. rewrite HM. nra.
  + replace (j + 52)%Z with (52 + j)%Z by lia. rewrite H52.
    unfold z, eps53. rewrite HM. nra.
  + replace (j + 53)%Z with (53 + j)%Z by lia. rewrite H53.
    unfold z, eps53. rewrite HM. nra.
Qed.

Lemma round64_comp (x y : Q) : x == y -> round64 x == round64 y.
Proof.
intros H. apply Qle_antisym; apply round64_mono; lra.
Qed.

Lemma round64_opp (x : Q) : round64 (- x) == - round64 x.
Proof.
destruct (round64_comp_sign x) as [[Hx ->]|[[Hx ->]|[Hx ->]]];
  destruct (round64_comp_sign (- x)) as [[Hy ->]|[[Hy ->]|[Hy ->]]];
  try (exfalso; lra); try lra.
assert (H : round64 (- - x) == round64 x) by (apply round64_comp; lra).
rewrite (round64_pos (- - x)), (round64_pos x) in H by lra. lra.
Qed.

(** The rounding of a positive number is [K * 2^j] with [K] the nearest
    integer to [x / 2^j], where [2^52 * 2^j <= x < 2^53 * 2^j]. *)
Lemma roundPos_form (x : Q) :
  0 < x ->
  exists (K j : Z),
    roundPos x = inject_Z K * pow2 j
    /\ K = roundHalfEven (x / pow2 j)
    /\ inject_Z (2 ^ 52) * pow2 j <= x < inject_Z (2 ^ 53) * pow2 j
    /\ (2 ^ 52 <= K <= 2 ^ 53)%Z.
Proof.
intros Hx. destruct (ilog2_spec x Hx) as [Hlo Hhi].
exists (roundHalfEven (x / pow2 (ilog2 x - 52))), (ilog2 x - 52)%Z.
set (e := ilog2 x) in *. set (u := pow2 (e - 52)).
pose proof (pow2_pos (e - 52)) as Hu. fold u in Hu.
pose proof (Qdiv_pow2 x (e - 52)) as Hq. fold u in Hq.
assert (He : pow2 e == inject_Z (2 ^ 52) * u).
{ unfold u. rewrite <- pow2_Z by lia. rewrite <- pow2_add.
  replace (52 + (e - 52))%Z with e by lia. reflexivity. }
assert (He1 : pow2 (e + 1) == inject_Z (2 ^ 53) * u).
{ unfold u. rewrite <- pow2_Z by lia. rewrite <- pow2_add.
  replace (53 + (e - 52))%Z with (e + 1)%Z by lia. reflexivity. }
rewrite He in Hlo. rewrite He1 in Hhi.
split; [reflexivity|]. split; [reflexivity|]. split; [split; assumption|].
split.
- apply roundHalfEven_ge. apply Qnot_lt_le. intros Hlt. nra.
- apply roundHalfEven_le. apply Qnot_lt_le. intros Hlt. nra.
Qed.

(** A number [K * 2^j] with [2^52 <= K <= 2^53] is a binary64 number. *)
Lemma b64_of_form (K j : Z) :
  (2 ^ 52 <= K <= 2 ^ 53)%Z ->
  round64 (inject_Z K * pow2 j) == inject_Z K * pow2 j.
Proof.
assert (Hmain : forall K j, (2 ^ 52 <= K < 2 ^ 53)%Z ->
          round64 (inject_Z K * pow2 j) == inject_Z K * pow2 j).
{ clear K j. intros K j [Hlo Hhi].
  pose proof (pow2_pos j) as Hu.
  pose proof (pow2_add 52 j) as H52. pose proof (pow2_add 53 j) as H53.
  change (pow2 52) with (4503599627370496 # 1) in H52.
  change (pow2 53) with (9007199254740992 # 1) in H53.
  rewrite Zle_Qle in Hlo. rewrite Zlt_Qlt in Hhi.
  change (inject_Z (2 ^ 52)) with (4503599627370496 # 1) in Hlo.
  change (inject_Z (2 ^ 53)) with (9007199254740992 # 1) in Hhi.
  rewrite round64_pos by nra.
  rewrite (roundPos_scaled _ j).
  - assert (Hq : inject_Z K * pow2 j / pow2 j == inject_Z K).
    { field. apply Qnot_eq_sym, Qlt_not_eq, pow2_pos. }
    rewrite (roundHalfEven_comp _ _ Hq), roundHalfEven_Z. reflexivity.
  - replace (j + 52)%Z with (52 + j)%Z by lia. rewrite H52. nra.
  - replace (j + 53)%Z with (53 + j)%Z by lia. rewrite H53. nra. }
intros [Hlo Hhi].
destruct (Z.eq_dec K (2 ^ 53)%Z) as [->|Hne]; [|apply Hmain; lia].
assert (Heq : inject_Z (2 ^ 53) * pow2 j == inject_Z (2 ^ 52) * pow2 (j + 1)).
{ rewrite pow2_succ.
  change (inject_Z (2 ^ 52)) with (4503599627370496 # 1).
  change (inject_Z (2 ^ 53)) with (9007199254740992 # 1). ring. }
rewrite (round64_comp _ _ Heq), Heq. apply Hmain. lia.
Qed.

(** Rounding gives a binary64 number. *)
Lemma round64_idempotent (x : Q) : round64 (round64 x) == round64 x.
Proof.
assert (Hpos : forall x, 0 < x -> round64 (roundPos x) == roundPos x).
{ clear x. intros x Hx.
  destruct (roundPos_form x Hx) as (K & j & -> & _ & _ & HK).
  apply b64_of_form, HK. }
destruct (round64_comp_sign x) as [[Hx ->]|[[Hx ->]|[Hx ->]]].
- rewrite round64_opp, Hpos by lra. reflexivity.
- reflexivity.
- apply Hpos, Hx.
Qed.

Lemma Qmult_le_cancel_pos (a b u : Q) : 0 < u -> a * u <= b * u -> a <= b.
Proof. intros Hu H. apply Qnot_lt_le. intros Hlt. nra. Qed.

Lemma pow2_multiple (j j' : Z) :
  (j <= j')%Z -> pow2 j' == inject_Z (2 ^ (j' - j)) * pow2 j.
Proof.
intros H. rewrite <- pow2_Z by lia. rewrite <- pow2_add.
replace (j' - j + j)%Z with j' by lia. reflexivity.
Qed.

(** No binary64 number is nearer to [x] than [round64 x]. *)
Lemma roundPos_nearest (x y : Q) :
  0 < x -> round64 y == y ->
  (x <= y -> x - (y - x) <= roundPos x <= y)
  /\ (y <= x -> y <= roundPos x <= x + (x - y)).
Proof.
intros Hx Hy.
assert (Hup : x <= y -> roundPos x <= y).
{ intros H. rewrite <- Hy, <- (round64_pos x Hx). apply round64_mono, H. }
assert (Hdown : y <= x -> y <= roundPos x).
{ intros H. rewrite <- Hy, <- (round64_pos x Hx). apply round64_mono, H. }
destruct (roundPos_form x Hx) as (K & j & Hr & HK & [Hlo Hhi] & _).
rewrite Hr in *. clear Hr.
pose proof (roundHalfEven_near (x / pow2 j)) as [Hn1 Hn2]. rewrite <- HK in Hn1, Hn2.
pose proof (Qdiv_pow2 x j) as Hq. pose proof (pow2_pos j) as Hu.
set (q := x / pow2 j) in *. set (u := pow2 j) in *. clearbody q. clear HK.
change (inject_Z (2 ^ 52)) with (4503599627370496 # 1) in Hlo.
change (inject_Z (2 ^ 53)) with (9007199254740992 # 1) in Hhi.
destruct (Qlt_le_dec 0 y) as [Hpos|Hneg].
2:{ split; [intros H; exfalso; lra|]. intros H. split; [auto|]. nra. }
destruct (b64_decompose y Hpos Hy) as (M & j' & HM & HMlo & HMhi).
destruct (Z_le_gt_dec j j') as [Hj|Hj].
- (* [y] is a multiple of the unit of [x]. *)
  pose proof (pow2_multiple j j' Hj) as Hmul. fold u in Hmul.
  set (m := (M * 2 ^ (j' - j))%Z).
  assert (Hym : y == inject_Z m * u).
  { unfold m. rewrite inject_Z_mult, HM, Hmul. ring. }
  clear HM Hmul HMlo HMhi. clearbody m.
  split; intros H; split; auto.
  + specialize (Hup H).
    assert (HKm : inject_Z K <= inject_Z m).
    { apply (Qmult_le_cancel_pos _ _ u Hu). lra. }
    assert (Hqm : q <= inject_Z m).
    { apply (Qmult_le_cancel_pos _ _ u Hu). lra. }
    rewrite <- Zle_Qle in HKm.
    destruct (Z.eq_dec K m) as [->|Hne]; [nra|].
    assert (H1 : (K + 1 <= m)%Z) by lia.
    rewrite Zle_Qle, inject_Z_plus in H1. change (inject_Z 1) with 1 in H1. nra.
  + specialize (Hdown H).
    assert (HKm : inject_Z m <= inject_Z K).
    { apply (Qmult_le_cancel_pos _ _ u Hu). lra. }
    assert (Hqm : inject_Z m <= q).
    { apply (Qmult_le_cancel_pos _ _ u Hu). lra. }
    rewrite <- Zle_Qle in HKm.
    destruct (Z.eq_dec K m) as [->|Hne]; [nra|].
    assert (H1 : (m + 1 <= K)%Z) by lia.
    rewrite Zle_Qle, inject_Z_plus in H1. change (inject_Z 1) with 1 in H1. nra.
- (* [y] lies in a binade below [x]. *)
  pose proof (pow2_le j' (j - 1) ltac:(lia)) as Hle.
  pose proof (pow2_succ (j - 1)) as Hs.
  replace (j - 1 + 1)%Z with j in Hs by lia. fold u in Hs.
  pose proof (pow2_pos j') as Hu'. pose proof (pow2_pos (j - 1)) as Hv.
  assert (HM1 : (M + 1 <= 2 ^ 53)%Z) by lia.
  rewrite Zle_Qle, inject_Z_plus in HM1. change (inject_Z 1) with 1 in HM1.
  change (inject_Z (2 ^ 53)) with (9007199254740992 # 1) in HM1.
  rewrite Zle_Qle in HMlo.
  change (inject_Z (2 ^ 52)) with (4503599627370496 # 1) in HMlo.
  assert (Hyb : y <= (9007199254740991 # 1) * pow2 (j - 1)) by nra.
  split; intros H; split; auto; [exfalso; nra | nra].
Qed.

Lemma round64_nearest (x y : Q) :
  round64 y == y ->
  (x <= y -> x - (y - x) <= round64 x <= y)
  /\ (y <= x -> y <= round64 x <= x + (x - y)).
Proof.
intros Hy.
destruct (round64_comp_sign x) as [[Hx ->]|[[Hx ->]|[Hx ->]]].
- assert (Hy' : round64 (- y) == - y) by (rewrite round64_opp, Hy; reflexivity).
  destruct (roundPos_nearest (- x) (- y) ltac:(lra) Hy') as [H1 H2].
  split; intros H.
  + specialize (H2 ltac:(lra)). lra.
  + specialize (H1 ltac:(lra)). lra.
- split; intros H; lra.
- apply roundPos_nearest; assumption.
Qed.

(** No binary64 number lies strictly between [1 - 2^-53] and 1. *)
Lemma b64_below_1 (f : Q) :
  0 < f -> f < 1 -> round64 f == f -> f <= 1 - eps53.
Proof.
intros Hpos Hlt Hr.
destruct (b64_decompose f Hpos Hr) as (M & j & HM & Hlo & Hhi).
rewrite Zle_Qle in Hlo.
change (inject_Z (2 ^ 52)) with (4503599627370496 # 1) in Hlo.
pose proof (pow2_pos j) as Hu.
assert (Hj : (j < -52)%Z).
{ apply pow2_lt_inv. change (pow2 (-52)) with (1 # 4503599627370496). nra. }
assert (HM1 : (M + 1 <= 2 ^ 53)%Z) by lia.
rewrite Zle_Qle, inject_Z_plus in HM1.
change (inject_Z 1) with 1 in HM1.
change (inject_Z (2 ^ 53)) with (9007199254740992 # 1) in HM1.
pose proof (pow2_le j (-53) ltac:(lia)) as Hle.
change (pow2 (-53)) with (1 # 9007199254740992) in Hle.
unfold eps53. nra.
Qed.

Lemma is_b64_eq (x : Q) : is_b64 x = true -> round64 x == x.
Proof. apply Qeq_bool_eq. Qed.

Lemma fl_mul_le (x f : Q) : 0 <= x -> f <= 1 -> fl_mul x f <= x.
Proof.
intros Hx Hf. unfold fl_mul.
destruct (is_b64 x) eqn:Hbx; cbn; [destruct (is_b64 f); cbn|]; try nra.
apply is_b64_eq in Hbx. rewrite <- Hbx at 2. apply round64_mono. nra.
Qed.

Lemma fl_mul_lt (x f : Q) : 0 < x -> f < 1 -> fl_mul x f < x.
Proof.
intros Hx Hf. unfold fl_mul.
destruct (is_b64 x) eqn:Hbx; cbn; [destruct (is_b64 f) eqn:Hbf; cbn|]; try nra.
apply is_b64_eq in Hbx, Hbf.
destruct (Qlt_le_dec 0 f) as [Hpos|Hneg].
- apply round64_below; [exact Hx | exact Hbx|].
  pose proof (b64_below_1 f Hpos Hf Hbf). nra.
- apply Qle_lt_trans with (round64 0); [apply round64_mono; nra | exact Hx].
Qed.

End binary64_facts.

Lemma floor_mul_le (n : N) (f : Binary64) : (f <= 1)%Q -> floor_mul n f <= n.
Proof.
intros Hf. unfold floor_mul.
assert (H : (Qfloor (fl_mul (inject_Z (Z.of_N n)) f) <= Z.of_N n)%Z).
{ rewrite <- (Qfloor_Z (Z.of_N n)) at 2.
  apply Qfloor_resp_le, fl_mul_le; [|exact Hf].
  change 0%Q with (inject_Z 0). rewrite <- Zle_Qle. lia. }
lia.
Qed.

Lemma floor_mul_lt (n : N) (f : Binary64) :
  0 < n -> (f < 1)%Q -> floor_mul n f < n.
Proof.
intros Hn Hf. unfold floor_mul.
assert (H : (Qfloor (fl_mul (inject_Z (Z.of_N n)) f) < Z.of_N n)%Z).
{ rewrite Zlt_Qlt.
  apply Qle_lt_trans with (fl_mul (inject_Z (Z.of_N n)) f); [apply Qfloor_le|].
  apply fl_mul_lt; [|exact Hf].
  change 0%Q with (inject_Z 0). rewrite <- Zlt_Qlt. lia. }
lia.
Qed.

(** The value of a [Binary64] is a binary64 number. *)
Lemma b64_value_is_b64 (f : Binary64) : is_b64 f = true.
Proof. apply Qeq_eq_bool, round64_idempotent. Qed.

(** For a count that is a binary64 number, as every count below [2^53] is,
    [floor_mul] is the floor of the rounded product. *)
Lemma floor_mul_binary64 (n : N) (f : Binary64) :
  is_b64 (inject_Z (Z.of_N n)) = true ->
  floor_mul n f = Z.to_N (Qfloor (round64 (inject_Z (Z.of_N n) * f))).
Proof.
intros Hn. unfold floor_mul, fl_mul. rewrite Hn, b64_value_is_b64.
reflexivity.
Qed.

(** Products whose binary64 floor is not the floor of the product of the
    decimals: [90 * 0.7] is 62.99999999999999 in the program, and likewise
    [100 * 0.57], [45 * 1.4] and [100 * 1.15] fall just below 57, 63 and
    115; a failure at size 90 under the default configuration uses the rate
    [0.6 + 1 * 0.1]. The products of the default factors at size 16. *)
Lemma floor_mul_binary64_points :
  floor_mul 90 (b64 (7 # 10)) = 62
  /\ floor_mul 100 (b64 (57 # 100)) = 56
  /\ floor_mul 45 (b64 (14 # 10)) = 62
  /\ floor_mul 100 (b64 (115 # 100)) = 114
  /\ BatchManager.currentBatchSize
       (BatchManager.adjustBatchSize default_config
          (BatchManager.mk 90 0 0 0) false false) = 62
  /\ floor_mul 16 (b64 (6 # 10)) = 9
  /\ floor_mul 16 (b64 (15 # 10)) = 24.
Proof. vm_compute. repeat split. Qed.

(** ** Properties of the batch controller *)

Section batch_controller.

Import BatchManager.

Variable config : Config.

Lemma decayRate_lt_1 (failures : N) :
  (b64 (Qmin (b64 (8 # 10))
             (fl_add (decayFactor config)
                     (fl_mul (inject_Z (Z.of_N failures)) (b64 (1 # 10)))))
   < 1)%Q.
Proof.
apply Qle_lt_trans with (round64 (b64 (8 # 10)));
  [apply round64_mono, Q.le_min_l|].
vm_compute. reflexivity.
Qed.

Lemma decayRate_le_1 (failures : N) :
  (b64 (Qmin (b64 (8 # 10))
             (fl_add (decayFactor config)
                     (fl_mul (inject_Z (Z.of_N failures)) (b64 (1 # 10)))))
   <= 1)%Q.
Proof. apply Qlt_le_weak, decayRate_lt_1. Qed.

(** One transition keeps the size between the bounds. Only [decayFactor <= 1]
    and [min <= max] are used: growth is cut at [max] and fires only when it
    enlarges the size, decay is cut at [min] and never enlarges it. *)
Lemma adjustBatchSize_in_bounds (bm : t) (success overflow : bool) :
  minBatchSize config <= maxBatchSize config ->
  (decayFactor config <= 1)%Q ->
  in_bounds config bm ->
  in_bounds config (adjustBatchSize config bm success overflow).
Proof.
intros Hmm Hd [Hlo Hhi]. unfold in_bounds, adjustBatchSize.
destruct overflow; [|destruct success]; cbn.
- pose proof (floor_mul_le (currentBatchSize bm) _ Hd). lia.
- destruct (_ && _) eqn:Hfire; cbn; [|lia].
  destruct (_ <? N.min _ _) eqn:Hgrow; cbn; [|lia].
  apply N.ltb_lt in Hgrow. lia.
- pose proof (floor_mul_le (currentBatchSize bm) _
                (decayRate_le_1 (consecutiveFailures bm + 1))). lia.
Qed.

End batch_controller.

(** C5. For valid controller parameters ([min <= initial <= max],
    [growthFactor > 1], [0 < decayFactor < 1], [successThreshold >= 1]) the
    batch size of the controller lies between [minBatchSize] and
    [maxBatchSize] after any sequence of [adjustBatchSize] transitions from
    the initial state. *)
Theorem batch_size_within_bounds (config : Config)
    (os : list BatchManager.BatchOutcome) :
  BatchManager.valid_params config ->
  minBatchSize config <= BatchManager.currentBatchSize (BatchManager.run config os)
  /\ BatchManager.currentBatchSize (BatchManager.run config os) <= maxBatchSize config.
Proof.
intros (Hmi & Him & _ & _ & Hd & _).
assert (Hinit : BatchManager.in_bounds config (BatchManager.new config))
  by (split; assumption).
unfold BatchManager.run. revert Hinit.
generalize (BatchManager.new config) as bm.
induction os as [|o os IH]; intros bm Hbm; [exact Hbm|].
cbn. apply IH, adjustBatchSize_in_bounds; [lia | | exact Hbm].
apply Qlt_le_weak, Hd.
Qed.

(** The end-to-end scenario of the specification: two successes at 16 grow
    the size to 24, an overflow then shrinks it to 14. *)
Lemma batch_size_within_bounds_witness :
  let bm :=
    BatchManager.run default_config
      [BatchManager.outcome true false; BatchManager.outcome true false;
       BatchManager.outcome false true] in
  BatchManager.valid_params default_config
  /\ BatchManager.currentBatchSize bm = 14
  /\ minBatchSize default_config <= BatchManager.currentBatchSize bm
  /\ BatchManager.currentBatchSize bm <= maxBatchSize default_config.
Proof.
assert (Hvalid : BatchManager.valid_params default_config).
{ unfold BatchManager.valid_params; cbn. repeat split; try lia; reflexivity. }
cbn zeta. split; [exact Hvalid|]. split; [reflexivity|].
exact (batch_size_within_bounds default_config
         [BatchManager.outcome true false; BatchManager.outcome true false;
          BatchManager.outcome false true] Hvalid).
Defined.

(** C6 as stated fails: an overflow transition does not leave
    [consecutiveFailures] unchanged. On the fresh default controller the
    size, the success counter and the overflow counter change as claimed,
    the failure counter goes from 0 to 1. *)
Lemma overflow_leaves_failures_counterexample :
  let bm := BatchManager.new default_config in
  let bm' := BatchManager.adjustBatchSize default_config bm true true in
  BatchManager.currentBatchSize bm' = 9
  /\ BatchManager.consecutiveSuccesses bm' = 0
  /\ BatchManager.contextOverflowCount bm' = BatchManager.contextOverflowCount bm + 1
  /\ BatchManager.consecutiveFailures bm' <> BatchManager.consecutiveFailures bm.
Proof. cbv. repeat split; discriminate. Qed.

(** C6, amended. For every controller state and every transition with
    [contextOverflow = true], whatever the success flag, the size becomes
    [max(min, floor(size * decayFactor))], the product being the binary64
    product of the program ([floor_mul]: 62 for size 90 and factor 0.7);
    [consecutiveSuccesses] is reset to 0, [contextOverflowCount] is
    incremented and [consecutiveFailures] is incremented as well; nothing
    else is part of the state. *)
Theorem overflow_transition_effect (config : Config) (bm : BatchManager.t)
    (success : bool) :
  BatchManager.adjustBatchSize config bm success true =
  BatchManager.mk
    (N.max (minBatchSize config)
           (floor_mul (BatchManager.currentBatchSize bm) (decayFactor config)))
    0
    (BatchManager.consecutiveFailures bm + 1)
    (BatchManager.contextOverflowCount bm + 1).
Proof. destruct success; reflexivity. Qed.

(** C7 as stated fails: the threshold being reached is not enough for growth
    to fire. After thirteen successes from the default start the size sits at
    [maxBatchSize] and [consecutiveSuccesses] is 1: the fourteenth success
    brings the counter to the threshold, and neither changes the size nor
    resets the counter. *)
Lemma growth_at_threshold_counterexample :
  let bm := BatchManager.run default_config
              (replicate 13 (BatchManager.outcome true false)) in
  let bm' := BatchManager.adjustBatchSize default_config bm true false in
  successThreshold default_config <= BatchManager.consecutiveSuccesses bm + 1
  /\ BatchManager.currentBatchSize bm' = BatchManager.currentBatchSize bm
  /\ BatchManager.consecutiveSuccesses bm' = 2
  /\ BatchManager.consecutiveSuccesses bm' <> 0.
Proof. vm_compute. repeat split; discriminate. Qed.

(** C7, amended. A success transition (no overflow) resets
    [consecutiveFailures] to 0 and leaves [contextOverflowCount] alone.
    Growth fires if and only if the incremented [consecutiveSuccesses] has
    reached [successThreshold] and the size is below [maxBatchSize] and
    [min(max, floor(size * growthFactor))] exceeds the size, the product
    being the binary64 product of the program ([floor_mul]: 62 for size 45
    and factor 1.4); when it fires
    the size becomes that value and [consecutiveSuccesses] is reset to 0,
    otherwise the size is unchanged and [consecutiveSuccesses] is the
    incremented count. In particular growth never fires before the
    threshold is reached. *)
Theorem success_transition_effect (config : Config) (bm : BatchManager.t) :
  let successes := BatchManager.consecutiveSuccesses bm + 1 in
  let newSize :=
    N.min (maxBatchSize config)
          (floor_mul (BatchManager.currentBatchSize bm) (growthFactor config)) in
  let fires :=
    (successThreshold config <=? successes)
    && (BatchManager.currentBatchSize bm <? maxBatchSize config)
    && (BatchManager.currentBatchSize bm <? newSize) in
  BatchManager.adjustBatchSize config bm true false =
    (if fires
     then BatchManager.mk newSize 0 0 (BatchManager.contextOverflowCount bm)
     else BatchManager.mk (BatchManager.currentBatchSize bm) successes 0
            (BatchManager.contextOverflowCount bm))
  /\ (fires = true <->
      BatchManager.currentBatchSize bm
      < BatchManager.currentBatchSize
          (BatchManager.adjustBatchSize config bm true false))
  /\ (fires = true <-> successThreshold config <= successes
                       /\ BatchManager.currentBatchSize bm < maxBatchSize config
                       /\ BatchManager.currentBatchSize bm < newSize).
Proof.
cbn zeta. unfold BatchManager.adjustBatchSize.
set (successes := BatchManager.consecutiveSuccesses bm + 1).
set (newSize := N.min _ _).
destruct (successThreshold config <=? successes) eqn:Ht;
  destruct (BatchManager.currentBatchSize bm <? maxBatchSize config) eqn:Hm;
  destruct (BatchManager.currentBatchSize bm <? newSize) eqn:Hg; cbn;
  try apply N.leb_le in Ht; try apply N.leb_gt in Ht;
  try apply N.ltb_lt in Hm; try apply N.ltb_ge in Hm;
  try apply N.ltb_lt in Hg; try apply N.ltb_ge in Hg;
  (split; [reflexivity|]); split; split; intros; try discriminate; try lia;
  auto.
Qed.

(** ** Properties of the rate limiter *)

(** The whole effect of [checkRateLimits] on the free tier, in one
    equation: the expired windows are rolled forward; a full minute window
    costs one sleep and a reset of the minute counter; then a full day
    window throws. *)
Lemma free_tier_acquire_eq (w : World) :
  isFreeTier (rateLimitInfo w) = true ->
  let info := RateLimitManager.rollWindows (clock w) (rateLimitInfo w) in
  let limit := RateLimitManager.dailyLimit info in
  let wait := (60000 - (clock w - minuteStartTime info) + 1000)%Z in
  let verdict : Outcome unit :=
    if limit <=? dailyRequests info
    then Thrown (DailyRateLimitExceeded limit) else Returned tt in
  RateLimitManager.checkRateLimits w =
    if 20 <=? requestsThisMinute info then
      (verdict,
       mkWorld (clock w + Z.max 0 wait) (slept w ++ [wait]) (fetchCount w)
         (iterations w)
         (mkRateLimitInfo 0 (clock w + Z.max 0 wait) (dailyRequests info)
            (dayStartTime info) (creditsRemaining info) (isFreeTier info)))
    else
      (verdict,
       mkWorld (clock w) (slept w) (fetchCount w) (iterations w) info).
Proof.
intros Hfree. cbn zeta.
assert (Hroll : isFreeTier (RateLimitManager.rollWindows (clock w) (rateLimitInfo w)) = true).
{ unfold RateLimitManager.rollWindows. repeat case_match; cbn; exact Hfree. }
unfold RateLimitManager.checkRateLimits, bind, dateNow, getRateLimitInfo,
  setRateLimitInfo, sleep, ret, throw. cbn.
rewrite Hroll.
destruct (20 <=? _); cbn; [|destruct (_ <=? _); reflexivity].
unfold RateLimitManager.dailyLimit at 1 2 3; cbn.
fold (RateLimitManager.dailyLimit
        (RateLimitManager.rollWindows (clock w) (rateLimitInfo w))).
destruct (_ <=? _); reflexivity.
Qed.

(** C8 as stated fails: with both counters at their limits the acquire
    sleeps for the rest of the minute window (here 30 s plus the 1 s
    buffer) and only then throws the daily-limit error. *)
Lemma daily_limit_sleeps_counterexample :
  let w := mkWorld 30000 [] 50 0 (mkRateLimitInfo 20 0 50 0 None true) in
  RateLimitManager.dailyLimit (rateLimitInfo w) <= dailyRequests (rateLimitInfo w)
  /\ fst (RateLimitManager.checkRateLimits w)
     = Thrown (DailyRateLimitExceeded 50)
  /\ slept (snd (RateLimitManager.checkRateLimits w)) = [31000%Z]
  /\ slept (snd (RateLimitManager.checkRateLimits w)) <> slept w.
Proof. vm_compute. repeat split; discriminate. Qed.

(** C8, amended. On every acquire on the free tier, with the counters taken
    after the expired windows are rolled forward: if the per-day count has
    reached the daily limit and the per-minute count is below 20, the
    operation throws the daily-limit error without sleeping; if the
    per-minute count has reached 20 it first sleeps the remaining time of
    the minute window plus 1000 ms and resets the minute counter, and then
    returns normally when the per-day count is below the daily limit, and
    throws the daily-limit error when it is not. *)
Theorem checkRateLimits_free_tier (w : World) :
  isFreeTier (rateLimitInfo w) = true ->
  let info := RateLimitManager.rollWindows (clock w) (rateLimitInfo w) in
  let limit := RateLimitManager.dailyLimit info in
  let wait := (60000 - (clock w - minuteStartTime info) + 1000)%Z in
  let out := fst (RateLimitManager.checkRateLimits w) in
  let w' := snd (RateLimitManager.checkRateLimits w) in
  (requestsThisMinute info < 20 -> limit <= dailyRequests info ->
     out = Thrown (DailyRateLimitExceeded limit)
     /\ slept w' = slept w /\ clock w' = clock w)
  /\ (20 <= requestsThisMinute info ->
        slept w' = slept w ++ [wait]
        /\ requestsThisMinute (rateLimitInfo w') = 0
        /\ minuteStartTime (rateLimitInfo w') = clock w'
        /\ dailyRequests (rateLimitInfo w') = dailyRequests info
        /\ (dailyRequests info < limit -> out = Returned tt)
        /\ (limit <= dailyRequests info ->
              out = Thrown (DailyRateLimitExceeded limit)))
  /\ (requestsThisMinute info < 20 -> dailyRequests info < limit ->
        out = Returned tt /\ slept w' = slept w).
Proof.
intros Hfree. cbn zeta.
rewrite (free_tier_acquire_eq w Hfree). cbn zeta.
set (info := RateLimitManager.rollWindows (clock w) (rateLimitInfo w)).
destruct (20 <=? requestsThisMinute info) eqn:Hmin;
  [apply N.leb_le in Hmin | apply N.leb_gt in Hmin];
  destruct (RateLimitManager.dailyLimit info <=? dailyRequests info) eqn:Hday;
  [apply N.leb_le in Hday | apply N.leb_gt in Hday
  |apply N.leb_le in Hday | apply N.leb_gt in Hday];
  cbn; repeat split; intros; try reflexivity; lia.
Qed.

(** The twenty-first request of a minute, 10 s into the window, on a fresh
    free-tier key: one sleep of 51 s, then a normal return. *)
Lemma checkRateLimits_free_tier_witness :
  let w := mkWorld 10000 [] 20 0 (mkRateLimitInfo 20 0 20 0 None true) in
  fst (RateLimitManager.checkRateLimits w) = Returned tt
  /\ slept (snd (RateLimitManager.checkRateLimits w)) = [51000%Z].
Proof.
pose proof (checkRateLimits_free_tier
              (mkWorld 10000 [] 20 0 (mkRateLimitInfo 20 0 20 0 None true))
              eq_refl) as H.
cbn zeta in H. destruct H as (_ & H & _).
destruct H as (Hs & _ & _ & _ & Hret & _); [vm_compute; discriminate|].
split; [apply Hret; vm_compute; reflexivity | exact Hs].
Defined.

(** ** Properties of the concurrency limiter *)

Lemma runAll_blocked (l : ConcurrencyLimiter.t) (tasks : list nat) :
  (ConcurrencyLimiter.limit l <= ConcurrencyLimiter.running l)%Z ->
  ConcurrencyLimiter.runAll l tasks =
  Returned (ConcurrencyLimiter.mk (ConcurrencyLimiter.limit l)
              (ConcurrencyLimiter.running l)
              (ConcurrencyLimiter.queue l ++ tasks)
              (ConcurrencyLimiter.started l) (ConcurrencyLimiter.settled l)).
Proof.
revert l. induction tasks as [|task rest IH]; intros l Hl; cbn.
- rewrite app_nil_r. destruct l; reflexivity.
- apply Z.ltb_ge in Hl as Hlt. rewrite Hlt.
  rewrite IH by exact Hl. cbn. rewrite <- app_assoc. reflexivity.
Qed.

(** C9, where the code departs from the claim: a limiter with limit 0 is
    constructed without any error, and running a task on it raises nothing
    either: the task is put on the queue and not started. *)
Lemma nonpositive_limit_counterexample :
  exists l l',
    ConcurrencyLimiter.new 0 = Returned l
    /\ ConcurrencyLimiter.run l 7%nat = Returned l'
    /\ ConcurrencyLimiter.started l' = []
    /\ ConcurrencyLimiter.queue l' = [7%nat]
    /\ ConcurrencyLimiter.settle l' 7%nat = None.
Proof. do 2 eexists. repeat split. Qed.

(** C9. The claim asks for an input-validation error; the limiter has none.
    For every limit [<= 0] the limiter is constructed without validation
    and without error, the limit is kept as given (not clamped), and every
    task passed to [run] is appended to the queue and never started: after
    [tasks.map(task => limiter.run(task))], as [enrichCommitsWithDiffs]
    does, nothing is running, nothing has started, and no task can
    complete, so the queue is never served and [Promise.all] over the
    returned promises never settles. [ConfigService.validateConfig] rejects
    such a [diffConcurrency]; [loadAndValidateConfig] of [commit-analyzer.ts]
    passes it on unchecked. *)
Theorem nonpositive_limit_never_schedules (limit : Z) (tasks : list nat) :
  (limit <= 0)%Z ->
  exists l,
    ConcurrencyLimiter.new limit
      = Returned (ConcurrencyLimiter.mk limit 0 [] [] [])
    /\ ConcurrencyLimiter.runAll (ConcurrencyLimiter.mk limit 0 [] [] []) tasks
       = Returned l
    /\ ConcurrencyLimiter.limit l = limit
    /\ ConcurrencyLimiter.running l = 0%Z
    /\ ConcurrencyLimiter.started l = []
    /\ ConcurrencyLimiter.queue l = tasks
    /\ forall task, ConcurrencyLimiter.settle l task = None.
Proof.
intros Hlimit. eexists. split; [reflexivity|].
split; [apply runAll_blocked; cbn; lia|].
cbn. repeat split.
Qed.

Lemma nonpositive_limit_never_schedules_witness :
  exists l,
    ConcurrencyLimiter.runAll (ConcurrencyLimiter.mk (-1) 0 [] [] [])
      [1; 2; 3]%nat = Returned l
    /\ ConcurrencyLimiter.started l = []
    /\ ConcurrencyLimiter.queue l = [1; 2; 3]%nat.
Proof.
destruct (nonpositive_limit_never_schedules (-1) [1; 2; 3]%nat)
  as (l & _ & Hrun & _ & _ & Hs & Hq & _); [lia|].
exists l. repeat split; assumption.
Defined.

(** ** Properties of rule application *)

Section rules_facts.

Variable E : RegExpEngine.

Lemma applyFirstMatch_find (commit : RawCommit) (result : ClassifiedCommit)
    (rules : list (TransformRule E)) :
  applyFirstMatch E commit result rules =
  match List.find (rule_matches E commit) rules with
  | Some rule => applyRule E commit result rule
  | None => result
  end.
Proof.
induction rules as [|rule rest IH]; cbn; [reflexivity|].
destruct (rule_matches E commit rule); [reflexivity | exact IH].
Qed.

(** [List.find] returns the first element that passes the test. *)
Lemma find_first {A} (f : A -> bool) (l : list A) (x : A) :
  List.find f l = Some x ->
  exists before after,
    l = before ++ x :: after /\ f x = true
    /\ Forall (fun y => f y = false) before.
Proof.
induction l as [|y l IH]; cbn; [discriminate|].
destruct (f y) eqn:Hy.
- intros [= ->]. exists [], l. repeat split; [exact Hy | constructor].
- intros Hfind. destruct (IH Hfind) as (before & after & -> & Hx & Hb).
  exists (y :: before), after. repeat split; [exact Hx|].
  constructor; assumption.
Qed.

Lemma find_none_all {A} (f : A -> bool) (l : list A) :
  List.find f l = None -> Forall (fun y => f y = false) l.
Proof.
induction l as [|y l IH]; cbn; [constructor|].
destruct (f y) eqn:Hy; [discriminate|]. intros H. constructor; auto.
Qed.

End rules_facts.

(** C10. [applyTransformRules] returns a list of the same length and in the
    same order as its input (the k-th result carries the hash of the k-th
    commit); each commit gets at most one rule, the first rule of the list
    whose pattern matches its message: the rules before it do not match and
    the message becomes the replacement by that rule alone; a commit matched
    by no rule keeps its message, with no suggested prefix and no reason. *)
Theorem applyTransformRules_first_match (E : RegExpEngine)
    (commits : list RawCommit) (rules : list (TransformRule E)) :
  length (applyTransformRules E commits rules) = length commits
  /\ map hash (applyTransformRules E commits rules) = map raw_hash commits
  /\ forall (k : nat) (commit : RawCommit),
       commits !! k = Some commit ->
       exists result,
         applyTransformRules E commits rules !! k = Some result
         /\ hash result = raw_hash commit
         /\ ((Forall (fun rule => rule_matches E commit rule = false) rules
              /\ result = blankResult commit
              /\ message result = raw_message commit)
             \/ (exists before rule after,
                   rules = before ++ rule :: after
                   /\ Forall (fun r => rule_matches E commit r = false) before
                   /\ rule_matches E commit rule = true
                   /\ result = applyRule E commit (blankResult commit) rule
                   /\ message result =
                        regex_replace E (raw_message commit) (pattern rule)
                                      (replacement rule)
                   /\ reason result = Some (rule_reason rule))).
Proof.
unfold applyTransformRules. split; [apply length_map|].
split.
- rewrite map_map. apply map_ext. intros commit.
  rewrite applyFirstMatch_find. destruct (List.find _ _); reflexivity.
- intros k commit Hk. eexists. split.
  + rewrite list_lookup_fmap, Hk. reflexivity.
  + cbn beta zeta. rewrite applyFirstMatch_find.
    destruct (List.find _ _) as [rule|] eqn:Hfind.
    * split; [reflexivity|]. right.
      destruct (find_first _ _ _ Hfind) as (before & after & -> & Hx & Hb).
      exists before, rule, after. repeat split; assumption.
    * split; [reflexivity|]. left.
      repeat split. apply find_none_all, Hfind.
Qed.

(** Two commits and three prefix rules: the first commit is rewritten by
    the second rule, the first one that matches, although the third matches
    too; the second commit matches no rule and keeps its message. *)
Lemma applyTransformRules_first_match_witness :
  map message (applyTransformRules prefixEngine raw_commits prefix_rules)
  = ["fix: bug in parser"; "Initial commit"]
  /\ length (applyTransformRules prefixEngine raw_commits prefix_rules) = 2%nat
  /\ exists result,
       applyTransformRules prefixEngine raw_commits prefix_rules !! 0%nat
         = Some result
       /\ hash result = "a1b2c3d".
Proof.
split; [reflexivity|].
destruct (applyTransformRules_first_match prefixEngine raw_commits prefix_rules)
  as (Hlen & _ & Hk).
split; [exact Hlen|].
destruct (Hk 0%nat (mkRaw "a1b2c3d" "Fix bug in parser") eq_refl)
  as (result & Hres & Hhash & _).
exists result. split; assumption.
Defined.

(** ** Properties of the retrying call *)

Section llm_facts.

Variable rt : Runtime.
Variable config : Config.

Lemma checkRateLimits_terminates (w : World) :
  fst (RateLimitManager.checkRateLimits w) <> OutOfFuel.
Proof.
unfold RateLimitManager.checkRateLimits, bind, dateNow, getRateLimitInfo,
  setRateLimitInfo, sleep, ret, throw. cbn.
repeat (case_match; cbn); discriminate.
Qed.

(** One attempt, with its [catch] block, never runs out of steps, and it
    asks for a retry only while retries remain. *)
Lemma attempt_outcome (prompt : string) (retryCount : Z) (w : World) :
  let r := try_catch (attemptRequest rt config prompt retryCount)
                     (handleAttemptError config retryCount) w in
  fst r <> OutOfFuel
  /\ (fst r = Returned Retry -> (retryCount < maxRetries config)%Z).
Proof.
cbn zeta.
unfold try_catch, attemptRequest, handleAttemptError, bind, doFetch,
  RateLimitManager.recordRequest, getRateLimitInfo, setRateLimitInfo, sleep,
  ret, throw.
cbn.
destruct (fetch rt (fetchCount w) prompt) as [why|response]; cbn.
- destruct (retryCount <? maxRetries config)%Z eqn:Hrc; cbn.
  + split; [discriminate | intros _; apply Z.ltb_lt, Hrc].
  + split; discriminate.
- destruct (response_ok response); cbn.
  + destruct (json_content response); cbn.
    * split; discriminate.
    * destruct (retryCount <? maxRetries config)%Z eqn:Hrc; cbn;
        (split; [discriminate|]); [intros _; apply Z.ltb_lt, Hrc | discriminate].
  + destruct (retryCount <? maxRetries config)%Z eqn:Hrc;
      destruct (status response =? 429); destruct (status response =? 402);
      cbn; rewrite ?Hrc; cbn;
      (split; [discriminate|]); try discriminate;
      intros _; apply Z.ltb_lt, Hrc.
Qed.

Lemma callLLMWithRetry_rec_terminates (fuel : nat) (model prompt : string)
    (retryCount : Z) (w : World) :
  (Z.to_nat (maxRetries config - retryCount) < fuel)%nat ->
  fst (callLLMWithRetry_rec rt config fuel model prompt retryCount w)
  <> OutOfFuel.
Proof.
revert retryCount w.
induction fuel as [|fuel IH]; intros retryCount w Hfuel; [lia|].
cbn [callLLMWithRetry_rec]. unfold bind at 1.
pose proof (checkRateLimits_terminates w) as Hcheck.
destruct (RateLimitManager.checkRateLimits w) as [[[]| |] w1]; cbn in *;
  [|discriminate|congruence].
unfold bind.
pose proof (attempt_outcome prompt retryCount w1) as [Hoof Hretry].
cbn zeta in Hoof, Hretry.
destruct (try_catch _ _ w1) as [[[content|]| |] w2]; cbn in *;
  [discriminate| |discriminate|congruence].
apply IH. specialize (Hretry eq_refl). lia.
Qed.

(** The retrying call always comes back: with a value or with an error. *)
Lemma callLLMWithRetry_terminates (model prompt : string) (w : World) :
  fst (callLLMWithRetry rt config model prompt 0 w) <> OutOfFuel.
Proof.
unfold callLLMWithRetry. apply callLLMWithRetry_rec_terminates. lia.
Qed.

End llm_facts.

Section no_credit.

Variable rt : Runtime.
Variable config : Config.

Hypothesis always_402 :
  forall n prompt, exists r,
    fetch rt n prompt = FetchResponds r /\ status r = 402.

Lemma rollWindows_isFreeTier (now : Z) (info : RateLimitInfo) :
  isFreeTier (RateLimitManager.rollWindows now info) = isFreeTier info.
Proof. unfold RateLimitManager.rollWindows. repeat case_match; reflexivity. Qed.

(** Off the free tier [checkRateLimits] only rolls the windows forward. *)
Lemma checkRateLimits_paid (w : World) :
  isFreeTier (rateLimitInfo w) = false ->
  RateLimitManager.checkRateLimits w
  = (Returned tt,
     mkWorld (clock w) (slept w) (fetchCount w) (iterations w)
             (RateLimitManager.rollWindows (clock w) (rateLimitInfo w))).
Proof.
intros Hpaid.
unfold RateLimitManager.checkRateLimits, bind, dateNow, getRateLimitInfo,
  setRateLimitInfo, ret. cbn.
rewrite rollWindows_isFreeTier, Hpaid. reflexivity.
Qed.

(** Against a service that always answers 402, and off the free tier, the
    call uses up its whole retry budget before it fails: from [retryCount]
    on it sends [maxRetries - retryCount + 1] requests. *)
Lemma no_credit_retried_to_exhaustion (fuel : nat) (model prompt : string)
    (retryCount : Z) (w : World) :
  isFreeTier (rateLimitInfo w) = false ->
  (retryCount <= maxRetries config)%Z ->
  (Z.to_nat (maxRetries config - retryCount) < fuel)%nat ->
  exists w',
    callLLMWithRetry_rec rt config fuel model prompt retryCount w
      = (Thrown InsufficientCredits, w')
    /\ fetchCount w'
       = (fetchCount w + Z.to_nat (maxRetries config - retryCount) + 1)%nat
    /\ isFreeTier (rateLimitInfo w') = false.
Proof.
revert retryCount w.
induction fuel as [|fuel IH]; intros retryCount w Hpaid Hrc Hfuel; [lia|].
cbn [callLLMWithRetry_rec]. unfold bind at 1.
rewrite (checkRateLimits_paid w Hpaid).
destruct (always_402 (fetchCount w) prompt) as (r & Hfetch & Hstatus).
unfold bind, try_catch, attemptRequest, handleAttemptError, bind, doFetch,
  RateLimitManager.recordRequest, getRateLimitInfo, setRateLimitInfo, sleep,
  ret, throw, response_ok.
cbn. rewrite Hfetch. cbn. rewrite Hstatus. cbn.
destruct (retryCount <? maxRetries config)%Z eqn:Hlt; cbn.
- apply Z.ltb_lt in Hlt.
  edestruct (IH (retryCount + 1)%Z) as (w' & -> & Hcount & Hpaid');
    [ | | |exists w'; split; [reflexivity|]; split; [|exact Hpaid']].
  + cbn. rewrite rollWindows_isFreeTier. exact Hpaid.
  + lia.
  + lia.
  + rewrite Hcount. cbn. lia.
- apply Z.ltb_ge in Hlt. eexists. split; [reflexivity|]. cbn.
  split; [lia|]. rewrite rollWindows_isFreeTier. exact Hpaid.
Qed.

End no_credit.

(** C1, on the code: a 402 answer is not surfaced at once. With the default
    budget of three retries and a service that always answers 402, the call
    sends four requests, sleeping 500, 1000 and 2000 ms between them, and
    only then fails with the insufficient-credit error. *)
Theorem insufficient_credit_is_retried :
  callLLMWithRetry rt_no_credit default_config
    (classificationModel default_config) "prompt" 0 fresh_world
  = (Thrown InsufficientCredits,
     mkWorld 3500 [500; 1000; 2000]%Z 4 0
             (mkRateLimitInfo 4 0 4 0 None true)).
Proof. vm_compute. reflexivity. Qed.

(** ** Properties of the batch loop *)

Section loop_facts.

Variable rt : Runtime.
Variable config : Config.

Lemma attachClassification_hash (result : list Classification)
    (commit : EnrichedCommit) :
  hash (attachClassification result commit) = enriched_hash commit.
Proof. unfold attachClassification. destruct (List.find _ _); reflexivity. Qed.

(** [classifyCommitsBatch] always returns, one result per commit and in the
    order of the batch, whatever the service does. *)
Lemma classifyCommitsBatch_returns (commits : list EnrichedCommit) (w : World) :
  exists results w',
    classifyCommitsBatch rt config commits w = (Returned results, w')
    /\ map hash results = map enriched_hash commits.
Proof.
unfold classifyCommitsBatch, try_catch, bind.
pose proof (callLLMWithRetry_terminates rt config (classificationModel config)
              (createClassificationPrompt rt commits) w) as Hterm.
destruct (callLLMWithRetry _ _ _ _ _ w) as [[content|e|] w1]; cbn in *;
  [| |congruence].
- destruct (parseClassifications rt content) as [result|]; cbn.
  + do 2 eexists. split; [reflexivity|].
    rewrite map_map. apply map_ext, attachClassification_hash.
  + do 2 eexists. split; [reflexivity|]. rewrite map_map. reflexivity.
- do 2 eexists. split; [reflexivity|]. rewrite map_map. reflexivity.
Qed.

Lemma slice_batch_length (commits : list EnrichedCommit) (i : nat) (size : N) :
  length (slice_batch commits i size)
  = Nat.min (N.to_nat size) (length commits - i).
Proof. unfold slice_batch. rewrite length_take, length_drop. reflexivity. Qed.

Lemma take_add_drop {A} (l : list A) (i n : nat) :
  take (i + n) l = take i l ++ take n (drop i l).
Proof.
revert l. induction i as [|i IH]; intros [|x l]; cbn;
  rewrite ?take_nil; try reflexivity.
f_equal. apply IH.
Qed.

Lemma take_length_take {A} (l : list A) (n : nat) :
  take (length (take n l)) l = take n l.
Proof.
rewrite length_take.
destruct (decide (n <= length l)%nat) as [Hn|Hn].
- rewrite Nat.min_l by exact Hn. reflexivity.
- rewrite Nat.min_r by lia. rewrite !take_ge by lia. reflexivity.
Qed.

Lemma take_slice_batch (commits : list EnrichedCommit) (i : nat) (size : N) :
  take (i + length (slice_batch commits i size)) commits
  = take i commits ++ slice_batch commits i size.
Proof.
rewrite take_add_drop. unfold slice_batch. rewrite take_length_take.
reflexivity.
Qed.

(** One iteration: it always completes, and what it does to the cursor and
    to the output is decided by [consumesBatch]. *)
Lemma loopBody_step (commits : list EnrichedCommit) (st : LoopState)
    (w : World) :
  let batch :=
    slice_batch commits (i st)
      (BatchManager.getCurrentBatchSize (batchManager st)) in
  exists st' w' results,
    loopBody rt config commits st w = (Returned st', w')
    /\ i st' = (if consumesBatch rt config st w batch
                then i st + length batch else i st)%nat
    /\ batchManager st' = managerAfter rt config st w batch
    /\ classifiedCommits st' = classifiedCommits st ++ results
    /\ ((results = []
         /\ (promptFails rt (iterations w) = true
             \/ consumesBatch rt config st w batch = false))
        \/ (promptFails rt (iterations w) = false
            /\ consumesBatch rt config st w batch = true
            /\ map hash results = map enriched_hash batch)).
Proof.
cbn zeta. unfold loopBody, consumesBatch, managerAfter.
set (batch := slice_batch _ _ _).
unfold try_catch, tryBatch, bind at 1, buildPrompt.
destruct (promptFails rt (iterations w)) eqn:Hfail.
- unfold skipOrRetry, bind, sleep, ret.
  cbn -[BatchManager.adjustBatchSize].
  destruct (_ =? minBatchSize config); cbn -[BatchManager.adjustBatchSize];
    do 3 eexists; (split; [reflexivity|]);
    (split; [reflexivity|]); (split; [reflexivity|]);
    (split; [symmetry; apply app_nil_r|]);
    left; split; [reflexivity | left; reflexivity
                 |reflexivity | left; reflexivity].
- destruct (contextLimitThreshold config <? _) eqn:Hover.
  + destruct (_ && _) eqn:Hguard.
    * unfold bind.
      destruct (classifyCommitsBatch_returns (map truncateDiff batch)
                  {| clock := clock w; slept := slept w;
                     fetchCount := fetchCount w;
                     iterations := S (iterations w);
                     rateLimitInfo := rateLimitInfo w |})
        as (results & w1 & -> & Hhash).
      cbn -[BatchManager.adjustBatchSize].
      do 3 eexists. split; [reflexivity|].
      split; [reflexivity|]. split; [reflexivity|].
      split; [reflexivity|]. right.
      split; [reflexivity|]. split; [reflexivity|].
      rewrite Hhash, map_map. reflexivity.
    * cbn -[BatchManager.adjustBatchSize].
      do 3 eexists. split; [reflexivity|].
      split; [reflexivity|]. split; [reflexivity|].
      split; [symmetry; apply app_nil_r|].
      left; split; [reflexivity | right; reflexivity].
  + unfold bind.
    destruct (classifyCommitsBatch_returns batch
                {| clock := clock w; slept := slept w;
                   fetchCount := fetchCount w;
                   iterations := S (iterations w);
                   rateLimitInfo := rateLimitInfo w |})
      as (results & w1 & -> & Hhash).
    destruct (i st + length batch <? length commits)%nat;
      cbn -[BatchManager.adjustBatchSize];
      do 3 eexists; (split; [reflexivity|]);
      (split; [reflexivity|]); (split; [reflexivity|]);
      (split; [reflexivity|]);
      right; (split; [reflexivity|]); (split; [reflexivity | exact Hhash]).
Qed.

(** Every iteration keeps the cursor inside the list and the hashes of the
    output a subsequence of the hashes of the commits before the cursor. *)
Lemma loopBody_covered (commits : list EnrichedCommit) (st st' : LoopState)
    (w w' : World) :
  loopBody rt config commits st w = (Returned st', w') ->
  (i st <= length commits)%nat ->
  sublist (map hash (classifiedCommits st))
          (map enriched_hash (take (i st) commits)) ->
  (i st' <= length commits)%nat
  /\ sublist (map hash (classifiedCommits st'))
             (map enriched_hash (take (i st') commits)).
Proof.
intros Hbody Hi Hsub.
destruct (loopBody_step commits st w)
  as (st1 & w1 & results & Heq & Hcur & _ & Hout & Hres).
rewrite Hbody in Heq. injection Heq as <- <-.
set (batch := slice_batch commits (i st)
                (BatchManager.getCurrentBatchSize (batchManager st))) in *.
assert (Hlen : (i st + length batch <= length commits)%nat).
{ subst batch. rewrite slice_batch_length. lia. }
assert (Htake : map enriched_hash (take (i st + length batch) commits)
                = map enriched_hash (take (i st) commits)
                  ++ map enriched_hash batch).
{ subst batch. rewrite take_slice_batch, map_app. reflexivity. }
rewrite Hcur, Hout, map_app.
destruct Hres as [[-> Hwhy] | (_ & -> & Hhash)].
- cbn. rewrite app_nil_r.
  destruct (consumesBatch rt config st w batch).
  + split; [exact Hlen|]. rewrite Htake. apply sublist_inserts_r, Hsub.
  + split; assumption.
- split; [exact Hlen|]. rewrite Htake, Hhash.
  apply sublist_app; [exact Hsub | reflexivity].
Qed.

(** Without exceptions in the loop body the output has exactly the hashes
    of the commits before the cursor. *)
Lemma loopBody_exact (commits : list EnrichedCommit) (st st' : LoopState)
    (w w' : World) :
  (forall n, promptFails rt n = false) ->
  loopBody rt config commits st w = (Returned st', w') ->
  map hash (classifiedCommits st) = map enriched_hash (take (i st) commits) ->
  map hash (classifiedCommits st') = map enriched_hash (take (i st') commits).
Proof.
intros Hnf Hbody Hexact.
destruct (loopBody_step commits st w)
  as (st1 & w1 & results & Heq & Hcur & _ & Hout & Hres).
rewrite Hbody in Heq. injection Heq as <- <-.
rewrite Hcur, Hout, map_app.
destruct Hres as [[-> [Hf | ->]] | (_ & -> & Hhash)].
- rewrite Hnf in Hf. discriminate.
- cbn. rewrite app_nil_r. exact Hexact.
- rewrite take_slice_batch, map_app, Hhash, Hexact. reflexivity.
Qed.

(** A loop that comes back has moved the cursor to the end of the list. *)
Lemma batchLoop_covered (fuel : nat) (commits : list EnrichedCommit)
    (st st' : LoopState) (w w' : World) :
  batchLoop rt config fuel commits st w = (Returned st', w') ->
  (i st <= length commits)%nat ->
  sublist (map hash (classifiedCommits st))
          (map enriched_hash (take (i st) commits)) ->
  i st' = length commits
  /\ sublist (map hash (classifiedCommits st')) (map enriched_hash commits)
  /\ ((forall n, promptFails rt n = false) ->
      map hash (classifiedCommits st)
        = map enriched_hash (take (i st) commits) ->
      map hash (classifiedCommits st') = map enriched_hash commits).
Proof.
revert st w. induction fuel as [|fuel IH]; intros st w; cbn [batchLoop];
  destruct (i st <? length commits)%nat eqn:Hlt;
  try (apply Nat.ltb_ge in Hlt); try discriminate.
1,3: intros [= <- <-] Hi Hsub;
  assert (Hend : i st = length commits) by lia;
  rewrite Hend, take_ge in * by lia; repeat split; auto.
unfold bind at 1.
destruct (loopBody rt config commits st w) as [[st1| |] w1] eqn:Hbody;
  try discriminate.
intros Hloop Hi Hsub.
destruct (loopBody_covered _ _ _ _ _ Hbody Hi Hsub) as [Hi1 Hsub1].
destruct (IH _ _ Hloop Hi1 Hsub1) as (Hend & Hfinal & Hexact).
repeat split; [exact Hend | exact Hfinal|].
intros Hnf Hex. apply Hexact; [exact Hnf|].
eapply loopBody_exact; eassumption.
Qed.

End loop_facts.

(** C4. In the batch loop every iteration completes, and it moves the cursor
    either by exactly the number of items of the batch it cut from the list
    ([min(batch size, items left)], not the controller's batch size) or not
    at all: it moves after a classification, after the truncated
    classification under the guard, and after a skip at minimum size; a
    pre-flight overflow outside the guard, and a failure above the minimum,
    leave cursor and output alone. The results appended are those of the
    batch, in order. Hence when the loop ends the cursor is at the end of
    the list and the output lists the commits' hashes in order, none twice
    and, when no batch was skipped after an exception, none missing. *)
Theorem cursor_advances_by_batch_length (rt : Runtime) (config : Config)
    (commits : list EnrichedCommit) :
  (forall (st : LoopState) (w : World),
     let batch :=
       slice_batch commits (i st)
         (BatchManager.getCurrentBatchSize (batchManager st)) in
     exists st' w' results,
       loopBody rt config commits st w = (Returned st', w')
       /\ length batch
          = Nat.min (N.to_nat (BatchManager.getCurrentBatchSize (batchManager st)))
                    (length commits - i st)
       /\ i st' = (if consumesBatch rt config st w batch
                   then i st + length batch else i st)%nat
       /\ classifiedCommits st' = classifiedCommits st ++ results
       /\ ((results = []
            /\ (promptFails rt (iterations w) = true
                \/ consumesBatch rt config st w batch = false))
           \/ (promptFails rt (iterations w) = false
               /\ consumesBatch rt config st w batch = true
               /\ map hash results = map enriched_hash batch)))
  /\ (forall (fuel : nat) (w w' : World) (st' : LoopState),
        batchLoop rt config fuel commits (initialLoopState config) w
          = (Returned st', w') ->
        i st' = length commits
        /\ sublist (map hash (classifiedCommits st'))
                   (map enriched_hash commits)
        /\ ((forall n, promptFails rt n = false) ->
            map hash (classifiedCommits st') = map enriched_hash commits)).
Proof.
split.
- intros st w. cbn zeta.
  destruct (loopBody_step rt config commits st w)
    as (st' & w' & results & Heq & Hcur & _ & Hout & Hres).
  exists st', w', results. repeat split; try assumption.
  apply slice_batch_length.
- intros fuel w w' st' Hloop.
  destruct (batchLoop_covered rt config fuel commits _ _ _ _ Hloop)
    as (Hend & Hsub & Hexact); cbn; [lia | reflexivity |].
  repeat split; [exact Hend | exact Hsub|].
  intros Hnf. apply Hexact; [exact Hnf | reflexivity].
Qed.

(** Two commits under the default configuration: the requested batch size
    is 16, the batch has two items, and the cursor ends at 2. *)
Lemma cursor_advances_by_batch_length_witness :
  exists st' w',
    batchLoop rt_quiet default_config 3 two_commits
      (initialLoopState default_config) fresh_world = (Returned st', w')
    /\ i st' = 2%nat
    /\ map hash (classifiedCommits st') = ["a1b2c3d"; "d4e5f6g"].
Proof.
destruct (batchLoop rt_quiet default_config 3 two_commits
            (initialLoopState default_config) fresh_world)
  as [out w'] eqn:Hrun.
assert (Hout : exists st', out = Returned st').
{ vm_compute in Hrun. injection Hrun as <- _. eexists. reflexivity. }
destruct Hout as [st' ->]. exists st', w'. split; [reflexivity|].
destruct (cursor_advances_by_batch_length rt_quiet default_config two_commits)
  as [_ Hloop].
destruct (Hloop 3%nat fresh_world w' st' Hrun) as (Hend & _ & Hexact).
split; [exact Hend|]. apply Hexact. reflexivity.
Defined.

(** ** Non-termination of the batch loop above a minimum size of one *)

Section overflow_stall.

Variable rt : Runtime.
Variable config : Config.
Variable commits : list EnrichedCommit.

Hypothesis min_two : 2 <= minBatchSize config.
Hypothesis no_exception : forall n, promptFails rt n = false.
Hypothesis always_over :
  forall batch,
    contextLimitThreshold config
    < estimateTokensAccurately rt (createClassificationPrompt rt batch).

(** With at least two items left and a size of at least the minimum, an
    oversized estimate shrinks the size and leaves the cursor where it is:
    the guard asks for a batch of one item, and the batch has two or more. *)
Lemma loopBody_stalls (st : LoopState) (w : World) :
  minBatchSize config <= BatchManager.currentBatchSize (batchManager st) ->
  (i st + 2 <= length commits)%nat ->
  exists st' w',
    loopBody rt config commits st w = (Returned st', w')
    /\ i st' = i st
    /\ minBatchSize config <= BatchManager.currentBatchSize (batchManager st').
Proof.
intros Hsize Hleft.
pose proof (slice_batch_length commits (i st)
              (BatchManager.getCurrentBatchSize (batchManager st))) as Hlen.
unfold loopBody, try_catch, tryBatch, bind at 1, buildPrompt.
rewrite no_exception.
set (batch := slice_batch _ _ _) in *.
pose proof (always_over batch) as Hover. apply N.ltb_lt in Hover.
rewrite Hover.
assert (Hone : Nat.eqb (length batch) 1 = false).
{ apply Nat.eqb_neq. rewrite Hlen.
  unfold BatchManager.getCurrentBatchSize. lia. }
rewrite Hone, andb_false_r.
do 2 eexists. split; [reflexivity|]. split; [reflexivity|].
cbn [batchManager BatchManager.adjustBatchSize BatchManager.currentBatchSize].
apply N.le_max_l.
Qed.

Lemma batchLoop_stalls (fuel : nat) (st : LoopState) (w : World) :
  minBatchSize config <= BatchManager.currentBatchSize (batchManager st) ->
  (i st + 2 <= length commits)%nat ->
  fst (batchLoop rt config fuel commits st w) = OutOfFuel.
Proof.
revert st w. induction fuel as [|fuel IH]; intros st w Hsize Hleft;
  cbn [batchLoop];
  (replace (i st <? length commits)%nat with true
     by (symmetry; apply Nat.ltb_lt; lia)); [reflexivity|].
unfold bind at 1.
destruct (loopBody_stalls st w Hsize Hleft) as (st' & w' & -> & Hi & Hsize').
apply IH; [exact Hsize' | rewrite Hi; exact Hleft].
Qed.

End overflow_stall.

(** C3, on the code: the loop does not terminate for every configuration
    with a minimum batch size of at least 1. Under the default configuration
    (minimum 2) with a context threshold of 100 tokens, and two commits
    whose prompt is estimated at 200 tokens, the size decays 16, 9, 5, 3, 2
    and stays at 2; each batch holds both commits, so the guard for a single
    oversized item never applies and the cursor stays at 0: whatever the
    number of iterations allowed, the loop has not returned. *)
Theorem overflow_at_minimum_never_terminates (fuel : nat) (w : World) :
  fst (processCommitsInAdaptiveBatches rt_overflow config_low_threshold fuel
         two_commits w) = OutOfFuel.
Proof.
unfold processCommitsInAdaptiveBatches, bind, dateNow, setRateLimitInfo,
  RateLimitManager.updateApiKeyInfo, ret. cbn [apiKeyInfo rt_overflow].
match goal with
| |- fst (let (o, w') := batchLoop ?r ?c ?f ?cs ?st ?w0 in _) = _ =>
    pose proof (batchLoop_stalls r c cs) as Hstall;
    specialize (Hstall ltac:(cbn; lia) ltac:(reflexivity)
                  ltac:(intros; cbn; lia) f st w0
                  ltac:(cbn; lia) ltac:(cbn; lia));
    destruct (batchLoop r c f cs st w0) as [o w1]
end.
cbn in Hstall. subst o. reflexivity.
Qed.

(** ** Properties of the cache file *)

(** C2 as stated fails: the save is not atomic. Saving over an existing
    cache file makes four system calls, all on the destination or the backup
    path and none of them a rename; a process killed after the third call
    leaves the destination empty, holding neither the old nor the new
    state. *)
Lemma save_not_atomic_counterexample :
  trace (snd (saveCache frt_plain cache_new None
                (mkFsWorld files_old [] None)))
  = [Access ".gca-cache.json";
     CopyFile ".gca-cache.json" ".gca-cache.backup.json";
     OpenTruncate ".gca-cache.json";
     WriteAll ".gca-cache.json" "new state"]
  /\ fst (saveCache frt_plain cache_new None
            (mkFsWorld files_old [] (Some 3%nat))) = OutOfFuel
  /\ files (snd (saveCache frt_plain cache_new None
                   (mkFsWorld files_old [] (Some 3%nat))))
       !! ".gca-cache.json" = Some ""
  /\ files_old !! ".gca-cache.json" = Some "old state".
Proof. vm_compute. repeat split. Qed.

(** C2, amended. For every cache record and path, [saveCache] writes the
    serialized record directly to the destination path: after probing the
    destination it opens it for writing and writes the content, with no
    temporary file and no rename. Before that, if the destination exists, it
    copies it to the backup path [.gca-cache.backup.json], on a best-effort
    basis: whether the probe or the copy fails or not, the save goes on, and
    if opening and writing the destination do not fail the save returns with
    the destination holding the serialized record. When the copy is made and
    the backup path is not the destination, the backup holds the prior
    content. *)
Theorem saveCache_writes_in_place (frt : FsRuntime) (cache : GcaCache)
    (cachePath : option string) (w : FsWorld) :
  let filePath := getCacheFilePath frt cachePath in
  let backupPath := getCacheFilePath frt (Some BACKUP_CACHE_FILE) in
  let dest := resolve frt filePath in
  let cache' :=
    mkCache (version cache) (timestamp cache) (repoHash cache) (isoNow frt)
            (N.of_nat (String.length (stringify frt cache))) (payload cache) in
  let content := stringifyPretty frt cache' in
  crashAfter w = None ->
  fails frt (OpenTruncate dest) = false ->
  fails frt (WriteAll dest content) = false ->
  exists w' backup,
    saveCache frt cache cachePath w = (Returned cache', w')
    /\ files w' !! dest = Some content
    /\ trace w' = trace w ++ Access filePath :: backup
                  ++ [OpenTruncate dest; WriteAll dest content]
    /\ (backup = [] \/ backup = [CopyFile filePath backupPath])
    /\ (forall old,
          files w !! filePath = Some old ->
          fails frt (Access filePath) = false ->
          fails frt (CopyFile filePath backupPath) = false ->
          backup = [CopyFile filePath backupPath]
          /\ (backupPath <> dest -> files w' !! backupPath = Some old)).
Proof.
cbn zeta. intros Hlive Hopen Hwrite.
set (filePath := getCacheFilePath frt cachePath) in *.
set (backupPath := getCacheFilePath frt (Some BACKUP_CACHE_FILE)).
unfold saveCache, writeJsonFile, fs_writeFile, fileExists, try_catch, bind,
  syscall, ret, throw.
fold filePath. fold backupPath. cbn -[getCacheFilePath]. rewrite Hlive.
destruct (fails frt (Access filePath)) eqn:Hacc; cbn -[getCacheFilePath].
- rewrite Hopen; cbn -[getCacheFilePath]. rewrite Hwrite; cbn -[getCacheFilePath].
  eexists _, []. split; [reflexivity|]. cbn -[getCacheFilePath].
  split; [apply lookup_insert_eq|].
  split; [rewrite <- !app_assoc; reflexivity|].
  split; [left; reflexivity|]. intros old _ Habs. discriminate.
- destruct (files w !! filePath) as [old|] eqn:Hold; cbn -[getCacheFilePath].
  + destruct (fails frt (CopyFile filePath backupPath)) eqn:Hcopy; cbn -[getCacheFilePath].
    * rewrite Hopen; cbn -[getCacheFilePath]. rewrite Hwrite; cbn -[getCacheFilePath].
      eexists _, [CopyFile filePath backupPath]. split; [reflexivity|]. cbn -[getCacheFilePath].
      split; [apply lookup_insert_eq|].
      split; [rewrite <- !app_assoc; reflexivity|].
      split; [right; reflexivity|]. intros old' _ _ Habs. discriminate.
    * rewrite Hold; cbn -[getCacheFilePath]. rewrite Hopen; cbn -[getCacheFilePath]. rewrite Hwrite; cbn -[getCacheFilePath].
      eexists _, [CopyFile filePath backupPath]. split; [reflexivity|]. cbn -[getCacheFilePath].
      split; [apply lookup_insert_eq|].
      split; [rewrite <- !app_assoc; reflexivity|].
      split; [right; reflexivity|].
      intros old' [= <-] _ _. split; [reflexivity|]. intros Hne.
      rewrite !lookup_insert_ne by congruence. apply lookup_insert_eq.
  + rewrite Hopen; cbn -[getCacheFilePath]. rewrite Hwrite; cbn -[getCacheFilePath].
    eexists _, []. split; [reflexivity|]. cbn -[getCacheFilePath].
    split; [apply lookup_insert_eq|].
    split; [rewrite <- !app_assoc; reflexivity|].
    split; [left; reflexivity|]. intros old Habs. discriminate.
Qed.

(** Saving over an existing cache file: the destination holds the new
    state, the backup the old one. *)
Lemma saveCache_writes_in_place_witness :
  exists w',
    snd (saveCache frt_plain cache_new None (mkFsWorld files_old [] None)) = w'
    /\ files w' !! ".gca-cache.json" = Some "new state"
    /\ files w' !! ".gca-cache.backup.json" = Some "old state".
Proof.
destruct (saveCache_writes_in_place frt_plain cache_new None
            (mkFsWorld files_old [] None) eq_refl eq_refl eq_refl)
  as (w' & backup & Hsave & Hdest & _ & _ & Hbackup).
exists w'. split; [rewrite Hsave; reflexivity|]. split; [exact Hdest|].
destruct (Hbackup "old state" eq_refl eq_refl eq_refl) as [_ Hb].
apply Hb. discriminate.
Defined.

(** ** Termination of the batch loop at a minimum size of one *)

Section termination.

Variable rt : Runtime.
Variable config : Config.
Variable commits : list EnrichedCommit.

Hypothesis min_one : minBatchSize config = 1.
Hypothesis max_pos : 1 <= maxBatchSize config.
Hypothesis decay_lt_1 : (decayFactor config < 1)%Q.

(** A decay either reaches the minimum or shrinks the size. *)
Lemma decay_reaches_min_or_shrinks (bm : BatchManager.t) :
  1 <= BatchManager.currentBatchSize bm ->
  BatchManager.currentBatchSize
    (BatchManager.adjustBatchSize config bm false true) = 1
  \/ BatchManager.currentBatchSize
       (BatchManager.adjustBatchSize config bm false true)
     < BatchManager.currentBatchSize bm.
Proof.
intros Hsize. unfold BatchManager.adjustBatchSize.
cbn [BatchManager.currentBatchSize]. rewrite min_one.
pose proof (floor_mul_lt (BatchManager.currentBatchSize bm)
              (decayFactor config) ltac:(lia) decay_lt_1).
lia.
Qed.

Lemma failure_reaches_min_or_shrinks (bm : BatchManager.t) :
  1 <= BatchManager.currentBatchSize bm ->
  BatchManager.currentBatchSize
    (BatchManager.adjustBatchSize config bm false false) = 1
  \/ BatchManager.currentBatchSize
       (BatchManager.adjustBatchSize config bm false false)
     < BatchManager.currentBatchSize bm.
Proof.
intros Hsize. unfold BatchManager.adjustBatchSize.
cbn [BatchManager.currentBatchSize]. rewrite min_one.
pose proof (floor_mul_lt (BatchManager.currentBatchSize bm) _ ltac:(lia)
              (decayRate_lt_1 config (BatchManager.consecutiveFailures bm + 1))).
lia.
Qed.

(** Every iteration lowers the measure. *)
Lemma loopBody_decreases (st st' : LoopState) (w w' : World) :
  BatchManager.in_bounds config (batchManager st) ->
  (i st < length commits)%nat ->
  loopBody rt config commits st w = (Returned st', w') ->
  BatchManager.in_bounds config (batchManager st')
  /\ (loopMeasure config commits st' < loopMeasure config commits st)%nat.
Proof.
intros Hb Hi Hbody.
destruct (loopBody_step rt config commits st w)
  as (st1 & w1 & results & Heq & Hcur & Hbm & _ & _).
rewrite Hbody in Heq. injection Heq as <- <-.
set (batch := slice_batch commits (i st)
                (BatchManager.getCurrentBatchSize (batchManager st))) in *.
assert (Hlen : length batch
               = Nat.min (N.to_nat (BatchManager.currentBatchSize (batchManager st)))
                         (length commits - i st))
  by apply slice_batch_length.
assert (Hdle : (decayFactor config <= 1)%Q) by apply Qlt_le_weak, decay_lt_1.
assert (Hmm : minBatchSize config <= maxBatchSize config) by lia.
assert (Hb' : BatchManager.in_bounds config (batchManager st')).
{ rewrite Hbm. unfold managerAfter.
  repeat case_match; apply adjustBatchSize_in_bounds; assumption. }
split; [exact Hb'|].
destruct Hb as [Hlo Hhi]. destruct Hb' as [Hlo' Hhi'].
rewrite min_one in Hlo, Hlo'.
unfold loopMeasure. rewrite Hcur.
destruct (consumesBatch rt config st w batch) eqn:Hcons.
- assert (1 <= length batch)%nat by lia. nia.
- assert (Hshrink : BatchManager.currentBatchSize (batchManager st')
                    < BatchManager.currentBatchSize (batchManager st)).
  { rewrite Hbm. unfold consumesBatch, managerAfter in *.
    rewrite min_one in Hcons. unfold BatchManager.getCurrentBatchSize in Hcons.
    destruct (promptFails rt (iterations w)).
    - apply N.eqb_neq in Hcons.
      destruct (failure_reaches_min_or_shrinks (batchManager st) Hlo);
        [contradiction | assumption].
    - destruct (contextLimitThreshold config <? _); [|discriminate].
      destruct (decay_reaches_min_or_shrinks (batchManager st) Hlo)
        as [Hone | Hlt]; [|exact Hlt].
      rewrite Hone in *. cbn in Hcons. apply Nat.eqb_neq in Hcons. lia. }
  lia.
Qed.

Lemma batchLoop_terminates (fuel : nat) (st : LoopState) (w : World) :
  BatchManager.in_bounds config (batchManager st) ->
  (loopMeasure config commits st <= fuel)%nat ->
  exists st' w', batchLoop rt config fuel commits st w = (Returned st', w').
Proof.
revert st w. induction fuel as [|fuel IH]; intros st w Hb Hfuel;
  cbn [batchLoop]; destruct (i st <? length commits)%nat eqn:Hi;
  try (do 2 eexists; reflexivity); apply Nat.ltb_lt in Hi.
- destruct Hb as [Hlo _]. rewrite min_one in Hlo.
  unfold loopMeasure in Hfuel. lia.
- unfold bind at 1.
  destruct (loopBody_step rt config commits st w)
    as (st1 & w1 & results & Heq & _).
  rewrite Heq.
  destruct (loopBody_decreases st st1 w w1 Hb Hi Heq) as [Hb1 Hlt].
  apply IH; [exact Hb1 | lia].
Qed.

End termination.

(** With a minimum batch size of 1 and valid controller parameters the
    whole batch engine returns, for every list of commits and whatever the
    tokenizer and the service do; the guard for a single oversized item then
    does its work. *)
Lemma processCommits_terminates_at_min_one (rt : Runtime) (config : Config)
    (commits : list EnrichedCommit) (w : World) :
  BatchManager.valid_params config ->
  minBatchSize config = 1 ->
  exists fuel results w',
    processCommitsInAdaptiveBatches rt config fuel commits w
      = (Returned results, w')
    /\ sublist (map hash results) (map enriched_hash commits).
Proof.
intros (Hmi & Him & _ & _ & Hd & _) Hmin.
exists (loopMeasure config commits (initialLoopState config)).
unfold processCommitsInAdaptiveBatches, bind at 1 2 3, dateNow,
  setRateLimitInfo.
destruct (RateLimitManager.updateApiKeyInfo rt _) as [o w1] eqn:Hkey.
assert (Ho : o = Returned tt).
{ revert Hkey. unfold RateLimitManager.updateApiKeyInfo, bind,
    getRateLimitInfo, setRateLimitInfo, ret.
  destruct (apiKeyInfo rt) as [[credits free]|]; cbn; congruence. }
subst o. unfold bind.
destruct (batchLoop_terminates rt config commits Hmin ltac:(lia) Hd
            (loopMeasure config commits (initialLoopState config))
            (initialLoopState config) w1)
  as (st' & w' & Hloop); [split; cbn; lia | lia |].
rewrite Hloop. do 2 eexists. split; [reflexivity|].
destruct (batchLoop_covered rt config _ commits _ _ _ _ Hloop)
  as (_ & Hsub & _); cbn; [lia | reflexivity | exact Hsub].
Qed.

(** ** Runs of the concurrency limiter *)

Lemma limiterStep_limit (l l' : ConcurrencyLimiter.t) (e : LimiterEvent) :
  limiterStep l e = Some l' ->
  ConcurrencyLimiter.limit l' = ConcurrencyLimiter.limit l.
Proof.
destruct e as [task|task]; cbn.
- intros [= <-]. destruct (_ <? _)%Z; reflexivity.
- unfold ConcurrencyLimiter.settle.
  destruct (_ && _); [|discriminate].
  cbn. destruct (ConcurrencyLimiter.queue l); intros [= <-]; reflexivity.
Qed.

Lemma limiterStep_invariant (l l' : ConcurrencyLimiter.t) (e : LimiterEvent) :
  limiterInvariant l -> limiterStep l e = Some l' -> limiterInvariant l'.
Proof.
intros (Hmax & Hcount & Hfull & Hnd & Hsub).
destruct e as [task|task]; cbn.
- intros [= <-].
  destruct (ConcurrencyLimiter.running l <? ConcurrencyLimiter.limit l)%Z
    eqn:Hroom; [apply Z.ltb_lt in Hroom | apply Z.ltb_ge in Hroom];
    unfold limiterInvariant; cbn; rewrite ?length_app; cbn.
  + repeat split; try lia; try assumption.
    * intros Hq. specialize (Hfull Hq). lia.
    * intros t Ht. apply elem_of_app. left. apply Hsub, Ht.
  + repeat split; try lia; assumption.
- unfold ConcurrencyLimiter.settle.
  destruct (bool_decide (task ∈ ConcurrencyLimiter.started l)) eqn:Hin;
    [|discriminate].
  destruct (bool_decide (task ∈ ConcurrencyLimiter.settled l)) eqn:Hout;
    [discriminate|].
  apply bool_decide_eq_true in Hin. apply bool_decide_eq_false in Hout.
  cbn.
  assert (Hnd' : NoDup (ConcurrencyLimiter.settled l ++ [task])).
  { apply NoDup_app. repeat split; [assumption| |apply NoDup_singleton].
    intros t Ht Ht'. apply list_elem_of_singleton in Ht'. subst. contradiction. }
  assert (Hsub' : forall t, t ∈ ConcurrencyLimiter.settled l ++ [task] ->
                            t ∈ ConcurrencyLimiter.started l).
  { intros t Ht. apply elem_of_app in Ht as [Ht|Ht]; [apply Hsub, Ht|].
    apply list_elem_of_singleton in Ht. subst. exact Hin. }
  assert (Hlen : (length (ConcurrencyLimiter.settled l ++ [task])
                  <= length (ConcurrencyLimiter.started l))%nat).
  { apply submseteq_length, NoDup_submseteq; assumption. }
  rewrite length_app in Hlen. cbn in Hlen.
  destruct (ConcurrencyLimiter.queue l) as [|next rest] eqn:Hq;
    intros [= <-]; unfold limiterInvariant; cbn; rewrite ?length_app; cbn.
  + repeat split; try lia; try assumption. intros Habs. contradiction.
  + assert (Hfull' : (ConcurrencyLimiter.limit l
                      <= ConcurrencyLimiter.running l)%Z)
      by (apply Hfull; discriminate).
    repeat split; try lia; try assumption.
    intros t Ht. apply elem_of_app. left. apply Hsub', Ht.
Qed.

Lemma limiterRun_invariant (events : list LimiterEvent)
    (l l' : ConcurrencyLimiter.t) :
  limiterInvariant l -> limiterRun l events = Some l' ->
  limiterInvariant l'
  /\ ConcurrencyLimiter.limit l' = ConcurrencyLimiter.limit l.
Proof.
revert l. induction events as [|e rest IH]; intros l Hinv; cbn.
- intros [= <-]. split; [exact Hinv | reflexivity].
- destruct (limiterStep l e) as [l1|] eqn:Hstep; [|discriminate].
  intros Hrun.
  destruct (IH l1 (limiterStep_invariant _ _ _ Hinv Hstep) Hrun) as [H1 H2].
  split; [exact H1|]. rewrite H2. eapply limiterStep_limit, Hstep.
Qed.

Lemma freshLimiter_invariant (limit : Z) : limiterInvariant (freshLimiter limit).
Proof.
unfold limiterInvariant, freshLimiter; cbn.
repeat split; try lia; try constructor.
- intros Habs. contradiction.
- intros t Ht. exact Ht.
Qed.

(** X1. Whatever tasks are submitted and whatever the order in which they
    complete, the number of running tasks never exceeds the limit (nothing
    runs at all under a limit below 1), and it is the number of tasks
    started minus the number of tasks completed. *)
Theorem limiter_bounds_concurrency (limit : Z) (events : list LimiterEvent)
    (l : ConcurrencyLimiter.t) :
  limiterRun (freshLimiter limit) events = Some l ->
  (0 <= ConcurrencyLimiter.running l <= Z.max 0 limit)%Z
  /\ ConcurrencyLimiter.running l
     = (Z.of_nat (length (ConcurrencyLimiter.started l))
        - Z.of_nat (length (ConcurrencyLimiter.settled l)))%Z.
Proof.
intros Hrun.
destruct (limiterRun_invariant events _ _ (freshLimiter_invariant limit) Hrun)
  as [(Hmax & Hcount & _ & Hnd & Hsub) Hlimit].
cbn in Hlimit. rewrite Hlimit in Hmax.
assert (Hlen : (length (ConcurrencyLimiter.settled l)
                <= length (ConcurrencyLimiter.started l))%nat)
  by (apply submseteq_length, NoDup_submseteq; assumption).
repeat split; [lia | exact Hmax | exact Hcount].
Qed.

Lemma limiter_bounds_concurrency_witness :
  exists l,
    limiterRun (freshLimiter 2)
      [Submit 1; Submit 2; Submit 3; Complete 1; Submit 4]%nat = Some l
    /\ ConcurrencyLimiter.running l = 2%Z
    /\ (ConcurrencyLimiter.running l <= 2)%Z.
Proof.
eexists. split; [reflexivity|]. split; [reflexivity|].
apply (limiter_bounds_concurrency 2
         [Submit 1; Submit 2; Submit 3; Complete 1; Submit 4]%nat).
reflexivity.
Defined.

Lemma limiterStep_fifo (l l' : ConcurrencyLimiter.t) (e : LimiterEvent) :
  limiterInvariant l -> limiterStep l e = Some l' ->
  ConcurrencyLimiter.started l' ++ ConcurrencyLimiter.queue l'
  = ConcurrencyLimiter.started l ++ ConcurrencyLimiter.queue l
    ++ submitted [e].
Proof.
intros (_ & _ & Hfull & _ & _).
destruct e as [task|task]; cbn.
- intros [= <-].
  destruct (ConcurrencyLimiter.running l <? ConcurrencyLimiter.limit l)%Z
    eqn:Hroom; cbn.
  + apply Z.ltb_lt in Hroom.
    destruct (ConcurrencyLimiter.queue l) as [|next rest]; cbn.
    * rewrite app_nil_r. reflexivity.
    * specialize (Hfull ltac:(discriminate)). lia.
  + reflexivity.
- unfold ConcurrencyLimiter.settle.
  destruct (_ && _); [|discriminate]. cbn.
  destruct (ConcurrencyLimiter.queue l) as [|next rest];
    intros [= <-]; cbn; rewrite ?app_nil_r; [reflexivity|].
  rewrite <- app_assoc. reflexivity.
Qed.

Lemma limiterRun_fifo (events : list LimiterEvent)
    (l l' : ConcurrencyLimiter.t) :
  limiterInvariant l -> limiterRun l events = Some l' ->
  ConcurrencyLimiter.started l' ++ ConcurrencyLimiter.queue l'
  = ConcurrencyLimiter.started l ++ ConcurrencyLimiter.queue l
    ++ submitted events.
Proof.
revert l. induction events as [|e rest IH]; intros l Hinv; cbn [limiterRun].
- intros [= <-]. cbn. rewrite app_nil_r. reflexivity.
- destruct (limiterStep l e) as [l1|] eqn:Hstep; [|discriminate].
  intros Hrun.
  rewrite (IH l1 (limiterStep_invariant _ _ _ Hinv Hstep) Hrun).
  rewrite app_assoc, (limiterStep_fifo _ _ _ Hinv Hstep).
  rewrite <- !app_assoc. do 2 f_equal.
  destruct e; reflexivity.
Qed.

(** X2. The limiter is first-in first-out and loses nothing: at any moment
    the tasks started so far, followed by the tasks still queued, are
    exactly the tasks submitted, in submission order. So tasks start in the
    order of the [run] calls, and none is started twice or dropped. *)
Theorem limiter_is_fifo (limit : Z) (events : list LimiterEvent)
    (l : ConcurrencyLimiter.t) :
  limiterRun (freshLimiter limit) events = Some l ->
  ConcurrencyLimiter.started l ++ ConcurrencyLimiter.queue l
  = submitted events.
Proof.
intros Hrun.
apply (limiterRun_fifo events _ _ (freshLimiter_invariant limit) Hrun).
Qed.

Lemma limiter_is_fifo_witness :
  exists l,
    limiterRun (freshLimiter 1) [Submit 5; Submit 3; Complete 5; Submit 4]%nat
      = Some l
    /\ ConcurrencyLimiter.started l ++ ConcurrencyLimiter.queue l
       = [5; 3; 4]%nat.
Proof.
eexists. split; [reflexivity|].
apply (limiter_is_fifo 1 [Submit 5; Submit 3; Complete 5; Submit 4]%nat).
reflexivity.
Defined.

(** X3. With a limit of at least 1 the limiter never idles while work is
    waiting: whenever a task is queued, exactly [limit] tasks are running;
    and once every started task has completed the queue is empty, so every
    submitted task has been started. *)
Theorem limiter_is_work_conserving (limit : Z) (events : list LimiterEvent)
    (l : ConcurrencyLimiter.t) :
  (1 <= limit)%Z ->
  limiterRun (freshLimiter limit) events = Some l ->
  (ConcurrencyLimiter.queue l <> [] -> ConcurrencyLimiter.running l = limit)
  /\ (length (ConcurrencyLimiter.settled l)
      = length (ConcurrencyLimiter.started l) ->
      ConcurrencyLimiter.queue l = []
      /\ ConcurrencyLimiter.started l = submitted events).
Proof.
intros Hlimit Hrun.
pose proof (limiterRun_fifo events _ _ (freshLimiter_invariant limit) Hrun)
  as Hfifo.
cbn in Hfifo.
destruct (limiterRun_invariant events _ _ (freshLimiter_invariant limit) Hrun)
  as [(Hmax & Hcount & Hfull & _ & _) Hl].
cbn in Hl. rewrite Hl in *.
split.
- intros Hq. specialize (Hfull Hq). lia.
- intros Hdone.
  assert (Hq : ConcurrencyLimiter.queue l = []).
  { destruct (ConcurrencyLimiter.queue l) as [|next rest]; [reflexivity|].
    specialize (Hfull ltac:(discriminate)). lia. }
  split; [exact Hq|]. rewrite Hq, app_nil_r in Hfifo. exact Hfifo.
Qed.

Lemma limiter_is_work_conserving_witness :
  exists l,
    limiterRun (freshLimiter 1)
      [Submit 1; Submit 2; Complete 1; Complete 2]%nat = Some l
    /\ ConcurrencyLimiter.queue l = []
    /\ ConcurrencyLimiter.started l = [1; 2]%nat.
Proof.
eexists. split; [reflexivity|].
apply (limiter_is_work_conserving 1
         [Submit 1; Submit 2; Complete 1; Complete 2]%nat); [lia | reflexivity..].
Defined.

(** ** More on the rate limiter *)

(** X4. Rolling the windows forward is idempotent, never moves a window
    start backwards, leaves both windows current (less than a window length
    old), and touches a counter only to reset it to 0 together with its
    window start. *)
Theorem rollWindows_idempotent_monotone (now : Z) (info : RateLimitInfo) :
  let info' := RateLimitManager.rollWindows now info in
  RateLimitManager.rollWindows now info' = info'
  /\ (minuteStartTime info <= minuteStartTime info')%Z
  /\ (dayStartTime info <= dayStartTime info')%Z
  /\ (now - minuteStartTime info' < 60000)%Z
  /\ (now - dayStartTime info' < 86400000)%Z
  /\ ((requestsThisMinute info' = requestsThisMinute info
       /\ minuteStartTime info' = minuteStartTime info)
      \/ (requestsThisMinute info' = 0 /\ minuteStartTime info' = now))
  /\ ((dailyRequests info' = dailyRequests info
       /\ dayStartTime info' = dayStartTime info)
      \/ (dailyRequests info' = 0 /\ dayStartTime info' = now)).
Proof.
cbn zeta. unfold RateLimitManager.rollWindows.
destruct (60000 <=? now - minuteStartTime info)%Z eqn:Hm;
  destruct (86400000 <=? now - dayStartTime info)%Z eqn:Hd; cbn;
  rewrite ?Hm, ?Hd; cbn;
  rewrite ?Z.sub_diag; cbn; rewrite ?Hm, ?Hd; cbn;
  try apply Z.leb_le in Hm; try apply Z.leb_gt in Hm;
  try apply Z.leb_le in Hd; try apply Z.leb_gt in Hd;
  repeat split; try lia; try (destruct info; reflexivity); auto.
Qed.

(** X5. On the free tier an acquire that returns leaves room for the
    request: the per-minute count is below 20 and the per-day count is
    below the daily limit, so that after [recordRequest] the counts are at
    most 20 and at most the daily limit. *)
Theorem acquire_leaves_room (w w' : World) :
  isFreeTier (rateLimitInfo w) = true ->
  RateLimitManager.checkRateLimits w = (Returned tt, w') ->
  requestsThisMinute (rateLimitInfo w') < 20
  /\ dailyRequests (rateLimitInfo w')
     < RateLimitManager.dailyLimit (rateLimitInfo w')
  /\ forall w'', RateLimitManager.recordRequest w' = (Returned tt, w'') ->
       requestsThisMinute (rateLimitInfo w'') <= 20
       /\ dailyRequests (rateLimitInfo w'')
          <= RateLimitManager.dailyLimit (rateLimitInfo w'').
Proof.
intros Hfree. rewrite (free_tier_acquire_eq w Hfree). cbn zeta.
set (info := RateLimitManager.rollWindows (clock w) (rateLimitInfo w)).
destruct (20 <=? requestsThisMinute info) eqn:Hmin;
  [apply N.leb_le in Hmin | apply N.leb_gt in Hmin];
  destruct (RateLimitManager.dailyLimit info <=? dailyRequests info) eqn:Hday;
  try discriminate; apply N.leb_gt in Hday; intros [= <-]; cbn;
  (split; [lia|]); (split; [exact Hday|]);
  unfold RateLimitManager.recordRequest, bind, getRateLimitInfo,
    setRateLimitInfo; cbn; intros w'' [= <-]; cbn;
  unfold RateLimitManager.dailyLimit in *; cbn in *; lia.
Qed.

Lemma acquire_leaves_room_witness :
  exists w',
    RateLimitManager.checkRateLimits
      (mkWorld 10000 [] 20 0 (mkRateLimitInfo 20 0 20 0 None true))
      = (Returned tt, w')
    /\ requestsThisMinute (rateLimitInfo w') < 20.
Proof.
eexists. split; [reflexivity|].
apply (acquire_leaves_room
         (mkWorld 10000 [] 20 0 (mkRateLimitInfo 20 0 20 0 None true)));
  reflexivity.
Defined.

(** ** More on the retrying call *)

Section retry_budget.

Variable rt : Runtime.
Variable config : Config.

Lemma checkRateLimits_fetchCount (w : World) :
  fetchCount (snd (RateLimitManager.checkRateLimits w)) = fetchCount w.
Proof.
unfold RateLimitManager.checkRateLimits, bind, dateNow, getRateLimitInfo,
  setRateLimitInfo, sleep, ret, throw. cbn.
repeat (case_match; cbn in *; simplify_eq); reflexivity.
Qed.

(** One attempt, with its [catch] block, sends exactly one request. *)
Lemma attempt_fetchCount (prompt : string) (retryCount : Z) (w : World) :
  fetchCount (snd (try_catch (attemptRequest rt config prompt retryCount)
                             (handleAttemptError config retryCount) w))
  = S (fetchCount w).
Proof.
unfold try_catch, attemptRequest, handleAttemptError, bind, doFetch,
  RateLimitManager.recordRequest, getRateLimitInfo, setRateLimitInfo, sleep,
  ret, throw.
cbn. repeat (case_match; cbn in *; simplify_eq); reflexivity.
Qed.

Lemma callLLMWithRetry_rec_requests (fuel : nat) (model prompt : string)
    (retryCount : Z) (w w' : World) (out : Outcome string) :
  callLLMWithRetry_rec rt config fuel model prompt retryCount w = (out, w') ->
  (fetchCount w <= fetchCount w'
   <= fetchCount w + Z.to_nat (maxRetries config - retryCount) + 1)%nat.
Proof.
revert retryCount w.
induction fuel as [|fuel IH]; intros retryCount w;
  [cbn; intros [= <- <-]; lia|].
cbn [callLLMWithRetry_rec]. unfold bind at 1.
pose proof (checkRateLimits_fetchCount w) as Hcheck.
destruct (RateLimitManager.checkRateLimits w) as [[[]| |] w1]; cbn in Hcheck;
  try (intros [= <- <-]; lia).
unfold bind.
pose proof (attempt_fetchCount prompt retryCount w1) as Hatt.
pose proof (attempt_outcome rt config prompt retryCount w1) as [_ Hretry].
cbn zeta in Hretry.
destruct (try_catch _ _ w1) as [[[content|]| |] w2]; cbn in Hatt, Hretry;
  try (intros [= <- <-]; lia).
specialize (Hretry eq_refl). intros Hrec.
specialize (IH (retryCount + 1)%Z w2 Hrec). lia.
Qed.

End retry_budget.


Section failing_service.

Variable rt : Runtime.
Variable config : Config.

Hypothesis never_ok :
  forall n prompt,
    match fetch rt n prompt with
    | FetchThrows _ => True
    | FetchResponds r => response_ok r = false
    end.

(** Off the free tier, a failed attempt that has retries left sleeps its
    backoff delay and asks for a retry; without retries left it throws. *)
Lemma failed_attempt (prompt : string) (retryCount : Z) (w : World) :
  let w1 := mkWorld (clock w) (slept w) (fetchCount w) (iterations w)
              (RateLimitManager.rollWindows (clock w) (rateLimitInfo w)) in
  let r := try_catch (attemptRequest rt config prompt retryCount)
                     (handleAttemptError config retryCount) w1 in
  fetchCount (snd r) = S (fetchCount w)
  /\ isFreeTier (rateLimitInfo (snd r)) = isFreeTier (rateLimitInfo w)
  /\ if (retryCount <? maxRetries config)%Z
     then fst r = Returned Retry
          /\ slept (snd r) = slept w ++ [backoffDelay config retryCount]
     else (exists e, fst r = Thrown e) /\ slept (snd r) = slept w.
Proof.
cbn zeta.
unfold try_catch, attemptRequest, handleAttemptError, bind, doFetch,
  RateLimitManager.recordRequest, getRateLimitInfo, setRateLimitInfo, sleep,
  ret, throw.
cbn. specialize (never_ok (fetchCount w) prompt).
destruct (fetch rt (fetchCount w) prompt) as [why|response]; cbn.
- destruct (retryCount <? maxRetries config)%Z; cbn;
    rewrite rollWindows_isFreeTier; repeat split; eauto.
- rewrite never_ok. cbn.
  destruct (retryCount <? maxRetries config)%Z eqn:Hrc;
    destruct (status response =? 429); destruct (status response =? 402);
    cbn; rewrite rollWindows_isFreeTier; repeat split; eauto.
Qed.

Lemma failing_service_rec (fuel : nat) (model prompt : string)
    (retryCount : Z) (w : World) :
  isFreeTier (rateLimitInfo w) = false ->
  (retryCount <= maxRetries config)%Z ->
  (Z.to_nat (maxRetries config - retryCount) < fuel)%nat ->
  exists e w',
    callLLMWithRetry_rec rt config fuel model prompt retryCount w
      = (Thrown e, w')
    /\ fetchCount w'
       = (fetchCount w + Z.to_nat (maxRetries config - retryCount) + 1)%nat
    /\ slept w' = slept w ++ retryDelays config retryCount.
Proof.
revert retryCount w.
induction fuel as [|fuel IH]; intros retryCount w Hpaid Hrc Hfuel; [lia|].
cbn [callLLMWithRetry_rec]. unfold bind at 1.
rewrite (checkRateLimits_paid w Hpaid). unfold bind.
pose proof (failed_attempt prompt retryCount w) as (Hcount & Htier & Hres).
cbn zeta in Hcount, Htier, Hres.
destruct (try_catch _ _ _) as [out w2]; cbn in Hcount, Htier, Hres.
unfold retryDelays.
destruct (retryCount <? maxRetries config)%Z eqn:Hlt.
- apply Z.ltb_lt in Hlt. destruct Hres as [-> Hslept].
  destruct (IH (retryCount + 1)%Z w2) as (e & w' & -> & Hc & Hs);
    [congruence | lia | lia |].
  exists e, w'. split; [reflexivity|]. split; [lia|].
  rewrite Hs, Hslept, <- app_assoc. f_equal. unfold retryDelays.
  replace (Z.to_nat (maxRetries config - retryCount))
    with (S (Z.to_nat (maxRetries config - (retryCount + 1)))) by lia.
  cbn [seq map]. rewrite Z.add_0_r. f_equal.
  rewrite <- seq_shift, map_map. apply map_ext. intros k.
  f_equal. lia.
- apply Z.ltb_ge in Hlt. destruct Hres as [[e ->] Hslept].
  exists e, w2. split; [reflexivity|].
  replace (Z.to_nat (maxRetries config - retryCount)) with 0%nat by lia.
  cbn. rewrite app_nil_r. split; [lia | exact Hslept].
Qed.

End failing_service.

(** X7. Against a service that never answers with success (every request
    throws or gets a non-2xx status), and off the free tier, a call with a
    budget of [maxRetries >= 0] sends exactly [maxRetries + 1] requests,
    sleeps [baseDelay * 2^k] before retry [k + 1] (k = 0 .. maxRetries - 1),
    and then throws. *)
Theorem failing_service_exhausts_retries (rt : Runtime) (config : Config)
    (model prompt : string) (w : World) :
  (forall n p,
     match fetch rt n p with
     | FetchThrows _ => True
     | FetchResponds r => response_ok r = false
     end) ->
  isFreeTier (rateLimitInfo w) = false ->
  (0 <= maxRetries config)%Z ->
  exists e w',
    callLLMWithRetry rt config model prompt 0 w = (Thrown e, w')
    /\ fetchCount w' = (fetchCount w + Z.to_nat (maxRetries config) + 1)%nat
    /\ slept w'
       = slept w
         ++ map (fun k => (baseDelay config * 2 ^ Z.of_nat k)%Z)
                (seq 0 (Z.to_nat (maxRetries config))).
Proof.
intros Hnever Hpaid Hmax.
destruct (failing_service_rec rt config Hnever
            (S (Z.to_nat (maxRetries config - 0))) model prompt 0 w
            Hpaid Hmax ltac:(lia))
  as (e & w' & Hcall & Hcount & Hslept).
exists e, w'. split; [exact Hcall|].
rewrite Z.sub_0_r in *. split; [exact Hcount|].
rewrite Hslept. unfold retryDelays, backoffDelay. rewrite Z.sub_0_r.
f_equal.
Qed.

Lemma failing_service_exhausts_retries_witness :
  exists e w',
    callLLMWithRetry rt_down default_config "model" "prompt" 0 paid_world
      = (Thrown e, w')
    /\ fetchCount w' = 4%nat
    /\ slept w' = [500; 1000; 2000]%Z.
Proof.
destruct (failing_service_exhausts_retries rt_down default_config
            "model" "prompt" paid_world)
  as (e & w' & Hcall & Hcount & Hslept);
  [intros; exact I | reflexivity | cbn; lia |].
exists e, w'. repeat split; assumption.
Defined.

(** ** More on the classification of a batch *)

Lemma attachClassification_absent (answer : list Classification)
    (commit : EnrichedCommit) :
  Forall (fun c => cl_hash c <> enriched_hash commit) answer ->
  attachClassification answer commit = unclassified commit.
Proof.
intros Habs. unfold attachClassification.
destruct (List.find _ answer) as [c|] eqn:Hfind; [|reflexivity].
apply find_some in Hfind as [Hin Heq].
apply String.eqb_eq in Heq.
rewrite Forall_forall in Habs. apply list_elem_of_In in Hin.
destruct (Habs c Hin Heq).
Qed.

(** X8. [classifyCommitsBatch] never throws, whatever the rate limiter, the
    service and the parser do: it returns one result per commit, in the
    order of the batch, each with the hash, message and diff of its commit.
    The results are all unclassified, or they come from one parsed answer;
    a commit whose hash no entry of the answer carries is returned
    unclassified. *)
Theorem classifyCommitsBatch_total (rt : Runtime) (config : Config)
    (commits : list EnrichedCommit) (w : World) :
  exists results w',
    classifyCommitsBatch rt config commits w = (Returned results, w')
    /\ length results = length commits
    /\ map (fun r => (hash r, message r, diff r)) results
       = map (fun c => (enriched_hash c, enriched_message c, enriched_diff c))
             commits
    /\ (results = map unclassified commits
        \/ exists content answer,
             parseClassifications rt content = Some answer
             /\ results = map (attachClassification answer) commits
             /\ forall k commit,
                  commits !! k = Some commit ->
                  Forall (fun c => cl_hash c <> enriched_hash commit) answer ->
                  results !! k = Some (unclassified commit)).
Proof.
unfold classifyCommitsBatch, try_catch, bind.
pose proof (callLLMWithRetry_terminates rt config (classificationModel config)
              (createClassificationPrompt rt commits) w) as Hterm.
destruct (callLLMWithRetry _ _ _ _ _ w) as [[content|e|] w1]; cbn in *;
  [| |congruence].
- destruct (parseClassifications rt content) as [answer|] eqn:Hparse; cbn.
  + do 2 eexists. split; [reflexivity|].
    split; [apply length_map|]. split.
    * rewrite map_map. apply map_ext. intros c.
      unfold attachClassification. destruct (List.find _ _); reflexivity.
    * right. exists content, answer. repeat split; [exact Hparse|].
      intros k commit Hk Habs.
      rewrite list_lookup_fmap, Hk. cbn.
      rewrite attachClassification_absent by exact Habs. reflexivity.
  + do 2 eexists. split; [reflexivity|]. split; [apply length_map|].
    split; [rewrite map_map; reflexivity | left; reflexivity].
- do 2 eexists. split; [reflexivity|]. split; [apply length_map|].
  split; [rewrite map_map; reflexivity | left; reflexivity].
Qed.

(** X9. With a minimum batch size of 1 and valid controller parameters the
    batch engine terminates for every list of commits, whatever the
    tokenizer and the service do (also when every estimate is oversized),
    and the hashes of its output are a subsequence of the commits' hashes. *)
Theorem batch_engine_terminates_at_min_one (rt : Runtime) (config : Config)
    (commits : list EnrichedCommit) (w : World) :
  BatchManager.valid_params config ->
  minBatchSize config = 1 ->
  exists fuel results w',
    processCommitsInAdaptiveBatches rt config fuel commits w
      = (Returned results, w')
    /\ sublist (map hash results) (map enriched_hash commits).
Proof. apply processCommits_terminates_at_min_one. Qed.

Lemma batch_engine_terminates_at_min_one_witness :
  exists fuel results w',
    processCommitsInAdaptiveBatches rt_overflow config_min_one fuel
      two_commits fresh_world = (Returned results, w')
    /\ sublist (map hash results) (map enriched_hash two_commits).
Proof.
apply (batch_engine_terminates_at_min_one rt_overflow config_min_one
         two_commits fresh_world).
- unfold BatchManager.valid_params; cbn. repeat split; try lia; reflexivity.
- reflexivity.
Defined.

(** ** More on the batch controller *)

(** X10. The size moves only in the direction of the outcome. From a size of
    at least [minBatchSize] and with [decayFactor <= 1], an overflow or a
    failure never enlarges the size and a success never shrinks it; with
    [decayFactor < 1] an overflow, and any failure, shrinks a positive size
    strictly unless it lands on [minBatchSize]. *)
Theorem size_moves_with_outcome (config : Config) (bm : BatchManager.t) :
  minBatchSize config <= BatchManager.currentBatchSize bm ->
  (decayFactor config <= 1)%Q ->
  let size := BatchManager.currentBatchSize bm in
  let after s o :=
    BatchManager.currentBatchSize (BatchManager.adjustBatchSize config bm s o) in
  (forall s, after s true <= size)
  /\ after false false <= size
  /\ size <= after true false
  /\ (0 < size ->
      after false false < size \/ after false false = minBatchSize config)
  /\ (0 < size -> (decayFactor config < 1)%Q ->
      forall s, after s true < size \/ after s true = minBatchSize config).
Proof.
intros Hmin Hd. cbn zeta.
pose proof (floor_mul_le (BatchManager.currentBatchSize bm) _ Hd) as Hdecay.
pose proof (floor_mul_le (BatchManager.currentBatchSize bm) _
              (decayRate_le_1 config (BatchManager.consecutiveFailures bm + 1)))
  as Hfail.
pose proof (decayRate_lt_1 config (BatchManager.consecutiveFailures bm + 1))
  as Hrate.
unfold BatchManager.adjustBatchSize.
repeat split.
- intros s. destruct s; cbn [BatchManager.currentBatchSize]; lia.
- cbn [BatchManager.currentBatchSize]. lia.
- destruct (_ && _); cbn [BatchManager.currentBatchSize]; [|lia].
  destruct (_ <? N.min _ _) eqn:Hgrow; cbn [BatchManager.currentBatchSize];
    [|lia].
  apply N.ltb_lt in Hgrow. lia.
- intros Hpos. cbn [BatchManager.currentBatchSize].
  pose proof (floor_mul_lt (BatchManager.currentBatchSize bm) _ Hpos Hrate).
  lia.
- intros Hpos Hlt s.
  pose proof (floor_mul_lt (BatchManager.currentBatchSize bm) _ Hpos Hlt).
  destruct s; cbn [BatchManager.currentBatchSize]; lia.
Qed.

Lemma size_moves_with_outcome_witness :
  BatchManager.currentBatchSize
    (BatchManager.adjustBatchSize default_config
       (BatchManager.new default_config) false false) <= 16.
Proof.
destruct (size_moves_with_outcome default_config
            (BatchManager.new default_config))
  as (_ & H & _); [cbn; lia | vm_compute; discriminate | exact H].
Defined.

Lemma successes_below_threshold (config : Config) (n : nat)
    (bm : BatchManager.t) :
  BatchManager.consecutiveSuccesses bm + N.of_nat n < successThreshold config ->
  successes config n bm
  = BatchManager.mk (BatchManager.currentBatchSize bm)
      (BatchManager.consecutiveSuccesses bm + N.of_nat n) 0
      (BatchManager.contextOverflowCount bm)
  \/ (n = 0%nat /\ successes config n bm = bm).
Proof.
induction n as [|n IH]; intros Hlt; [right; split; reflexivity|].
left. specialize (IH ltac:(lia)).
change (successes config (S n) bm)
  with (BatchManager.adjustBatchSize config (successes config n bm) true false).
assert (Hstep : forall b,
          BatchManager.consecutiveSuccesses b + 1 < successThreshold config ->
          BatchManager.adjustBatchSize config b true false
          = BatchManager.mk (BatchManager.currentBatchSize b)
              (BatchManager.consecutiveSuccesses b + 1) 0
              (BatchManager.contextOverflowCount b)).
{ intros b Hb. unfold BatchManager.adjustBatchSize.
  replace (successThreshold config <=? _) with false
    by (symmetry; apply N.leb_gt; lia).
  reflexivity. }
destruct IH as [-> | [-> ->]]; rewrite Hstep; cbn; try lia; f_equal; lia.
Qed.

(** X11. After a failure or an overflow the size cannot grow before
    [successThreshold] successes in a row: fewer successes leave the size
    where the failure put it. *)
Theorem growth_needs_threshold_after_failure (config : Config)
    (bm : BatchManager.t) (success overflow : bool) (n : nat) :
  success && negb overflow = false ->
  N.of_nat n < successThreshold config ->
  BatchManager.currentBatchSize
    (successes config n
       (BatchManager.adjustBatchSize config bm success overflow))
  = BatchManager.currentBatchSize
      (BatchManager.adjustBatchSize config bm success overflow).
Proof.
intros Hfail Hn.
set (bm' := BatchManager.adjustBatchSize config bm success overflow).
assert (Hzero : BatchManager.consecutiveSuccesses bm' = 0).
{ subst bm'. destruct overflow; [reflexivity|].
  destruct success; [discriminate | reflexivity]. }
destruct (successes_below_threshold config n bm') as [-> | [_ ->]];
  [rewrite Hzero; lia | reflexivity | reflexivity].
Qed.

Lemma growth_needs_threshold_after_failure_witness :
  BatchManager.currentBatchSize
    (successes default_config 1
       (BatchManager.adjustBatchSize default_config
          (BatchManager.new default_config) false true)) = 9.
Proof.
rewrite (growth_needs_threshold_after_failure default_config
           (BatchManager.new default_config) false true 1);
  [reflexivity | reflexivity | cbn; lia].
Defined.

(** ** The fallback token estimate *)

Lemma fallback_estimate_eq (rt : Runtime) (text : string) :
  tiktoken rt text = None ->
  Z.of_N (estimateTokensAccurately rt text)
  = (- ((- (Z.of_nat (String.length text) * 10)) / 35))%Z.
Proof.
intros Hnone. unfold estimateTokensAccurately. rewrite Hnone.
assert (Hc : Qceiling (inject_Z (Z.of_nat (String.length text)) / (35 # 10))
             = (- ((- (Z.of_nat (String.length text) * 10)) / 35))%Z)
  by reflexivity.
rewrite Hc.
pose proof (Z.div_mod (- (Z.of_nat (String.length text) * 10)) 35 ltac:(lia)).
pose proof (Z.mod_pos_bound (- (Z.of_nat (String.length text) * 10)) 35
              ltac:(lia)).
lia.
Qed.

(** X12. When the tokenizer is unavailable the estimate is the text length
    divided by 3.5 and rounded up: [2 * length <= 7 * estimate
    < 2 * length + 7]. So it is never below [length / 3.5], it is 0 only for
    the empty text, and it is monotonic in the length of the text. *)
Theorem fallback_estimate_bounds (rt : Runtime) (text text' : string) :
  tiktoken rt text = None ->
  let estimate := estimateTokensAccurately rt text in
  let len := N.of_nat (String.length text) in
  2 * len <= 7 * estimate
  /\ 7 * estimate < 2 * len + 7
  /\ (estimate = 0 <-> text = "")
  /\ (tiktoken rt text' = None ->
      (String.length text <= String.length text')%nat ->
      estimate <= estimateTokensAccurately rt text').
Proof.
intros Hnone. cbn zeta.
pose proof (fallback_estimate_eq rt text Hnone) as Heq.
pose proof (Z.div_mod (- (Z.of_nat (String.length text) * 10)) 35 ltac:(lia))
  as Hdm.
pose proof (Z.mod_pos_bound (- (Z.of_nat (String.length text) * 10)) 35
              ltac:(lia)) as Hmod.
assert (H1 : 2 * N.of_nat (String.length text)
             <= 7 * estimateTokensAccurately rt text) by lia.
assert (H2 : 7 * estimateTokensAccurately rt text
             < 2 * N.of_nat (String.length text) + 7) by lia.
repeat split; try assumption.
- intros Hzero. destruct text; [reflexivity|]. cbn [String.length] in H1. lia.
- intros ->. cbn [String.length] in H2. lia.
- intros Hnone' Hlen.
  pose proof (fallback_estimate_eq rt text' Hnone') as Heq'.
  pose proof (Z.div_mod (- (Z.of_nat (String.length text') * 10)) 35
                ltac:(lia)) as Hdm'.
  pose proof (Z.mod_pos_bound (- (Z.of_nat (String.length text') * 10)) 35
                ltac:(lia)) as Hmod'.
  lia.
Qed.

Lemma fallback_estimate_bounds_witness :
  estimateTokensAccurately
    (mkRuntime (fun _ _ => FetchThrows "") (fun _ => None) (fun _ => "")
               (fun _ => None) (fun _ => false) None)
    "feat: add new login button" = 8
  /\ 2 * 26 <= 7 * 8.
Proof.
split; [reflexivity|].
destruct (fallback_estimate_bounds
            (mkRuntime (fun _ _ => FetchThrows "") (fun _ => None)
                       (fun _ => "") (fun _ => None) (fun _ => false) None)
            "feat: add new login button" "" eq_refl) as [H _].
exact H.
Defined.

(** ** More on rule application *)

Lemma applyFirstMatch_app {E : RegExpEngine} (commit : RawCommit)
    (result : ClassifiedCommit) (rules1 rules2 : list (TransformRule E)) :
  applyFirstMatch E commit result (rules1 ++ rules2)
  = if existsb (rule_matches E commit) rules1
    then applyFirstMatch E commit result rules1
    else applyFirstMatch E commit result rules2.
Proof.
induction rules1 as [|rule rest IH]; cbn; [reflexivity|].
destruct (rule_matches E commit rule); [reflexivity | exact IH].
Qed.

(** X13. Earlier rules shadow later ones: with two rule lists put one after
    the other, a commit that some rule of the first list matches is
    rewritten exactly as by the first list alone, and a commit that no rule
    of the first list matches exactly as by the second list alone. *)
Theorem earlier_rules_take_priority (E : RegExpEngine)
    (commits : list RawCommit) (rules1 rules2 : list (TransformRule E)) :
  applyTransformRules E commits (rules1 ++ rules2)
  = map (fun commit =>
           if existsb (rule_matches E commit) rules1
           then applyFirstMatch E commit (blankResult commit) rules1
           else applyFirstMatch E commit (blankResult commit) rules2)
        commits
  /\ (Forall (fun commit => existsb (rule_matches E commit) rules1 = true)
             commits ->
      applyTransformRules E commits (rules1 ++ rules2)
      = applyTransformRules E commits rules1)
  /\ (Forall (fun commit => existsb (rule_matches E commit) rules1 = false)
             commits ->
      applyTransformRules E commits (rules1 ++ rules2)
      = applyTransformRules E commits rules2).
Proof.
unfold applyTransformRules. repeat split.
- apply map_ext. intros commit. apply applyFirstMatch_app.
- intros Hall. apply map_ext_in. intros commit Hin.
  rewrite Forall_forall in Hall. apply list_elem_of_In in Hin.
  rewrite applyFirstMatch_app, (Hall commit Hin). reflexivity.
- intros Hnone. apply map_ext_in. intros commit Hin.
  rewrite Forall_forall in Hnone. apply list_elem_of_In in Hin.
  rewrite applyFirstMatch_app, (Hnone commit Hin). reflexivity.
Qed.

(** ** Parsing the commit log *)

Section parse_facts.

Variable trim : string -> string.

Lemma parseCommitEntries_length_le (n : nat) (entries : list string) :
  (length entries <= n)%nat ->
  (2 * length (parseCommitEntries trim entries) <= length entries)%nat.
Proof.
revert entries. induction n as [|n IH]; intros [|hash [|message rest]] Hn;
  cbn in *; try lia.
rewrite length_app. specialize (IH rest ltac:(lia)).
destruct (truthy hash && truthy message); cbn; lia.
Qed.

Lemma parseCommitEntries_log (commits : list RawCommit) (tail : list string) :
  (length tail <= 1)%nat ->
  parseCommitEntries trim (logEntriesOf commits ++ tail)
  = map (fun c => mkRaw (trim (raw_hash c)) (trim (raw_message c)))
        (List.filter (fun c => truthy (raw_hash c) && truthy (raw_message c))
                     commits).
Proof.
intros Htail. unfold logEntriesOf.
induction commits as [|c commits IH]; cbn.
- destruct tail as [|x [|y tail]]; cbn in *; try reflexivity; lia.
- rewrite IH. destruct (truthy (raw_hash c) && truthy (raw_message c));
    reflexivity.
Qed.

End parse_facts.

(** X14. [parseCommitEntries] reads the log entries in pairs (hash, message):
    for the entries of a list of commits it returns the commits, trimmed and
    in order, leaving out those whose hash or message is empty; a last entry
    without a partner is ignored; and in general it returns at most one
    commit per two entries. *)
Theorem parseCommitEntries_pairs (trim : string -> string)
    (commits : list RawCommit) (entries : list string) (orphan : string) :
  let kept :=
    map (fun c => mkRaw (trim (raw_hash c)) (trim (raw_message c)))
        (List.filter (fun c => truthy (raw_hash c) && truthy (raw_message c))
                     commits) in
  parseCommitEntries trim (logEntriesOf commits) = kept
  /\ parseCommitEntries trim (logEntriesOf commits ++ [orphan]) = kept
  /\ (2 * length (parseCommitEntries trim entries) <= length entries)%nat.
Proof.
cbn zeta. repeat split.
- rewrite <- (app_nil_r (logEntriesOf commits)).
  apply parseCommitEntries_log. cbn; lia.
- apply parseCommitEntries_log. cbn; lia.
- apply (parseCommitEntries_length_le trim (length entries)). lia.
Qed.

(** ** Path helpers *)

Lemma str_take_drop (n : nat) (s : string) :
  (str_take n s ++ str_drop n s)%string = s.
Proof.
revert s. induction n as [|n IH]; intros [|a s]; try reflexivity.
cbn [str_take str_drop].
change (String a (str_take n s ++ str_drop n s)%string = String a s).
rewrite IH. reflexivity.
Qed.

Lemma str_append_nil_r (s : string) : (s ++ "")%string = s.
Proof.
induction s as [|a s IH]; [reflexivity|].
change (String a (s ++ "")%string = String a s). rewrite IH. reflexivity.
Qed.

Lemma lastIndexOf_drop_None (c : ascii) (s : string) (n : nat) :
  lastIndexOf c s = None -> lastIndexOf c (str_drop n s) = None.
Proof.
revert s. induction n as [|n IH]; intros [|a s]; cbn; try (intros; assumption).
destruct (lastIndexOf c s) eqn:Hs; [discriminate|].
intros _. apply IH, Hs.
Qed.

(** After the last occurrence of a character there is none, and the string
    from that index on starts with the character. *)
Lemma lastIndexOf_Some (c : ascii) (s : string) (k : nat) :
  lastIndexOf c s = Some k ->
  str_drop k s = String c (str_drop (S k) s)
  /\ forall n, (k <= n)%nat -> lastIndexOf c (str_drop (S n) s) = None.
Proof.
revert k. induction s as [|a s IH]; intros k; cbn; [discriminate|].
destruct (lastIndexOf c s) as [j|] eqn:Hs.
- intros [= <-]. destruct (IH j eq_refl) as [Hd Hn]. split.
  + cbn. exact Hd.
  + intros [|n] Hle; [lia|]. cbn. apply Hn. lia.
- destruct (Ascii.eqb a c) eqn:Hac; [|discriminate].
  intros [= <-]. apply Ascii.eqb_eq in Hac. subst a. split.
  + reflexivity.
  + intros n _. cbn. apply lastIndexOf_drop_None, Hs.
Qed.

Lemma lastSlash_Some (filePath : string) (k : nat) :
  lastSlash filePath = Some k ->
  (exists sep, (sep = "/"%char \/ sep = "\"%char)
               /\ str_drop k filePath = String sep (str_drop (S k) filePath))
  /\ lastSlash (str_drop (S k) filePath) = None.
Proof.
unfold lastSlash.
destruct (lastIndexOf "/"%char filePath) as [a|] eqn:Ha;
  destruct (lastIndexOf "\"%char filePath) as [b|] eqn:Hb;
  cbn [maxIndex]; try discriminate; intros [= <-].
- destruct (lastIndexOf_Some _ _ _ Ha) as [Hda Hna].
  destruct (lastIndexOf_Some _ _ _ Hb) as [Hdb Hnb].
  split.
  + destruct (Nat.max_spec a b) as [[_ ->] | [_ ->]]; eauto.
  + rewrite Hna, Hnb by lia. reflexivity.
- destruct (lastIndexOf_Some _ _ _ Ha) as [Hda Hna]. split; [eauto|].
  rewrite Hna by lia. rewrite lastIndexOf_drop_None by exact Hb. reflexivity.
- destruct (lastIndexOf_Some _ _ _ Hb) as [Hdb Hnb]. split; [eauto|].
  rewrite Hnb by lia. rewrite lastIndexOf_drop_None by exact Ha. reflexivity.
Qed.

(** X15. A path splits at its last separator and nothing is lost: when the
    path has a slash or a backslash, the directory part, that separator and
    the file name put together give the path back; without a separator the
    file name is the path and the directory is ".". The file name never
    contains a separator. *)
Theorem path_splits_at_last_separator (filePath : string) :
  lastSlash (getFileName filePath) = None
  /\ match lastSlash filePath with
     | None => getFileName filePath = filePath
               /\ getDirectoryPath filePath = "."
     | Some _ =>
         exists sep,
           (sep = "/"%char \/ sep = "\"%char)
           /\ (getDirectoryPath filePath ++ String sep (getFileName filePath))
                %string = filePath
     end.
Proof.
unfold getFileName, getDirectoryPath.
destruct (lastSlash filePath) as [k|] eqn:Hk.
- destruct (lastSlash_Some _ _ Hk) as [(sep & Hsep & Hdrop) Hnone].
  rewrite Nat.add_1_r. split; [exact Hnone|].
  exists sep. split; [exact Hsep|].
  rewrite <- Hdrop. apply str_take_drop.
- split; [exact Hk | split; reflexivity].
Qed.

(** X16. A file name is its name without extension followed by its
    extension. The extension of a path is empty exactly when the path has no
    dot; otherwise it is a dot followed by a dot-free rest, and taking the
    extension twice changes nothing. *)
Theorem file_name_is_stem_plus_extension (filePath : string) :
  (getFileNameWithoutExtension filePath
   ++ getFileExtension (getFileName filePath))%string = getFileName filePath
  /\ match lastIndexOf "."%char filePath with
     | None => getFileExtension filePath = ""
     | Some _ =>
         exists rest,
           getFileExtension filePath = String "."%char rest
           /\ lastIndexOf "."%char rest = None
     end
  /\ getFileExtension (getFileExtension filePath) = getFileExtension filePath.
Proof.
unfold getFileNameWithoutExtension, getFileExtension.
split; [|split].
- destruct (lastIndexOf "."%char (getFileName filePath)) as [k|];
    [apply str_take_drop | apply str_append_nil_r].
- destruct (lastIndexOf "."%char filePath) as [k|] eqn:Hk; [|reflexivity].
  destruct (lastIndexOf_Some _ _ _ Hk) as [Hd Hn].
  eexists. split; [exact Hd|]. apply Hn. lia.
- destruct (lastIndexOf "."%char filePath) as [k|] eqn:Hk; [|reflexivity].
  destruct (lastIndexOf_Some _ _ _ Hk) as [Hd Hn].
  rewrite Hd. cbn [lastIndexOf]. rewrite (Hn k) by lia. reflexivity.
Qed.

(** ** Retrying with backoff *)

Section retry_facts.

Context {E A : Type}.

Variable fn : nat -> E + A.
Variable maxRetries : Z.
Variables baseDelay backoffFactor maxDelay : Q.

Local Abbreviation delayAt := (retryDelay baseDelay backoffFactor maxDelay).
Local Abbreviation delaysFrom := (delaysFrom baseDelay backoffFactor maxDelay).

Lemma delaysFrom_S (attempt : Z) (n : nat) :
  delaysFrom attempt (S n) = delayAt attempt :: delaysFrom (attempt + 1) n.
Proof.
unfold delaysFrom. cbn [seq map]. rewrite Z.add_0_r. f_equal.
rewrite <- seq_shift, map_map. apply map_ext. intros k. f_equal. lia.
Qed.

(** [n] failures, then a success: the value comes back after [n + 1] calls
    and [n] sleeps. *)
Lemma retryLoop_success (n : nat) :
  forall (fuel : nat) (attempt : Z) (lastError : option E) (calls : nat)
         (delays : list Q) (a : A),
    (forall j, (j < n)%nat -> exists e, fn (calls + j) = inl e) ->
    fn (calls + n) = inr a ->
    (attempt + Z.of_nat n <= maxRetries)%Z ->
    (n < fuel)%nat ->
    retryLoop fn maxRetries baseDelay backoffFactor maxDelay fuel attempt
              lastError calls delays
    = mkRetryRun (RetryReturned a) (calls + n + 1)
                 (delays ++ delaysFrom attempt n).
Proof.
induction n as [|n IH]; intros fuel attempt lastError calls delays a
  Hfail Hok Hle Hfuel; (destruct fuel as [|fuel]; [lia|]);
  cbn [retryLoop];
  (replace (attempt <=? maxRetries)%Z with true
     by (symmetry; apply Z.leb_le; lia)).
- rewrite Nat.add_0_r in Hok. rewrite Hok.
  unfold delaysFrom. cbn. rewrite app_nil_r. f_equal. lia.
- destruct (Hfail 0%nat ltac:(lia)) as [e He].
  rewrite Nat.add_0_r in He. rewrite He.
  replace (attempt =? maxRetries)%Z with false
    by (symmetry; apply Z.eqb_neq; lia).
  rewrite (IH fuel (attempt + 1)%Z (Some e) (S calls) _ a).
  + rewrite delaysFrom_S, <- app_assoc. f_equal. lia.
  + intros j Hj. destruct (Hfail (S j) ltac:(lia)) as [e' He'].
    exists e'. rewrite <- He'. f_equal. lia.
  + rewrite <- Hok. f_equal. lia.
  + lia.
  + lia.
Qed.

(** Failures only: the last error is thrown after the whole budget. *)
Lemma retryLoop_exhausted (err : nat -> E) :
  (forall n, fn n = inl (err n)) ->
  forall (fuel : nat) (attempt : Z) (lastError : option E) (calls : nat)
         (delays : list Q),
    (attempt <= maxRetries)%Z ->
    (Z.to_nat (maxRetries - attempt) < fuel)%nat ->
    retryLoop fn maxRetries baseDelay backoffFactor maxDelay fuel attempt
              lastError calls delays
    = mkRetryRun (RetryThrown (err (calls + Z.to_nat (maxRetries - attempt))%nat))
                 (calls + Z.to_nat (maxRetries - attempt) + 1)
                 (delays ++ delaysFrom attempt
                              (Z.to_nat (maxRetries - attempt))).
Proof.
intros Hfail. induction fuel as [|fuel IH];
  intros attempt lastError calls delays Hle Hfuel; [lia|].
cbn [retryLoop].
replace (attempt <=? maxRetries)%Z with true
  by (symmetry; apply Z.leb_le; lia).
rewrite Hfail.
destruct (attempt =? maxRetries)%Z eqn:Heq.
- apply Z.eqb_eq in Heq. subst attempt. rewrite Z.sub_diag. cbn.
  unfold delaysFrom. cbn. rewrite app_nil_r, Nat.add_0_r.
  f_equal. lia.
- apply Z.eqb_neq in Heq.
  rewrite IH by lia.
  replace (Z.to_nat (maxRetries - attempt))
    with (S (Z.to_nat (maxRetries - (attempt + 1)))) by lia.
  rewrite delaysFrom_S, <- app_assoc. cbn [app].
  f_equal; [f_equal; f_equal; lia | lia].
Qed.

Lemma delaysFrom_capped (attempt : Z) (n : nat) :
  Forall (fun d => (d <= maxDelay)%Q) (delaysFrom attempt n).
Proof.
unfold delaysFrom. apply Forall_map, Forall_forall. intros k _.
apply Q.le_min_r.
Qed.

End retry_facts.





(** ** Running tasks in sequence *)

Section sequence_facts.

Context {E T : Type}.

(** Without [stopOnError] every task leaves its entry at its index. *)
Lemma sequenceFrom_entries (i0 : nat) (tasks : list (option (E + T))) :
  length (fst (sequenceFrom i0 tasks false)) = length tasks
  /\ forall i t,
       tasks !! i = Some t ->
       fst (sequenceFrom i0 tasks false) !! i
       = Some match t with
              | None => SeqUndefined (i0 + i)
              | Some (inr v) => SeqValue v
              | Some (inl e) => SeqError e
              end.
Proof.
revert i0. induction tasks as [|t rest IH]; intros i0.
- split; [reflexivity|]. intros i t H. rewrite lookup_nil in H. discriminate.
- destruct (IH (S i0)) as [Hlen Hat].
  assert (Hcons : fst (sequenceFrom i0 (t :: rest) false)
                  = match t with
                    | None => SeqUndefined i0
                    | Some (inr v) => SeqValue v
                    | Some (inl e) => SeqError e
                    end :: fst (sequenceFrom (S i0) rest false)).
  { cbn. destruct t as [[e|v]|];
      destruct (sequenceFrom (S i0) rest false); reflexivity. }
  rewrite Hcons. split; [cbn; lia|].
  intros [|i] t' H.
  + cbn in H. injection H as <-. rewrite Nat.add_0_r. reflexivity.
  + specialize (Hat i t' H).
    replace (i0 + S i)%nat with (S i0 + i)%nat by lia. exact Hat.
Qed.

(** Without [stopOnError] the calls of [onError] are the throwing tasks,
    each with its index, in index order. *)
Lemma sequenceFrom_calls (i0 : nat) (tasks : list (option (E + T))) :
  (forall e k,
     (e, k) ∈ snd (sequenceFrom i0 tasks false)
     <-> exists i, k = (i0 + i)%nat /\ tasks !! i = Some (Some (inl e)))
  /\ StronglySorted lt (map snd (snd (sequenceFrom i0 tasks false))).
Proof.
revert i0. induction tasks as [|t rest IH]; intros i0.
- split; [|constructor]. intros e k. cbn. split.
  + intros H. inversion H.
  + intros (i & _ & H). rewrite lookup_nil in H. discriminate.
- destruct (IH (S i0)) as [Hin Hsorted].
  assert (Hshift : forall e k,
            (exists i, k = (i0 + S i)%nat /\ rest !! i = Some (Some (inl e)))
            <-> (e, k) ∈ snd (sequenceFrom (S i0) rest false)).
  { intros e k. rewrite Hin. split; intros (i & -> & H); exists i;
      (split; [lia | exact H]). }
  destruct t as [[e0|v]|]; cbn;
    destruct (sequenceFrom (S i0) rest false) as [results calls] eqn:Hrec;
    cbn in *.
  + split.
    * intros e k. rewrite elem_of_cons, <- Hshift. split.
      -- intros [[= -> ->]|(i & -> & H)].
         ++ exists 0%nat. split; [lia | reflexivity].
         ++ exists (S i). split; [reflexivity | exact H].
      -- intros ([|i] & -> & H); cbn in H.
         ++ left. injection H as <-. f_equal. lia.
         ++ right. exists i. split; [reflexivity | exact H].
    * constructor; [exact Hsorted|].
      apply Forall_forall. intros k Hk.
      apply list_elem_of_fmap in Hk as ([e k'] & -> & Hk).
      apply Hin in Hk as (i & -> & _). cbn. lia.
  + split; [|exact Hsorted].
    intros e k. rewrite <- Hshift. split.
    * intros (i & -> & H). exists (S i). split; [reflexivity | exact H].
    * intros ([|i] & -> & H); cbn in H; [discriminate|].
      exists i. split; [reflexivity | exact H].
  + split; [|exact Hsorted].
    intros e k. rewrite <- Hshift. split.
    * intros (i & -> & H). exists (S i). split; [reflexivity | exact H].
    * intros ([|i] & -> & H); cbn in H; [discriminate|].
      exists i. split; [reflexivity | exact H].
Qed.

(** With [stopOnError] the run is the run without it, cut after the first
    throwing task; [onError] is called for that task only. *)
Lemma sequenceFrom_stopped (i0 : nat) (tasks : list (option (E + T))) :
  ((forall i e, tasks !! i <> Some (Some (inl e)))
   /\ sequenceFrom i0 tasks true = (fst (sequenceFrom i0 tasks false), []))
  \/ (exists k e,
        tasks !! k = Some (Some (inl e))
        /\ (forall i e', (i < k)%nat -> tasks !! i <> Some (Some (inl e')))
        /\ sequenceFrom i0 tasks true
           = (take (S k) (fst (sequenceFrom i0 tasks false)),
              [(e, (i0 + k)%nat)])).
Proof.
revert i0. induction tasks as [|t rest IH]; intros i0.
- left. split; [|reflexivity]. intros i e. rewrite lookup_nil. discriminate.
- destruct t as [[e0|v]|].
  + right. exists 0%nat, e0. split; [reflexivity|]. split; [intros; lia|].
    cbn. destruct (sequenceFrom (S i0) rest false). cbn.
    rewrite take_0, Nat.add_0_r. reflexivity.
  + destruct (IH (S i0)) as [[Hno Heq]|(k & e & Hk & Hbefore & Heq)].
    * left. split.
      -- intros [|i] e; cbn; [discriminate | apply Hno].
      -- cbn. rewrite Heq. destruct (sequenceFrom (S i0) rest false).
         reflexivity.
    * right. exists (S k), e. split; [exact Hk|]. split.
      -- intros [|i] e' Hi; cbn; [discriminate | apply Hbefore; lia].
      -- cbn. rewrite Heq. destruct (sequenceFrom (S i0) rest false). cbn.
         do 2 f_equal. f_equal. lia.
  + destruct (IH (S i0)) as [[Hno Heq]|(k & e & Hk & Hbefore & Heq)].
    * left. split.
      -- intros [|i] e; cbn; [discriminate | apply Hno].
      -- cbn. rewrite Heq. destruct (sequenceFrom (S i0) rest false).
         reflexivity.
    * right. exists (S k), e. split; [exact Hk|]. split.
      -- intros [|i] e' Hi; cbn; [discriminate | apply Hbefore; lia].
      -- cbn. rewrite Heq. destruct (sequenceFrom (S i0) rest false). cbn.
         do 2 f_equal. f_equal. lia.
Qed.

End sequence_facts.

(** X19. [sequence] without [stopOnError] runs every task and puts its
    outcome at its index in the results: the value of a task that returns,
    the error of a task that throws, and the error 'Task at index i is
    undefined' for an undefined entry; [onError] is called for the throwing
    tasks and only for them, each with its error and index, in index order.
    With [stopOnError] the results and the calls of [onError] are those of
    the run without it when no task throws; otherwise the results are cut
    after the entry of the first throwing task and [onError] is called once,
    for that task. An undefined entry never stops the sequence and is not
    reported to [onError]. *)
Theorem sequence_results {E T : Type} (tasks : list (option (E + T))) :
  let all := sequence tasks false in
  let stopped := sequence tasks true in
  length (fst all) = length tasks
  /\ (forall i, tasks !! i = Some None ->
                fst all !! i = Some (SeqUndefined i))
  /\ (forall i v, tasks !! i = Some (Some (inr v)) ->
                  fst all !! i = Some (SeqValue v))
  /\ (forall i e, tasks !! i = Some (Some (inl e)) ->
                  fst all !! i = Some (SeqError e))
  /\ (forall e i, (e, i) ∈ snd all <-> tasks !! i = Some (Some (inl e)))
  /\ StronglySorted lt (map snd (snd all))
  /\ (((forall i e, tasks !! i <> Some (Some (inl e)))
       /\ stopped = (fst all, []))
      \/ (exists k e,
            tasks !! k = Some (Some (inl e))
            /\ (forall i e', (i < k)%nat ->
                             tasks !! i <> Some (Some (inl e')))
            /\ stopped = (take (S k) (fst all), [(e, k)]))).
Proof.
cbn zeta. unfold sequence.
destruct (sequenceFrom_entries 0 tasks) as [Hlen Hat].
destruct (sequenceFrom_calls 0 tasks) as [Hcalls Hsorted].
split; [exact Hlen|].
split; [intros i H; apply (Hat i None H)|].
split; [intros i v H; apply (Hat i (Some (inr v)) H)|].
split; [intros i e H; apply (Hat i (Some (inl e)) H)|].
split.
{ intros e i. rewrite Hcalls. split.
  - intros (k & -> & H). exact H.
  - intros H. exists i. split; [reflexivity | exact H]. }
split; [exact Hsorted|].
destruct (sequenceFrom_stopped 0 tasks) as [H|(k & e & Hk & Hbefore & Heq)].
- left. exact H.
- right. exists k, e. split; [exact Hk|]. split; [exact Hbefore|].
  rewrite Heq. reflexivity.
Qed.

(** ** Validation *)

Lemma validateBatchSizes_iff (initial min max : Z) :
  isValid (validateBatchSizes initial min max) = true
  <-> (0 < min /\ min < max /\ min <= initial /\ initial <= max)%Z.
Proof.
unfold validateBatchSizes, isPositiveNumber. cbn [isValid].
destruct (0 <? initial)%Z eqn:H1; destruct (0 <? min)%Z eqn:H2;
  destruct (0 <? max)%Z eqn:H3; destruct (max <=? min)%Z eqn:H4;
  destruct (initial <? min)%Z eqn:H5; destruct (max <? initial)%Z eqn:H6;
  cbn;
  try apply Z.ltb_lt in H1; try apply Z.ltb_ge in H1;
  try apply Z.ltb_lt in H2; try apply Z.ltb_ge in H2;
  try apply Z.ltb_lt in H3; try apply Z.ltb_ge in H3;
  try apply Z.leb_le in H4; try apply Z.leb_gt in H4;
  try apply Z.ltb_lt in H5; try apply Z.ltb_ge in H5;
  try apply Z.ltb_lt in H6; try apply Z.ltb_ge in H6;
  split; intros; try discriminate; try lia; reflexivity.
Qed.

(** X20. [validateBatchSizes] accepts exactly the sizes with
    [0 < min < max] and [min <= initial <= max]: the positivity of [initial]
    and [max] follows, and [min = max] is rejected. *)
Theorem validateBatchSizes_accepts (initial min max : Z) :
  isValid (validateBatchSizes initial min max) = true
  <-> (0 < min /\ min < max /\ min <= initial /\ initial <= max)%Z.
Proof. apply validateBatchSizes_iff. Qed.

(** X21. Batch sizes accepted by [validateBatchSizes] keep the controller
    in range: with [decayFactor <= 1], and whatever the growth factor and
    the success threshold, after any sequence of outcomes the batch size is
    at least 1 and between [minBatchSize] and [maxBatchSize]. *)
Theorem validated_sizes_stay_in_range (config : Config)
    (os : list BatchManager.BatchOutcome) :
  isValid (validateBatchSizes (Z.of_N (initialBatchSize config))
                              (Z.of_N (minBatchSize config))
                              (Z.of_N (maxBatchSize config))) = true ->
  (decayFactor config <= 1)%Q ->
  1 <= BatchManager.currentBatchSize (BatchManager.run config os)
  /\ minBatchSize config
     <= BatchManager.currentBatchSize (BatchManager.run config os)
  /\ BatchManager.currentBatchSize (BatchManager.run config os)
     <= maxBatchSize config.
Proof.
intros Hvalid Hd. apply validateBatchSizes_iff in Hvalid.
assert (Hinit : BatchManager.in_bounds config (BatchManager.new config))
  by (split; cbn; lia).
assert (Hall : BatchManager.in_bounds config (BatchManager.run config os)).
{ unfold BatchManager.run. revert Hinit.
  generalize (BatchManager.new config) as bm.
  induction os as [|o os IH]; intros bm Hbm; [exact Hbm|].
  cbn. apply IH, adjustBatchSize_in_bounds; [lia | exact Hd | exact Hbm]. }
destruct Hall as [Hlo Hhi]. repeat split; [lia | exact Hlo | exact Hhi].
Qed.

Lemma validated_sizes_stay_in_range_witness :
  1 <= BatchManager.currentBatchSize
         (BatchManager.run default_config
            [BatchManager.outcome false false; BatchManager.outcome false true]).
Proof.
destruct (validated_sizes_stay_in_range default_config
            [BatchManager.outcome false false; BatchManager.outcome false true])
  as [H _]; [reflexivity | discriminate | exact H].
Defined.

Lemma length_zero_iff_nil {A} (l : list A) :
  Nat.eqb (length l) 0 = true <-> l = [].
Proof. destruct l; cbn; split; intros; try discriminate; reflexivity. Qed.

(** X22. [combineValidationResults] lists all errors in order, and it is
    valid exactly when no result carries an error message, whatever the
    [isValid] flags of the results say. The flags only decide whose data is
    kept: the combined data is the list, in order, of the data of exactly
    those results that are flagged valid and have data. The warnings are
    those of all results in order, and the field is left undefined when
    there are none. *)
Theorem combineValidationResults_valid {T : Type}
    (results : list (ValidationResult.t T)) :
  let combined := ValidationResult.combineValidationResults results in
  ValidationResult.errors combined
  = concat (map ValidationResult.errors results)
  /\ (ValidationResult.isValid combined = true
      <-> Forall (fun r => ValidationResult.errors r = []) results)
  /\ ValidationResult.data combined
     = Some (omap (fun r => if ValidationResult.isValid r
                            then ValidationResult.data r else None) results)
  /\ (forall r d, r ∈ results ->
        ValidationResult.isValid r = true ->
        ValidationResult.data r = Some d ->
        exists kept, ValidationResult.data combined = Some kept /\ d ∈ kept)
  /\ default [] (ValidationResult.warnings combined)
     = concat (map (fun r => default [] (ValidationResult.warnings r)) results)
  /\ ValidationResult.warnings combined <> Some [].
Proof.
cbn zeta. unfold ValidationResult.combineValidationResults. cbn.
assert (Hdata : ValidationResult.validData results
                = omap (fun r => if ValidationResult.isValid r
                                 then ValidationResult.data r else None)
                       results).
{ unfold ValidationResult.validData.
  induction results as [|r rest IH]; cbn; [reflexivity|].
  rewrite IH.
  destruct (ValidationResult.data r), (ValidationResult.isValid r);
    reflexivity. }
split; [apply flat_map_concat_map|]. split.
{ clear Hdata. rewrite length_zero_iff_nil.
  unfold ValidationResult.allErrors.
  induction results as [|r rest IH]; cbn.
  + split; [constructor | reflexivity].
  + split.
    * intros Hnil. apply app_eq_nil in Hnil as [Hr Hrest].
      constructor; [exact Hr | apply IH, Hrest].
    * intros Hall. inversion Hall as [|? ? Hr Hrest]; subst.
      rewrite Hr. cbn. apply IH, Hrest. }
split; [rewrite Hdata; reflexivity|]. split.
{ intros r d Hr Hvalid Hd. eexists. split; [reflexivity|].
  rewrite Hdata. apply list_elem_of_omap. exists r.
  split; [exact Hr|]. rewrite Hvalid. exact Hd. }
unfold ValidationResult.allWarnings.
rewrite <- flat_map_concat_map.
destruct (flat_map _ results) as [|w ws] eqn:Hws; cbn;
  split; [reflexivity | discriminate | reflexivity | discriminate].
Qed.

(** ** Processing phases *)

(** X23. [canResumeFromPhase] is a total order on the phases, with
    [complete] on top and [fetching] at the bottom; and it agrees with
    [getCacheStatistics]: the completed phases, the current phase and the
    remaining phases make up the list of all phases in order, and a cache
    can resume from exactly its completed phases and its current phase. *)
Theorem canResumeFromPhase_total_order (p q r : ProcessingPhase) :
  canResumeFromPhase p p = true
  /\ (canResumeFromPhase p q = true -> canResumeFromPhase q r = true ->
      canResumeFromPhase p r = true)
  /\ (canResumeFromPhase p q = true -> canResumeFromPhase q p = true -> p = q)
  /\ (canResumeFromPhase p q = true \/ canResumeFromPhase q p = true)
  /\ canResumeFromPhase complete q = true
  /\ canResumeFromPhase p fetching = true
  /\ (let '(completed, current, remaining) := statisticsPhases p in
      completed ++ current :: remaining = phaseOrder
      /\ canResumeFromPhase p q = bool_decide (q ∈ completed ++ [current])).
Proof.
repeat split; destruct p, q; try reflexivity; try (left; reflexivity);
  try (right; reflexivity); try discriminate;
  destruct r; try reflexivity; discriminate.
Qed.

(** ** Loading the cache *)

Section load_facts.

Variable frt : FsRuntime.
Variable rrt : ReadRuntime.

(** X24. [loadCache] never throws and changes no file. It returns a cache
    only if the file holds a content that parses to that cache and the
    cache has the current version; when the file is missing it returns
    nothing. *)
Theorem loadCache_never_throws (cachePath : option string) (w : FsWorld) :
  crashAfter w = None ->
  let filePath := getCacheFilePath frt cachePath in
  exists result w',
    loadCache frt rrt cachePath w = (Returned result, w')
    /\ files w' = files w
    /\ (files w !! filePath = None -> result = None)
    /\ (forall cache,
          result = Some cache ->
          version cache = CACHE_VERSION
          /\ exists content,
               files w !! resolve frt filePath = Some content
               /\ parseCache rrt content = Some cache).
Proof.
intros Hlive. cbn zeta.
set (filePath := getCacheFilePath frt cachePath).
unfold loadCache, readJsonFile, fs_readFile, fileExists, try_catch, bind,
  syscall, ret, throw.
fold filePath. cbn -[getCacheFilePath]. rewrite Hlive.
destruct (fails frt (Access filePath)) eqn:Hacc; cbn -[getCacheFilePath].
{ do 2 eexists. repeat split; try reflexivity; intros; discriminate. }
destruct (files w !! filePath) as [present|] eqn:Hpresent;
  cbn -[getCacheFilePath];
  [|do 2 eexists; repeat split; try reflexivity; intros; discriminate].
destruct (readFails rrt (resolve frt filePath)) eqn:Hread;
  cbn -[getCacheFilePath].
{ do 2 eexists. repeat split; try reflexivity; intros; discriminate. }
destruct (files w !! resolve frt filePath) as [content|] eqn:Hcontent;
  cbn -[getCacheFilePath];
  [|do 2 eexists; repeat split; try reflexivity; intros; discriminate].
destruct (parseCache rrt content) as [cache|] eqn:Hparse;
  cbn -[getCacheFilePath];
  [|do 2 eexists; repeat split; try reflexivity; intros; discriminate].
destruct (String.eqb (version cache) CACHE_VERSION) eqn:Hversion;
  cbn -[getCacheFilePath];
  [|do 2 eexists; repeat split; try reflexivity; intros; discriminate].
do 2 eexists. split; [reflexivity|]. split; [reflexivity|].
split; [intros; discriminate|].
intros c [= <-]. split; [apply String.eqb_eq, Hversion|].
exists content. split; [reflexivity | exact Hparse].
Qed.

(** What [saveCache] leaves behind when the write goes through. *)
Lemma saveCache_written (cache : GcaCache) (cachePath : option string)
    (w : FsWorld) :
  let filePath := getCacheFilePath frt cachePath in
  let cache' :=
    mkCache (version cache) (timestamp cache) (repoHash cache) (isoNow frt)
            (N.of_nat (String.length (stringify frt cache))) (payload cache) in
  crashAfter w = None ->
  fails frt (OpenTruncate (resolve frt filePath)) = false ->
  fails frt (WriteAll (resolve frt filePath) (stringifyPretty frt cache'))
    = false ->
  exists w',
    saveCache frt cache cachePath w = (Returned cache', w')
    /\ crashAfter w' = None
    /\ files w' !! resolve frt filePath = Some (stringifyPretty frt cache').
Proof.
cbn zeta. intros Hlive Hopen Hwrite.
set (filePath := getCacheFilePath frt cachePath) in *.
set (backupPath := getCacheFilePath frt (Some BACKUP_CACHE_FILE)).
unfold saveCache, writeJsonFile, fs_writeFile, fileExists, try_catch, bind,
  syscall, ret, throw.
fold filePath. fold backupPath. cbn -[getCacheFilePath]. rewrite Hlive.
destruct (fails frt (Access filePath)); cbn -[getCacheFilePath];
  [|destruct (files w !! filePath) as [old|] eqn:Hold;
    cbn -[getCacheFilePath];
    [destruct (fails frt (CopyFile filePath backupPath));
     cbn -[getCacheFilePath]; rewrite ?Hold; cbn -[getCacheFilePath]|]];
  rewrite Hopen; cbn -[getCacheFilePath];
  rewrite Hwrite; cbn -[getCacheFilePath];
  eexists; (split; [reflexivity|]); (split; [reflexivity|]);
  apply lookup_insert_eq.
Qed.

(** X25. Saving a cache and loading it again gives back the record that was
    written: the record passed to [saveCache] with its size and update time
    refreshed. This holds when the process survives, the path is already
    resolved, the system calls on the file do not fail, the record has the
    current version, and parsing undoes the serialization of the record. *)
Theorem save_then_load_roundtrip (cache : GcaCache)
    (cachePath : option string) (w : FsWorld) :
  let filePath := getCacheFilePath frt cachePath in
  let cache' :=
    mkCache (version cache) (timestamp cache) (repoHash cache) (isoNow frt)
            (N.of_nat (String.length (stringify frt cache))) (payload cache) in
  crashAfter w = None ->
  resolve frt filePath = filePath ->
  fails frt (Access filePath) = false ->
  fails frt (OpenTruncate filePath) = false ->
  fails frt (WriteAll filePath (stringifyPretty frt cache')) = false ->
  readFails rrt filePath = false ->
  version cache = CACHE_VERSION ->
  parseCache rrt (stringifyPretty frt cache') = Some cache' ->
  exists w1 w2,
    saveCache frt cache cachePath w = (Returned cache', w1)
    /\ loadCache frt rrt cachePath w1 = (Returned (Some cache'), w2).
Proof.
cbn zeta. intros Hlive Hres Hacc Hopen Hwrite Hread Hversion Hparse.
set (filePath := getCacheFilePath frt cachePath) in *.
destruct (saveCache_written cache cachePath w Hlive) as (w1 & Hsave & Hlive1 & Hfile).
{ fold filePath. rewrite Hres. exact Hopen. }
{ fold filePath. rewrite Hres. exact Hwrite. }
fold filePath in Hfile. rewrite Hres in Hfile.
exists w1. eexists. split; [exact Hsave|].
unfold loadCache, readJsonFile, fs_readFile, fileExists, try_catch, bind,
  syscall, ret, throw.
fold filePath. cbn -[getCacheFilePath].
rewrite Hlive1, Hacc. cbn -[getCacheFilePath].
rewrite Hfile. cbn -[getCacheFilePath].
rewrite Hres, Hread, Hfile. cbn -[getCacheFilePath].
rewrite Hparse. cbn -[getCacheFilePath].
rewrite Hversion. cbn. reflexivity.
Qed.

End load_facts.

Lemma save_then_load_roundtrip_witness :
  exists w1 w2 loaded,
    saveCache frt_plain cache_new None (mkFsWorld files_old [] None)
      = (Returned loaded, w1)
    /\ loadCache frt_plain rrt_plain None w1 = (Returned (Some loaded), w2)
    /\ payload loaded = "new state".
Proof.
destruct (save_then_load_roundtrip frt_plain rrt_plain cache_new None
            (mkFsWorld files_old [] None))
  as (w1 & w2 & Hsave & Hload); try reflexivity.
exists w1, w2. eexists. repeat split; [exact Hsave | exact Hload | reflexivity].
Defined.

Lemma loadCache_never_throws_witness :
  exists w',
    loadCache frt_plain rrt_plain None (mkFsWorld ∅ [] None)
      = (Returned None, w').
Proof.
destruct (loadCache_never_throws frt_plain rrt_plain None
            (mkFsWorld ∅ [] None) eq_refl)
  as (result & w' & Hload & _ & Hmissing & _).
exists w'. rewrite Hload, (Hmissing eq_refl). reflexivity.
Defined.

(** ** What the batch engine returns *)

Section engine_output.

Variable rt : Runtime.
Variable config : Config.

Lemma classifyCommitsBatch_fields (commits : list EnrichedCommit) (w : World) :
  exists results w',
    classifyCommitsBatch rt config commits w = (Returned results, w')
    /\ Forall2 (fun r c => hash r = enriched_hash c
                           /\ message r = enriched_message c
                           /\ diff r = enriched_diff c) results commits.
Proof.
unfold classifyCommitsBatch, try_catch, bind.
pose proof (callLLMWithRetry_terminates rt config (classificationModel config)
              (createClassificationPrompt rt commits) w) as Hterm.
assert (Hun : Forall2 (fun r c => hash r = enriched_hash c
                                  /\ message r = enriched_message c
                                  /\ diff r = enriched_diff c)
                      (map unclassified commits) commits).
{ apply Forall2_fmap_l, Forall_Forall2_diag, Forall_forall.
  intros c _. repeat split. }
destruct (callLLMWithRetry _ _ _ _ _ w) as [[content|e|] w1]; cbn in *;
  [| |congruence].
- destruct (parseClassifications rt content) as [answer|]; cbn.
  + do 2 eexists. split; [reflexivity|].
    apply Forall2_fmap_l, Forall_Forall2_diag, Forall_forall.
    intros c _. unfold compose, attachClassification. cbn beta.
    case_match; repeat split.
  + do 2 eexists. split; [reflexivity | exact Hun].
- do 2 eexists. split; [reflexivity | exact Hun].
Qed.

Lemma loopBody_keeps (commits : list EnrichedCommit) (st st' : LoopState)
    (w w' : World) :
  (forall n, promptFails rt n = false) ->
  loopBody rt config commits st w = (Returned st', w') ->
  Forall2 keepsCommit (classifiedCommits st) (take (i st) commits) ->
  Forall2 keepsCommit (classifiedCommits st') (take (i st') commits).
Proof.
intros Hnf Hbody Hinv. revert Hbody.
unfold loopBody.
set (batch := slice_batch commits (i st)
                (BatchManager.getCurrentBatchSize (batchManager st))).
unfold try_catch, tryBatch, bind at 1, buildPrompt.
rewrite Hnf.
destruct (contextLimitThreshold config <? _).
- destruct (_ && _).
  + unfold bind.
    destruct (classifyCommitsBatch_fields (map truncateDiff batch)
                {| clock := clock w; slept := slept w;
                   fetchCount := fetchCount w;
                   iterations := S (iterations w);
                   rateLimitInfo := rateLimitInfo w |})
      as (results & w1 & -> & Hres).
    cbn -[BatchManager.adjustBatchSize]. intros [= <- <-].
    cbn -[BatchManager.adjustBatchSize].
    subst batch. rewrite take_slice_batch.
    apply Forall2_app; [exact Hinv|].
    apply Forall2_fmap_r in Hres.
    eapply Forall2_impl; [exact Hres|].
    intros r c (H1 & H2 & H3). repeat split; [exact H1 | exact H2|].
    right. exact H3.
  + cbn -[BatchManager.adjustBatchSize]. intros [= <- <-]. exact Hinv.
- unfold bind.
  destruct (classifyCommitsBatch_fields batch
              {| clock := clock w; slept := slept w;
                 fetchCount := fetchCount w;
                 iterations := S (iterations w);
                 rateLimitInfo := rateLimitInfo w |})
    as (results & w1 & -> & Hres).
  destruct (i st + length batch <? length commits)%nat;
    cbn -[BatchManager.adjustBatchSize]; intros [= <- <-];
    cbn -[BatchManager.adjustBatchSize];
    subst batch; rewrite take_slice_batch;
    (apply Forall2_app; [exact Hinv|]);
    (eapply Forall2_impl; [exact Hres|]);
    intros r c (H1 & H2 & H3); repeat split; auto.
Qed.

Lemma batchLoop_keeps (fuel : nat) (commits : list EnrichedCommit)
    (st st' : LoopState) (w w' : World) :
  (forall n, promptFails rt n = false) ->
  batchLoop rt config fuel commits st w = (Returned st', w') ->
  Forall2 keepsCommit (classifiedCommits st) (take (i st) commits) ->
  Forall2 keepsCommit (classifiedCommits st') (take (i st') commits)
  /\ (length commits <= i st')%nat.
Proof.
intros Hnf. revert st w. induction fuel as [|fuel IH]; intros st w;
  cbn [batchLoop];
  destruct (i st <? length commits)%nat eqn:Hlt;
  try (apply Nat.ltb_ge in Hlt); try discriminate.
1,3: intros [= <- <-] Hinv; split; assumption.
unfold bind at 1.
destruct (loopBody rt config commits st w) as [[st1| |] w1] eqn:Hbody;
  try discriminate.
intros Hloop Hinv.
apply (IH _ _ Hloop). eapply loopBody_keeps; eassumption.
Qed.

End engine_output.


